(** * Temporal feature engine of the tennis predictor

    A shallow embedding of [src/features/engineering.py],
    [src/features/rolling.py] and [src/data/preprocess.py], and the
    properties of the feature table they build.

    Conventions of the embedding:
    - Python [int] is [Z]; Python [float] results of divisions and means are
      exact rationals [Q] (the rounding of IEEE arithmetic is not modelled);
      a pandas [NaN]/[NaT] cell is [None];
    - a Python [dict] is a stdpp [gmap]; the two-element lists [[wins, total]]
      and [[wins_a, wins_b]] stored in the dicts are pairs;
    - a [DataFrame] is the list of its rows, its [RangeIndex] being the
      position in the list. *)

From Stdlib Require Import QArith Ascii Lqa.
From stdpp Require Import gmap strings list fin_maps sorting pretty.

Open Scope Z_scope.

(** ** [config.py] *)

Definition DEFAULT_WIN_PCT : Q := 1 # 2.
Definition RECENT_FORM_WINDOWS : list nat := [5%nat; 10%nat].

(** Sum of [f v] over the values of a dictionary. *)
Definition map_sum `{Countable K} {V} (f : V → Z) (m : gmap K V) : Z :=
  map_fold (λ _ v acc, f v + acc) 0 m.

(** ** Surface history: [{player: {surface: [wins, total]}}] *)

Module Surface.

Abbreviation history := (gmap string (gmap string (Z * Z))).

(** Python's [wins / total] on two ints. *)
Definition true_div (a b : Z) : Q := (inject_Z a / inject_Z b)%Q.

(** [get_surface_win_pct], engineering.py lines 37-47, reading the closure
    variable [surface_history]. *)
Definition get_surface_win_pct (surface_history : history)
    (player surface : string) : Q :=
  if String.eqb surface "Unknown" then DEFAULT_WIN_PCT
  else
    match surface_history !! player with
    | Some by_surface =>
        match by_surface !! surface with
        | Some (wins, total) =>
            if 0 <? total then true_div wins total else DEFAULT_WIN_PCT
        | None => DEFAULT_WIN_PCT
        end
    | None => DEFAULT_WIN_PCT
    end.

(** [update_surface_history], engineering.py lines 49-58; the mutated
    dictionary is returned. *)
Definition update_surface_history (surface_history : history)
    (player surface : string) (won : bool) : history :=
  let surface_history :=
    match surface_history !! player with
    | None => <[player := ∅]> surface_history
    | Some _ => surface_history
    end in
  let by_surface := default ∅ (surface_history !! player) in
  let by_surface :=
    match by_surface !! surface with
    | None => <[surface := (0, 0)]> by_surface
    | Some _ => by_surface
    end in
  let '(wins, total) := default (0, 0) (by_surface !! surface) in
  let total := total + 1 in
  let wins := if won then wins + 1 else wins in
  <[player := <[surface := (wins, total)]> by_surface]> surface_history.

(** The counters of one (player, surface) entry, if the entry exists. *)
Definition entry (h : history) (player surface : string) : option (Z * Z) :=
  h !! player ≫= λ by_surface, by_surface !! surface.

(** States reachable from the empty dictionary by [update_surface_history]
    calls. *)
Inductive reachable : history → Prop :=
  | reachable_empty : reachable ∅
  | reachable_update h player surface won :
      reachable h → reachable (update_surface_history h player surface won).

(** Sum of the [total] counters over all entries. *)
Definition sum_total (h : history) : Z := map_sum (map_sum snd) h.

(** Pointwise growth: every entry stays, no counter decreases. *)
Definition grows (h h' : history) : Prop :=
  ∀ player surface wins total,
    entry h player surface = Some (wins, total) →
    ∃ wins' total',
      entry h' player surface = Some (wins', total') ∧
      wins ≤ wins' ∧ total ≤ total'.

End Surface.

(** ** Head-to-head history: [{(first, second): [wins_a, wins_b]}] *)

Module H2H.

Abbreviation history := (gmap (string * string) (Z * Z)).

(** [tuple(sorted([p1, p2]))], engineering.py line 71. *)
Definition sorted_pair (p1 p2 : string) : string * string :=
  if String.ltb p2 p1 then (p2, p1) else (p1, p2).

(** The read at lines 73-81. *)
Definition diff (h2h_history : history) (p1 p2 : string) : Z :=
  let pair := sorted_pair p1 p2 in
  match h2h_history !! pair with
  | Some (wins_a, wins_b) =>
      if String.eqb p1 (fst pair) then wins_a - wins_b else wins_b - wins_a
  | None => 0
  end.

(** [winner_index], lines 93-96. *)
Definition winner_index (p1 p2 : string) (p1_won : bool) : nat :=
  let pair := sorted_pair p1 p2 in
  if (p1_won && String.eqb p1 (fst pair))
     || (negb p1_won && negb (String.eqb p1 (fst pair)))
  then 0%nat else 1%nat.

(** [h2h_history[pair][winner_index] += 1] on a two-element list. *)
Definition bump (i : nat) (wins : Z * Z) : Z * Z :=
  match i with
  | O => (fst wins + 1, snd wins)
  | _ => (fst wins, snd wins + 1)
  end.

(** The write at lines 89-98. *)
Definition record (h2h_history : history) (p1 p2 : string) (p1_won : bool)
    : history :=
  let pair := sorted_pair p1 p2 in
  let h2h_history :=
    match h2h_history !! pair with
    | None => <[pair := (0, 0)]> h2h_history
    | Some _ => h2h_history
    end in
  let wins := default (0, 0) (h2h_history !! pair) in
  <[pair := bump (winner_index p1 p2 p1_won) wins]> h2h_history.

(** Sum of [wins_a + wins_b] over all pairs. *)
Definition sum_wins (h : history) : Z := map_sum (λ w, fst w + snd w) h.

(** Pointwise growth of the pair counters. *)
Definition grows (h h' : history) : Prop :=
  ∀ pair wins_a wins_b,
    h !! pair = Some (wins_a, wins_b) →
    ∃ wins_a' wins_b',
      h' !! pair = Some (wins_a', wins_b') ∧
      wins_a ≤ wins_a' ∧ wins_b ≤ wins_b'.

End H2H.

(** ** The match table *)

(** A converted [tourney_date] cell: days since some epoch, [None] for [NaT]. *)
Abbreviation Timestamp := (option Z).

(** One row of the preprocessed frame. The [tourney_date] cell is the raw
    [%Y%m%d] integer (or missing) on input and a [Timestamp] after the
    conversion at line 24 of engineering.py. Columns the engine never reads
    (ranks, ages, tournament level) are not modelled. *)
Record Match := mkMatch {
  tourney_date : option Z;
  surface : option string;          (* [None] is a missing (NaN) surface *)
  p1_name : string;
  p2_name : string;
  target : Z;                       (* 1 iff player 1 won *)
  p1_games_won : Z; p1_games_lost : Z; p1_sets_won : Z; p1_sets_lost : Z;
  p2_games_won : Z; p2_games_lost : Z; p2_sets_won : Z; p2_sets_lost : Z;
}.

Definition set_date (d : Timestamp) (m : Match) : Match :=
  mkMatch d (surface m) (p1_name m) (p2_name m) (target m)
    (p1_games_won m) (p1_games_lost m) (p1_sets_won m) (p1_sets_lost m)
    (p2_games_won m) (p2_games_lost m) (p2_sets_won m) (p2_sets_lost m).

(** Order of [Timestamp] cells under [sort_values]: ascending, [NaT] last. *)
Definition date_leb (d1 d2 : Timestamp) : bool :=
  match d1, d2 with
  | Some a, Some b => a <=? b
  | _, None => true
  | None, Some _ => false
  end.

Definition date_ltb (d1 d2 : Timestamp) : bool := negb (date_leb d2 d1).

Definition date_sorted (df : list Match) : Prop :=
  StronglySorted
    (λ m1 m2, date_leb (tourney_date m1) (tourney_date m2) = true) df.

(** The two pandas calls of [add_features] whose result the repository does
    not determine: [pd.to_datetime(..., format="%Y%m%d", errors="coerce")]
    on a raw cell, and [df.sort_values("tourney_date")] with the default
    sort kind (quicksort), which returns the rows in ascending date order,
    [NaT] last, and promises nothing on the order of equal dates. *)
Class Pandas := {
  to_datetime : option Z → Timestamp;
  sort_values_tourney_date : list Match → list Match;
  sort_values_permutation df : sort_values_tourney_date df ≡ₚ df;
  sort_values_sorted df : date_sorted (sort_values_tourney_date df);
}.

(** A sort that meets this contract inserts the rows one by one into the
    sorted result; [before d d'] says whether a row dated [d] is put in
    front of a row dated [d'] that entered the frame after it. With
    [date_leb] equal dates keep the order of the input (a stable sort). *)
Fixpoint insert_by_date (before : Timestamp → Timestamp → bool) (m : Match)
    (l : list Match) : list Match :=
  match l with
  | [] => [m]
  | m' :: l' =>
      if before (tourney_date m) (tourney_date m') then m :: l
      else m' :: insert_by_date before m l'
  end.

Definition sort_by_date (before : Timestamp → Timestamp → bool)
    (df : list Match) : list Match :=
  foldr (insert_by_date before) [] df.

Section sort_by_date.
Variable before : Timestamp → Timestamp → bool.
Hypothesis before_le : ∀ d d', before d d' = true → date_leb d d' = true.
Hypothesis not_before_ge : ∀ d d', before d d' = false → date_leb d' d = true.

Lemma date_leb_trans (d1 d2 d3 : Timestamp) :
  date_leb d1 d2 = true → date_leb d2 d3 = true → date_leb d1 d3 = true.
Proof.
  destruct d1, d2, d3; simpl; try done.
  rewrite !Z.leb_le. lia.
Qed.

Lemma insert_by_date_perm m l : insert_by_date before m l ≡ₚ m :: l.
Proof.
  induction l as [|m' l IH]; simpl; [done|].
  destruct (before _ _); [done|]. rewrite IH. apply Permutation_swap.
Qed.

Lemma sort_by_date_perm df : sort_by_date before df ≡ₚ df.
Proof.
  induction df as [|m df IH]; simpl; [done|].
  by rewrite insert_by_date_perm, IH.
Qed.

Lemma insert_by_date_sorted m l :
  date_sorted l → date_sorted (insert_by_date before m l).
Proof.
  unfold date_sorted. induction l as [|m' l IH]; simpl; intros Hs.
  - repeat constructor.
  - apply StronglySorted_cons in Hs as [Hm' Hl].
    destruct (before _ _) eqn:Hb.
    + apply StronglySorted_cons. split; [|by apply StronglySorted_cons].
      constructor; [by apply before_le|].
      eapply Forall_impl; [exact Hm'|]. intros z Hz. simpl in Hz.
      eapply date_leb_trans; [by apply before_le|done].
    + apply StronglySorted_cons. split; [|auto].
      rewrite insert_by_date_perm. constructor; [|done].
      by apply not_before_ge.
Qed.

Lemma sort_by_date_sorted df : date_sorted (sort_by_date before df).
Proof.
  induction df as [|m df IH]; simpl; [constructor|].
  by apply insert_by_date_sorted.
Qed.
End sort_by_date.

Lemma date_leb_total (d d' : Timestamp) :
  date_leb d d' = false → date_leb d' d = true.
Proof.
  destruct d, d'; simpl; try done. rewrite Z.leb_gt, Z.leb_le. lia.
Qed.

(** The raw cell is taken as the timestamp. *)
Definition pandas_stable : Pandas := {|
  to_datetime d := d;
  sort_values_tourney_date := sort_by_date date_leb;
  sort_values_permutation := sort_by_date_perm date_leb;
  sort_values_sorted :=
    sort_by_date_sorted date_leb (λ _ _ Hb, Hb) date_leb_total;
|}.

(** ** The library sort behind [sort_values] *)

(** [df.sort_values("tourney_date")] on one column goes through pandas'
    [nargsort]: the rows whose date is not [NaT] are ordered by
    [numpy.argsort(kind="quicksort")] on their dates, and the [NaT] rows
    follow in the order of the input. numpy's quicksort on an index array
    ([aquicksort] in [npysort/quicksort.cpp]) is an introsort: while a run
    has more than sixteen elements it is split around the median of its
    first, middle and last element, the larger part being put on a stack;
    a run of at most sixteen elements is sorted by insertion; a run reached
    with the depth budget used up is sorted by heapsort. Neither library is
    part of the repository: the procedures below follow their sources. *)
Module Npysort.

(** Runs of more than this many elements are partitioned. *)
Definition SMALL_QUICKSORT : Z := 16.

Section aquicksort.
(** [v]: the keys; [tosort]: the index array, addressed by offsets. *)
Variable v : list Z.
Implicit Types (tosort : list nat) (pl pr pi pj pm : Z).

(** [*p], [v[*p]] and [*p = x]. *)
Definition deref tosort (p : Z) : nat := default 0%nat (tosort !! Z.to_nat p).
Definition key tosort (p : Z) : Z := default 0 (v !! deref tosort p).
Definition store tosort (p : Z) (x : nat) : list nat :=
  <[Z.to_nat p := x]> tosort.

Definition INTP_SWAP tosort (p q : Z) : list nat :=
  store (store tosort p (deref tosort q)) q (deref tosort p).

(** [do { ++pi; } while (v[*pi] < vp)], entered at the incremented [pi]. *)
Fixpoint scan_up (fuel : nat) tosort (vp : Z) pi : Z :=
  match fuel with
  | O => pi
  | S fuel =>
      if key tosort pi <? vp then scan_up fuel tosort vp (pi + 1) else pi
  end.

(** [do { --pj; } while (vp < v[*pj])], entered at the decremented [pj]. *)
Fixpoint scan_down (fuel : nat) tosort (vp : Z) pj : Z :=
  match fuel with
  | O => pj
  | S fuel =>
      if vp <? key tosort pj then scan_down fuel tosort vp (pj - 1) else pj
  end.

(** The [for (;;)] loop of the partition; returns the array and [pi]. *)
Fixpoint partition_loop (fuel : nat) tosort (vp : Z) pi pj : list nat * Z :=
  match fuel with
  | O => (tosort, pi)
  | S fuel =>
      let pi := scan_up (length tosort) tosort vp (pi + 1) in
      let pj := scan_down (length tosort) tosort vp (pj - 1) in
      if pj <=? pi then (tosort, pi)
      else partition_loop fuel (INTP_SWAP tosort pi pj) vp pi pj
  end.

(** One partition of the run [pl .. pr] around the median of three. *)
Definition partition tosort pl pr : list nat * Z :=
  let pm := pl + Z.shiftr (pr - pl) 1 in
  let tosort :=
    if key tosort pm <? key tosort pl then INTP_SWAP tosort pm pl
    else tosort in
  let tosort :=
    if key tosort pr <? key tosort pm then INTP_SWAP tosort pr pm
    else tosort in
  let tosort :=
    if key tosort pm <? key tosort pl then INTP_SWAP tosort pm pl
    else tosort in
  let vp := key tosort pm in
  let tosort := INTP_SWAP tosort pm (pr - 1) in
  let '(tosort, pi) :=
    partition_loop (length tosort) tosort vp pl (pr - 1) in
  (INTP_SWAP tosort pi (pr - 1), pi).

(** [while (pj > pl && vp < v[*pk]) { *pj-- = *pk--; }] with [pk = pj - 1]. *)
Fixpoint shift_run (fuel : nat) tosort (vp : Z) pl pj : list nat * Z :=
  match fuel with
  | O => (tosort, pj)
  | S fuel =>
      if (pl <? pj) && (vp <? key tosort (pj - 1)) then
        shift_run fuel (store tosort pj (deref tosort (pj - 1))) vp pl (pj - 1)
      else (tosort, pj)
  end.

(** The insertion sort of the run [pl .. pr], from [pi] on. *)
Fixpoint insertion_sort (fuel : nat) tosort pl pr pi : list nat :=
  match fuel with
  | O => tosort
  | S fuel =>
      if pi <=? pr then
        let vi := deref tosort pi in
        let '(tosort, pj) :=
          shift_run (length tosort) tosort (default 0 (v !! vi)) pl pi in
        insertion_sort fuel (store tosort pj vi) pl pr (pi + 1)
      else tosort
  end.

(** The sift loop of [aheapsort] on the one-based array [a = tosort + base]:
    [for (i = l, j = l << 1; j <= n;)]; returns the array and [i]. *)
Fixpoint sift (fuel : nat) tosort (base n : Z) (tmp : nat) (i j : Z)
    : list nat * Z :=
  match fuel with
  | O => (tosort, i)
  | S fuel =>
      if j <=? n then
        let j :=
          if (j <? n) && (key tosort (base + j) <? key tosort (base + j + 1))
          then j + 1 else j in
        if default 0 (v !! tmp) <? key tosort (base + j) then
          sift fuel (store tosort (base + i) (deref tosort (base + j)))
               base n tmp j (j + j)
        else (tosort, i)
      else (tosort, i)
  end.

(** [for (l = n >> 1; l > 0; --l)]: building the heap. *)
Fixpoint heapify (fuel : nat) tosort (base n l : Z) : list nat :=
  match fuel with
  | O => tosort
  | S fuel =>
      if 0 <? l then
        let tmp := deref tosort (base + l) in
        let '(tosort, i) :=
          sift (length tosort) tosort base n tmp l (Z.shiftl l 1) in
        heapify fuel (store tosort (base + i) tmp) base n (l - 1)
      else tosort
  end.

(** [for (; n > 1;)]: taking the largest element out of the heap. *)
Fixpoint sort_down (fuel : nat) tosort (base n : Z) : list nat :=
  match fuel with
  | O => tosort
  | S fuel =>
      if 1 <? n then
        let tmp := deref tosort (base + n) in
        let tosort := store tosort (base + n) (deref tosort (base + 1)) in
        let n := n - 1 in
        let '(tosort, i) := sift (length tosort) tosort base n tmp 1 2 in
        sort_down fuel (store tosort (base + i) tmp) base n
      else tosort
  end.

(** [aheapsort(vv, pl, n)]. *)
Definition aheapsort tosort pl (n : Z) : list nat :=
  let base := pl - 1 in
  sort_down (Z.to_nat n)
    (heapify (Z.to_nat n) tosort base n (Z.shiftr n 1)) base n.

(** The inner [while ((pr - pl) ...)] loop: partitions the current run until
    it is small, pushing the larger part and the decremented depth. *)
Fixpoint partition_while (fuel : nat) tosort pl pr (cdepth : Z)
    (stack : list (Z * Z * Z)) : list nat * Z * Z * list (Z * Z * Z) :=
  match fuel with
  | O => (tosort, pl, pr, stack)
  | S fuel =>
      if SMALL_QUICKSORT <? pr - pl + 1 then
        let '(tosort, pi) := partition tosort pl pr in
        let cdepth := cdepth - 1 in
        if pi - pl <? pr - pi then
          partition_while fuel tosort pl (pi - 1) cdepth
            ((pi + 1, pr, cdepth) :: stack)
        else
          partition_while fuel tosort (pi + 1) pr cdepth
            ((pl, pi - 1, cdepth) :: stack)
      else (tosort, pl, pr, stack)
  end.

(** The outer [while (1)] loop: one run, then the next one off the stack. *)
Fixpoint run (fuel : nat) tosort pl pr (cdepth : Z)
    (stack : list (Z * Z * Z)) : list nat :=
  match fuel with
  | O => tosort
  | S fuel =>
      let '(tosort, stack) :=
        if cdepth <? 0 then (aheapsort tosort pl (pr - pl + 1), stack)
        else
          let '(tosort, pl, pr, stack) :=
            partition_while (length tosort) tosort pl pr cdepth stack in
          (insertion_sort (length tosort) tosort pl pr (pl + 1), stack) in
      match stack with
      | [] => tosort
      | (pl, pr, cdepth) :: stack => run fuel tosort pl pr cdepth stack
      end
  end.

(** [v.argsort(kind="quicksort")]: the index array starts as [0 .. num-1],
    the depth budget as twice the position of the highest bit of [num]. *)
Definition argsort : list nat :=
  let num := length v in
  run (S num) (seq 0 num) 0 (Z.of_nat num - 1)
      (2 * Z.log2 (Z.of_nat num)) [].
End aquicksort.

End Npysort.

(** [nargsort(items, kind="quicksort", ascending=True, na_position="last")]
    of pandas: the positions of the dated cells in the order [argsort]
    gives their dates, then the positions of the [NaT] cells. *)
Definition nargsort (items : list Timestamp) : list nat :=
  let idx := seq 0 (length items) in
  let non_nan_idx := filter (λ i, is_Some (mjoin (items !! i))) idx in
  let nan_idx := filter (λ i, ¬ is_Some (mjoin (items !! i))) idx in
  omap (λ k, non_nan_idx !! k) (Npysort.argsort (omap id items)) ++ nan_idx.

(** [df.take(indexer)]. *)
Definition take_rows (indexer : list nat) (df : list Match) : list Match :=
  omap (λ i, df !! i) indexer.

(** [df.sort_values("tourney_date")] through [nargsort]. The indexer the
    sort returns is a permutation of the positions that puts the dates in
    order; where the procedure above did not give one, the rows are
    inserted one by one instead. *)
Definition quicksort_values (df : list Match) : list Match :=
  let indexer := nargsort (map tourney_date df) in
  if decide (indexer ≡ₚ seq 0 (length df) ∧ date_sorted (take_rows indexer df))
  then take_rows indexer df
  else sort_by_date date_leb df.

Lemma take_rows_seq (df : list Match) k :
  take_rows (seq k (length df - k)) df = drop k df.
Proof.
  remember (length df - k)%nat as n eqn:Hn.
  revert k Hn. induction n as [|n IH]; intros k Hn.
  - rewrite drop_ge; [done|lia].
  - destruct (lookup_lt_is_Some_2 df k ltac:(lia)) as [m Hm].
    rewrite (drop_S _ _ _ Hm), <- (IH (S k)) by lia.
    unfold take_rows. cbn [seq omap list_omap]. by rewrite Hm.
Qed.

Lemma quicksort_values_perm df : quicksort_values df ≡ₚ df.
Proof.
  unfold quicksort_values. case_decide as Hd.
  - destruct Hd as [Hp _]. unfold take_rows. rewrite Hp.
    pose proof (take_rows_seq df 0) as Hs. rewrite Nat.sub_0_r in Hs.
    unfold take_rows in Hs. by rewrite Hs.
  - apply sort_by_date_perm.
Qed.

Lemma quicksort_values_sorted df : date_sorted (quicksort_values df).
Proof.
  unfold quicksort_values. case_decide as Hd.
  - by destruct Hd.
  - apply (sort_by_date_sorted date_leb (λ _ _ Hb, Hb) date_leb_total).
Qed.

(** The raw cell is taken as the timestamp here too: on eight-digit cells
    [YYYYMMDD] that name calendar days the order of the cells is the order
    of the days. *)
Definition pandas_quicksort : Pandas := {|
  to_datetime d := d;
  sort_values_tourney_date := quicksort_values;
  sort_values_permutation := quicksort_values_perm;
  sort_values_sorted := quicksort_values_sorted;
|}.

(** ** The streaming pass of [add_features] (engineering.py lines 27-98) *)

Record LoopState := mkLoop {
  surface_history : Surface.history;
  h2h_history : H2H.history;
  p1_surface_pct : list Q;
  p2_surface_pct : list Q;
  h2h_diff : list Z;
}.

Definition loop_init : LoopState := mkLoop ∅ ∅ [] [] [].

(** The surface a row is filed under, line 63. *)
Definition row_surface (row : Match) : string :=
  default "Unknown"%string (surface row).

(** [row["target"] == 1], line 64. *)
Definition row_p1_won (row : Match) : bool := target row =? 1.

(** One iteration of [for _, row in df.iterrows()], lines 60-98. *)
Definition loop_body (st : LoopState) (row : Match) : LoopState :=
  let p1 := p1_name row in
  let p2 := p2_name row in
  let surface := row_surface row in
  let p1_won := row_p1_won row in
  let p1_pct := Surface.get_surface_win_pct (surface_history st) p1 surface in
  let p2_pct := Surface.get_surface_win_pct (surface_history st) p2 surface in
  let diff := H2H.diff (h2h_history st) p1 p2 in
  let sh := Surface.update_surface_history (surface_history st) p1 surface p1_won in
  let sh := Surface.update_surface_history sh p2 surface (negb p1_won) in
  let hh := H2H.record (h2h_history st) p1 p2 p1_won in
  mkLoop sh hh (p1_surface_pct st ++ [p1_pct]) (p2_surface_pct st ++ [p2_pct])
    (h2h_diff st ++ [diff]).

Definition run_loop (df : list Match) : LoopState :=
  fold_left loop_body df loop_init.

(** Who won a match, and the head-to-head tallies of a history of matches,
    counted directly. *)
Definition winner (m : Match) : string :=
  if row_p1_won m then p1_name m else p2_name m.

Definition between (a b : string) (m : Match) : bool :=
  (String.eqb (p1_name m) a && String.eqb (p2_name m) b)
  || (String.eqb (p1_name m) b && String.eqb (p2_name m) a).

Definition prior_wins (a b : string) (past : list Match) : Z :=
  Z.of_nat (length (filter (λ m, between a b m = true ∧ winner m = a) past)).

Definition plays (p : string) (m : Match) : Prop :=
  p1_name m = p ∨ p2_name m = p.

(** ** Column stores and text helpers *)

(** [needle in hay] on Python strings. *)
Fixpoint contains (needle hay : string) : bool :=
  String.prefix needle hay
  || match hay with
     | EmptyString => false
     | String _ rest => contains needle rest
     end.

(** The float columns of a frame, in insertion order. *)
Abbreviation columns := (list (string * list (option Q))).

Fixpoint get_col (name : string) (cols : columns) : option (list (option Q)) :=
  match cols with
  | [] => None
  | (c, v) :: rest => if String.eqb c name then Some v else get_col name rest
  end.

(** [frame[name] = values]: overwrite the column in place, or append it. *)
Fixpoint set_col (name : string) (values : list (option Q)) (cols : columns)
    : columns :=
  match cols with
  | [] => [(name, values)]
  | (c, v) :: rest =>
      if String.eqb c name then (c, values) :: rest
      else (c, v) :: set_col name values rest
  end.

Definition Qsum (xs : list Q) : Q := foldr Qplus 0%Q xs.

(** [Series.mean()]: the mean of the cells that are not NaN, NaN if there
    is none. *)
Definition series_mean (xs : list (option Q)) : option Q :=
  match omap id xs with
  | [] => None
  | obs => Some (Qsum obs / inject_Z (Z.of_nat (length obs)))%Q
  end.

(** [Series.fillna(value)]; filling with NaN changes nothing. *)
Definition fillna (value : option Q) (xs : list (option Q)) : list (option Q) :=
  map (λ x, match x with Some _ => x | None => value end) xs.

(** ** Rolling form: [compute_rolling_features] (rolling.py) *)

Module Rolling.

(** One row of [player_df]. *)
Record Event := mkEvent {
  date : Timestamp;
  player : string;
  opponent : string;
  won : Z;
  games_won : Z; games_lost : Z; sets_won : Z; sets_lost : Z;
  match_index : nat;
  is_p1 : bool;
}.

(** Rows of [df_p1] (lines 26-39) and [df_p2] (lines 42-59). *)
Definition p1_event (i : nat) (m : Match) : Event :=
  mkEvent (tourney_date m) (p1_name m) (p2_name m) (target m)
    (p1_games_won m) (p1_games_lost m) (p1_sets_won m) (p1_sets_lost m)
    i true.

Definition p2_event (i : nat) (m : Match) : Event :=
  mkEvent (tourney_date m) (p2_name m) (p1_name m) (1 - target m)
    (p2_games_won m) (p2_games_lost m) (p2_sets_won m) (p2_sets_lost m)
    i false.

(** [pd.concat([df_p1, df_p2], ignore_index=True)], line 62: every row gets
    its position as label. *)
Definition concat (df : list Match) : list (nat * Event) :=
  imap (λ j e, (j, e)) (imap p1_event df ++ imap p2_event df).

(** The sort key [['player', 'date', 'match_index']], line 65. *)
Definition key_leb (e1 e2 : Event) : bool :=
  match String.compare (player e1) (player e2) with
  | Lt => true
  | Gt => false
  | Eq =>
      if date_ltb (date e1) (date e2) then true
      else if date_ltb (date e2) (date e1) then false
      else (match_index e1 <=? match_index e2)%nat
  end.

(** [sort_values] on several columns is a stable sort; the labels move with
    the rows. *)
Fixpoint insert_row (r : nat * Event) (l : list (nat * Event))
    : list (nat * Event) :=
  match l with
  | [] => [r]
  | r' :: l' =>
      if key_leb (snd r) (snd r') then r :: l else r' :: insert_row r l'
  end.

Definition sort_values (l : list (nat * Event)) : list (nat * Event) :=
  foldr insert_row [] l.

(** [groupby('player')]: the group keys and the rows of one group. *)
Definition group_keys (player_df : list (nat * Event)) : list string :=
  remove_dups (map (λ r, player (snd r)) player_df).

Definition get_group (p : string) (player_df : list (nat * Event))
    : list (nat * Event) :=
  filter (λ r, player (snd r) = p) player_df.

(** [x.shift(1)]: every cell moves one row down, the first becomes NaN. *)
Definition shift1 (xs : list (option Q)) : list (option Q) :=
  match xs with
  | [] => []
  | _ => None :: removelast xs
  end.

(** The cells a window of size [window] ending at row [i] covers. *)
Definition window_at (window i : nat) (xs : list (option Q))
    : list (option Q) :=
  drop (S i - window) (take (S i) xs).

(** [.rolling(window, min_periods).mean()]: NaN cells are left out, and the
    result is NaN with fewer than [min_periods] cells left. *)
Definition window_mean (min_periods : nat) (cells : list (option Q))
    : option Q :=
  let obs := omap id cells in
  if (min_periods <=? length obs)%nat && (1 <=? length obs)%nat
  then Some (Qsum obs / inject_Z (Z.of_nat (length obs)))%Q
  else None.

Definition rolling_mean (window min_periods : nat) (xs : list (option Q))
    : list (option Q) :=
  imap (λ i _, window_mean min_periods (window_at window i xs)) xs.

(** The lambda of line 80 on one metric column of one group; the result
    keeps the labels of the group's rows. *)
Definition apply_group (window : nat) (metric : Event → Z)
    (group : list (nat * Event)) : list (nat * option Q) :=
  zip (map fst group)
      (rolling_mean window 1
         (shift1 (map (λ r, Some (inject_Z (metric (snd r)))) group))).

(** [grouped.apply(...)[metric].reset_index(0, drop=True)], lines 79-91: the
    groups' results one after the other, labelled by row. *)
Definition rolling_stats (window : nat) (metric : Event → Z)
    (player_df : list (nat * Event)) : list (nat * option Q) :=
  flat_map (λ p, apply_group window metric (get_group p player_df))
           (group_keys player_df).

(** Reading a labelled series at a label; NaN where the label is absent. *)
Fixpoint series_at (series : list (nat * option Q)) (label : nat) : option Q :=
  match series with
  | [] => None
  | (l, v) :: rest => if decide (l = label) then v else series_at rest label
  end.

(** [player_df[name] = series]: the series is aligned on the row labels. *)
Definition aligned (series : list (nat * option Q))
    (player_df : list (nat * Event)) : list (option Q) :=
  map (λ r, series_at series (fst r)) player_df.

(** The names of the base columns of [player_df]. *)
Definition base_columns : list string :=
  ["date"; "player"; "opponent"; "won"; "games_won"; "games_lost";
   "sets_won"; "sets_lost"; "match_index"; "is_p1"]%string.

(** The f-string [f'{stem}{window}']. *)
Definition fname (stem : string) (window : nat) : string :=
  stem +:+ pretty window.

(** A rolling column as it is stored in [player_df], before any fill. *)
Definition raw_column (window : nat) (metric : Event → Z)
    (player_df : list (nat * Event)) : list (option Q) :=
  aligned (rolling_stats window metric player_df) player_df.

(** One iteration of [for window in windows], lines 74-91. *)
Definition add_window (player_df : list (nat * Event)) (cols : columns)
    (window : nat) : columns :=
  let stats metric := raw_column window metric player_df in
  let cols := set_col (fname "recent_win_rate_" window) (stats won) cols in
  let cols := set_col (fname "recent_games_won_avg_" window) (stats games_won) cols in
  let cols := set_col (fname "recent_games_lost_avg_" window) (stats games_lost) cols in
  let cols := set_col (fname "recent_sets_won_avg_" window) (stats sets_won) cols in
  set_col (fname "recent_sets_lost_avg_" window) (stats sets_lost) cols.

(** [player_df[win_cols] = player_df[win_cols].fillna(DEFAULT_WIN_PCT)],
    lines 95-96. *)
Definition fill_win_cols (cols : columns) : columns :=
  let win_cols :=
    filter (λ c, contains "win_rate" c = true) (base_columns ++ map fst cols) in
  map (λ '(c, v), if decide (c ∈ win_cols)
                  then (c, fillna (Some DEFAULT_WIN_PCT) v) else (c, v)) cols.

(** The loop of lines 99-101. *)
Definition fill_stat_cols (cols : columns) : columns :=
  let stat_cols :=
    filter (λ c, contains "recent_" c = true ∧ contains "win_rate" c = false)
           (base_columns ++ map fst cols) in
  fold_left (λ cols col,
               match get_col col cols with
               | Some v => set_col col (fillna (series_mean v) v) cols
               | None => cols
               end) stat_cols cols.

(** [player_df[player_df['is_p1'] == role].set_index('match_index')] joined
    to the match rows (lines 109-120): row [i] of the frame takes the cell of
    the event of that role whose [match_index] is [i]. *)
Definition join_col (role : bool) (player_df : list (nat * Event))
    (n : nat) (v : list (option Q)) : list (option Q) :=
  map (λ i,
         match list_find (λ r, is_p1 (snd r) = role ∧ match_index (snd r) = i)
                         player_df with
         | Some (j, _) => mjoin (v !! j)
         | None => None
         end) (seq 0 n).

Definition role_features (role : bool) (player_df : list (nat * Event))
    (n : nat) (cols : columns) : columns :=
  let prefix := if role then "p1_"%string else "p2_"%string in
  omap (λ c, if contains "recent_" c
             then (λ v, (prefix +:+ c, join_col role player_df n v))
                    <$> get_col c cols
             else None) (base_columns ++ map fst cols).

(** The sorted player-centric frame and its rolling columns, before and
    after the two fills. *)
Definition player_df (df : list Match) : list (nat * Event) :=
  sort_values (concat df).

Definition rolling_columns (df : list Match) : columns :=
  fold_left (add_window (player_df df)) RECENT_FORM_WINDOWS [].

Definition filled_columns (df : list Match) : columns :=
  fill_stat_cols (fill_win_cols (rolling_columns df)).

End Rolling.

(** ** A player's form, described directly

    The events of one player in the order the matches are given, and the
    mean of the last [window] values of a list. *)

Definition events_of (p : string) (n i : nat) (m : Match)
    : list (nat * Rolling.Event) :=
  (if decide (p1_name m = p) then [(i, Rolling.p1_event i m)] else [])
  ++ (if decide (p2_name m = p) then [((n + i)%nat, Rolling.p2_event i m)]
      else []).

Definition player_rows (p : string) (n : nat) (df : list Match)
    : list (nat * Rolling.Event) :=
  mjoin (imap (events_of p n) df).

Definition player_history (p : string) (past : list Match)
    : list Rolling.Event :=
  map snd (player_rows p 0 past).

Definition trailing_mean (window : nat) (values : list Z) : option Q :=
  let recent := map inject_Z (drop (length values - window) values) in
  if (1 <=? length recent)%nat
  then Some (Qsum recent / inject_Z (Z.of_nat (length recent)))%Q
  else None.

(** The five metrics with the stems of their column names; the first is
    the win indicator, the other four are the magnitude metrics. *)
Definition magnitude_metrics : list (string * (Rolling.Event → Z)) :=
  [("recent_games_won_avg_", Rolling.games_won);
   ("recent_games_lost_avg_", Rolling.games_lost);
   ("recent_sets_won_avg_", Rolling.sets_won);
   ("recent_sets_lost_avg_", Rolling.sets_lost)]%string.

Definition rolling_metrics : list (string * (Rolling.Event → Z)) :=
  ("recent_win_rate_"%string, Rolling.won) :: magnitude_metrics.

(** The name of a joined rolling column: [f'p1_{stem}{window}']. *)
Definition role_prefix (role : bool) : string :=
  if role then "p1_"%string else "p2_"%string.

Definition feature_name (role : bool) (stem : string) (window : nat) : string :=
  role_prefix role +:+ Rolling.fname stem window.

(** What the two fills leave in a cell of the column with a given stem. *)
Definition fill_cell (stem : string) (column_mean : option Q)
    (cell : option Q) : option Q :=
  match cell with
  | Some x => Some x
  | None => if contains "win_rate" stem then Some DEFAULT_WIN_PCT
            else column_mean
  end.

(** A frame of match rows with engineered columns. *)
Record Frame := mkFrame {
  rows : list Match;
  float_cols : columns;
  int_cols : list (string * list Z);
}.

(** [compute_rolling_features(df)]: the frame with the twenty rolling
    columns joined on. *)
Definition compute_rolling_features (df : Frame) : Frame :=
  let player_df := Rolling.player_df (rows df) in
  let cols := Rolling.filled_columns (rows df) in
  let n := length (rows df) in
  mkFrame (rows df)
    (float_cols df ++ Rolling.role_features true player_df n cols
                   ++ Rolling.role_features false player_df n cols)
    (int_cols df).

(** ** [add_features] *)

Section add_features.
Context `{Pandas}.

(** Lines 23-25: the rows in the order the pass visits them. *)
Definition processing_order (df : list Match) : list Match :=
  sort_values_tourney_date
    (map (λ m, set_date (to_datetime (tourney_date m)) m) df).

(** [add_features(df)]: the feature table and the two final histories. *)
Definition add_features (df : list Match)
    : Frame * Surface.history * H2H.history :=
  let df := processing_order df in
  let st := run_loop df in
  let table :=
    mkFrame df
      [("p1_surface_win_pct"%string, map Some (p1_surface_pct st));
       ("p2_surface_win_pct"%string, map Some (p2_surface_pct st))]
      [("h2h_diff"%string, h2h_diff st)] in
  (compute_rolling_features table, surface_history st, h2h_history st).
End add_features.

(** Reading a cell of the feature table. *)
Definition float_cell (t : Frame) (name : string) (i : nat) : option (option Q) :=
  get_col name (float_cols t) ≫= λ v, v !! i.

Fixpoint get_int_col (name : string) (cols : list (string * list Z))
    : option (list Z) :=
  match cols with
  | [] => None
  | (c, v) :: rest => if String.eqb c name then Some v else get_int_col name rest
  end.

Definition int_cell (t : Frame) (name : string) (i : nat) : option Z :=
  get_int_col name (int_cols t) ≫= λ v, v !! i.

(** ** The scenario of [tests/test_rolling.py] *)

Definition test_df : list Match :=
  let row d a b t g1 l1 s1 t1 g2 l2 s2 t2 :=
    mkMatch (Some d) None a b t g1 l1 s1 t1 g2 l2 s2 t2 in
  [ row 1 "A" "X" 1 12  8 2 0  8 12 0 2;
    row 2 "B" "A" 1 12  0 2 0  0 12 0 2;
    row 3 "A" "Y" 0  6 12 0 2 12  6 2 0;
    row 4 "C" "A" 0 10 15 1 2 15 10 2 1;
    row 5 "A" "Z" 1 12  8 2 0  8 12 0 2;
    row 6 "D" "A" 1 12  8 2 0  8 12 0 2 ]%string.

(** ** Score parsing: [parse_match_score] (preprocess.py lines 92-137)

    Strings are sequences of ASCII characters: digits and white space
    outside ASCII, which Python's [split] and [int] also accept, are
    outside the model. *)

Module Score.

(** The exceptions the operations of the function can raise ([int] on a
    string, indexing a list), and the outcome of a call. *)
Inductive exn := ValueError | IndexError.

Inductive outcome (A : Type) :=
  | Returns (a : A)
  | Raises (e : exn).
Global Arguments Returns {A} a.
Global Arguments Raises {A} e.

Definition bind {A B} (x : outcome A) (f : A → outcome B) : outcome B :=
  match x with
  | Returns a => f a
  | Raises e => Raises e
  end.

(** [try: body except ValueError: pass], the state unchanged in the
    handler; any other exception goes on to the caller. *)
Definition try_except_pass {A} (body : outcome A) (unchanged : A) : outcome A :=
  match body with
  | Raises ValueError => Returns unchanged
  | Returns _ | Raises IndexError => body
  end.

(** [l[0]]. *)
Definition first_item {A} (l : list A) : outcome A :=
  match l with
  | x :: _ => Returns x
  | [] => Raises IndexError
  end.

(** What the caller may pass as [score_str]. *)
Inductive pyvalue :=
  | PyStr (s : string)
  | PyInt (z : Z)
  | PyFloat (q : option Q)
  | PyNone.

(** [str.isspace] on one ASCII character. *)
Definition isspace (c : ascii) : bool :=
  let n := N_of_ascii c in
  ((9 <=? n)%N && (n <=? 13)%N) || ((28 <=? n)%N && (n <=? 32)%N).

(** The pieces of [s] between the characters that satisfy [is_sep]. *)
Fixpoint split_by (is_sep : ascii → bool) (s : string) : list string :=
  match s with
  | EmptyString => [EmptyString]
  | String c rest =>
      if is_sep c then EmptyString :: split_by is_sep rest
      else match split_by is_sep rest with
           | first :: others => String c first :: others
           | [] => [String c EmptyString]
           end
  end.

(** [s.split(sep)] for a separator of one character. *)
Definition split_on (sep : ascii) (s : string) : list string :=
  split_by (Ascii.eqb sep) s.

(** [s.split()]: the pieces between runs of white space, none empty. *)
Definition split (s : string) : list string :=
  filter (λ piece, piece ≠ EmptyString) (split_by isspace s).

(** [s.strip()]. *)
Fixpoint lstrip (s : string) : string :=
  match s with
  | String c rest => if isspace c then lstrip rest else s
  | EmptyString => EmptyString
  end.

Definition strip (s : string) : string :=
  String.rev (lstrip (String.rev (lstrip s))).

(** [int(s)] on a string, base 10: white space around is dropped, one sign
    is allowed, then digits, with single underscores between digits only.
    More digits than [max_str_digits] are refused. *)
Definition max_str_digits : nat := 4300.

Definition digit_value (c : ascii) : option Z :=
  let n := N_of_ascii c in
  if (48 <=? n)%N && (n <=? 57)%N then Some (Z.of_N n - 48) else None.

Fixpoint digits (acc : Z) (count : nat) (after_digit : bool) (s : string)
    : option (Z * nat) :=
  match s with
  | EmptyString => if after_digit then Some (acc, count) else None
  | String c rest =>
      if Ascii.eqb c "_" then
        if after_digit then digits acc count false rest else None
      else
        match digit_value c with
        | Some d => digits (10 * acc + d) (S count) true rest
        | None => None
        end
  end.

Definition int (s : string) : outcome Z :=
  let s := strip s in
  let '(sign, body) :=
    match s with
    | String "+" rest => (1, rest)
    | String "-" rest => (-1, rest)
    | _ => (1, s)
    end in
  match digits 0 0 false body with
  | Some (n, count) =>
      if (count <=? max_str_digits)%nat then Returns (sign * n)
      else Raises ValueError
  | None => Raises ValueError
  end.

(** The four running totals:
    [(w_games, l_games, w_sets, l_sets)]. *)
Abbreviation totals := (Z * Z * Z * Z)%type.

Definition has_marker (s : string) : bool :=
  contains "RET" s || contains "W/O" s || contains "def." s.

(** One iteration of [for s in sets], lines 110-135. *)
Definition parse_set (st : totals) (s : string) : outcome totals :=
  let '(w_games, l_games, w_sets, l_sets) := st in
  if has_marker s then Returns st
  else
    bind (if contains "(" s then first_item (split_on "(" s) else Returns s)
      (λ s,
       match split_on "-" s with
       | [part0; part1] =>
           try_except_pass
             (bind (int part0) (λ w_g,
              bind (int part1) (λ l_g,
              let w_games := w_games + w_g in
              let l_games := l_games + l_g in
              if l_g <? w_g
              then Returns (w_games, l_games, w_sets + 1, l_sets)
              else if w_g <? l_g
                   then Returns (w_games, l_games, w_sets, l_sets + 1)
                   else Returns (w_games, l_games, w_sets, l_sets))))
             st
       | _ => Returns st
       end).

Fixpoint for_each (sets : list string) (st : totals) : outcome totals :=
  match sets with
  | [] => Returns st
  | s :: rest => bind (parse_set st s) (for_each rest)
  end.

Definition parse_match_score (score_str : pyvalue) : outcome totals :=
  match score_str with
  | PyStr score_str =>
      if String.eqb (strip score_str) EmptyString then Returns (0, 0, 0, 0)
      else for_each (split score_str) (0, 0, 0, 0)
  | _ => Returns (0, 0, 0, 0)
  end.

(** What one token adds to the totals, and the sum of two totals. *)
Definition contribution (s : string) : totals :=
  match parse_set (0, 0, 0, 0) s with
  | Returns added => added
  | Raises _ => (0, 0, 0, 0)
  end.

Definition add_totals (x y : totals) : totals :=
  let '(a, b, c, d) := x in
  let '(a', b', c', d') := y in
  (a + a', b + b', c + c', d + d').

Fixpoint all_space (s : string) : bool :=
  match s with
  | EmptyString => true
  | String c rest => isspace c && all_space rest
  end.

End Score.

(** ** The frames as objects

    [add_features] and [compute_rolling_features] once more, this time
    with the frames as objects of a store: a method that returns a frame
    allocates a new object, an assignment [frame[...] = ...] overwrites the
    object the variable refers to. The dictionaries and lists of the loop
    are local values. *)

Module Heap.
Import Rolling.

Inductive obj :=
  | MatchFrame (f : Frame)
  | PlayerFrame (events : list (nat * Event)) (cols : columns).

Abbreviation heap := (gmap nat obj).

Definition State (A : Type) : Type := heap → A * heap.

Global Instance state_ret : MRet State := λ A a h, (a, h).
Global Instance state_bind : MBind State :=
  λ A B k m h, let '(a, h') := m h in k a h'.

Definition alloc (o : obj) : State nat :=
  λ h, let l := fresh (dom h) in (l, <[l := o]> h).

Definition load (l : nat) : State obj :=
  λ h, (default (MatchFrame (mkFrame [] [] [])) (h !! l), h).

Definition store (l : nat) (o : obj) : State unit :=
  λ h, (tt, <[l := o]> h).

(** A method of one or two frames that returns a new frame, and an
    assignment into a frame. *)
Definition new_from (l : nat) (g : obj → obj) : State nat :=
  o ← load l; alloc (g o).

Definition new_from2 (l1 l2 : nat) (g : obj → obj → obj) : State nat :=
  o1 ← load l1; o2 ← load l2; alloc (g o1 o2).

Definition assign (l : nat) (g : obj → obj) : State unit :=
  o ← load l; store l (g o).

Fixpoint for_each {A} (xs : list A) (body : A → State unit) : State unit :=
  match xs with
  | [] => mret tt
  | x :: rest => _ ← body x; for_each rest body
  end.

(** *** What the calls do to the contents *)

Definition frame_of (o : obj) : Frame :=
  match o with
  | MatchFrame f => f
  | PlayerFrame _ _ => mkFrame [] [] []
  end.

Definition on_frame (g : Frame → Frame) (o : obj) : obj :=
  MatchFrame (g (frame_of o)).

Definition on_events (g : list (nat * Event) → list (nat * Event)) (o : obj)
    : obj :=
  match o with
  | PlayerFrame events cols => PlayerFrame (g events) cols
  | MatchFrame _ => o
  end.

Definition on_cols (g : list (nat * Event) → columns → columns) (o : obj)
    : obj :=
  match o with
  | PlayerFrame events cols => PlayerFrame events (g events cols)
  | MatchFrame _ => o
  end.

Fixpoint set_int_col (name : string) (values : list Z)
    (cols : list (string * list Z)) : list (string * list Z) :=
  match cols with
  | [] => [(name, values)]
  | (c, v) :: rest =>
      if String.eqb c name then (c, values) :: rest
      else (c, v) :: set_int_col name values rest
  end.

Fixpoint int_col (name : string) (cols : list (string * list Z)) : list Z :=
  match cols with
  | [] => []
  | (c, v) :: rest => if String.eqb c name then v else int_col name rest
  end.

Definition set_match_index (i : nat) (e : Event) : Event :=
  mkEvent (date e) (player e) (opponent e) (won e) (games_won e)
    (games_lost e) (sets_won e) (sets_lost e) i (is_p1 e).

Definition set_is_p1 (b : bool) (e : Event) : Event :=
  mkEvent (date e) (player e) (opponent e) (won e) (games_won e)
    (games_lost e) (sets_won e) (sets_lost e) (match_index e) b.

(** [df[list(p1_cols.keys())].rename(columns=p1_cols)], line 37: the
    renamed columns of the rows; [match_index] and [is_p1] are not there
    yet. *)
Definition select_p1 (o : obj) : obj :=
  PlayerFrame
    (imap (λ i m,
       (i, mkEvent (tourney_date m) (p1_name m) (p2_name m) (target m)
             (p1_games_won m) (p1_games_lost m) (p1_sets_won m)
             (p1_sets_lost m) 0 false))
       (rows (frame_of o))) [].

(** [df_p2[...].rename(columns=p2_cols)], lines 57-58, reading the two
    columns written into the copy. *)
Definition select_p2 (o : obj) : obj :=
  let f := frame_of o in
  PlayerFrame
    (imap (λ i m,
       (i, mkEvent (tourney_date m) (p2_name m) (p1_name m)
             (default 0 (int_col "won_inverse" (int_cols f) !! i))
             (p2_games_won m) (p2_games_lost m) (p2_sets_won m)
             (p2_sets_lost m)
             (Z.to_nat (default 0 (int_col "match_index" (int_cols f) !! i)))
             false))
       (rows f)) [].

(** [frame['match_index'] = df.index] on a player frame and on a copy of
    the match frame. *)
Definition index_events (events : list (nat * Event)) : list (nat * Event) :=
  map (λ r, (fst r, set_match_index (fst r) (snd r))) events.

Definition index_frame (f : Frame) : Frame :=
  mkFrame (rows f) (float_cols f)
    (set_int_col "match_index" (map Z.of_nat (seq 0 (length (rows f))))
       (int_cols f)).

(** [df_p2['won_inverse'] = 1 - df_p2['target']]. *)
Definition won_inverse_frame (f : Frame) : Frame :=
  mkFrame (rows f) (float_cols f)
    (set_int_col "won_inverse" (map (λ m, 1 - target m) (rows f))
       (int_cols f)).

(** [pd.concat([df_p1, df_p2], ignore_index=True)]. *)
Definition concat_objs (o1 o2 : obj) : obj :=
  match o1, o2 with
  | PlayerFrame e1 _, PlayerFrame e2 _ =>
      PlayerFrame (imap (λ j r, (j, snd r)) (e1 ++ e2)) []
  | _, _ => PlayerFrame [] []
  end.

(** [player_df[f'{stem}{window}'] = rolling_stats[metric]...]. *)
Definition set_rolling (stem : string) (metric : Event → Z) (window : nat)
    : obj → obj :=
  on_cols (λ events cols,
             set_col (fname stem window) (raw_column window metric events) cols).

(** [df.join(features[...])] for one role. *)
Definition join_role (role : bool) (o_df o_player : obj) : obj :=
  match o_player with
  | PlayerFrame events cols =>
      let f := frame_of o_df in
      MatchFrame
        (mkFrame (rows f)
           (float_cols f ++ role_features role events (length (rows f)) cols)
           (int_cols f))
  | MatchFrame _ => o_df
  end.

(** *** [compute_rolling_features(df)], statement by statement *)

Definition compute_rolling_features (df : nat) : State nat :=
  (* lines 37-39 *)
  df_p1 ← new_from df select_p1;
  _ ← assign df_p1 (on_events index_events);
  _ ← assign df_p1 (on_events (map (λ r, (fst r, set_is_p1 true (snd r)))));
  (* lines 54-59 *)
  df_p2 ← new_from df (on_frame id);
  _ ← assign df_p2 (on_frame index_frame);
  _ ← assign df_p2 (on_frame won_inverse_frame);
  df_p2 ← new_from df_p2 select_p2;
  _ ← assign df_p2 (on_events (map (λ r, (fst r, set_is_p1 false (snd r)))));
  (* lines 62 and 65 *)
  player_df ← new_from2 df_p1 df_p2 concat_objs;
  player_df ← new_from player_df (on_events sort_values);
  (* lines 74-91 *)
  _ ← for_each RECENT_FORM_WINDOWS (λ window,
        _ ← assign player_df (set_rolling "recent_win_rate_" won window);
        _ ← assign player_df
              (set_rolling "recent_games_won_avg_" games_won window);
        _ ← assign player_df
              (set_rolling "recent_games_lost_avg_" games_lost window);
        _ ← assign player_df
              (set_rolling "recent_sets_won_avg_" sets_won window);
        assign player_df
          (set_rolling "recent_sets_lost_avg_" sets_lost window));
  (* lines 95-101 *)
  _ ← assign player_df (on_cols (λ _, fill_win_cols));
  _ ← assign player_df (on_cols (λ _, fill_stat_cols));
  (* lines 109-120 *)
  df ← new_from2 df player_df (join_role true);
  new_from2 df player_df (join_role false).

(** *** [add_features(df)], statement by statement *)

Section add_features.
Context `{Pandas}.

Definition convert_dates (f : Frame) : Frame :=
  mkFrame (map (λ m, set_date (to_datetime (tourney_date m)) m) (rows f))
    (float_cols f) (int_cols f).

Definition sort_frame (f : Frame) : Frame :=
  mkFrame (sort_values_tourney_date (rows f)) (float_cols f) (int_cols f).

Definition set_float (name : string) (values : list (option Q)) (f : Frame)
    : Frame :=
  mkFrame (rows f) (set_col name values (float_cols f)) (int_cols f).

Definition set_int (name : string) (values : list Z) (f : Frame) : Frame :=
  mkFrame (rows f) (float_cols f) (set_int_col name values (int_cols f)).

Definition add_features (df : nat)
    : State (nat * Surface.history * H2H.history) :=
  (* lines 23-25 *)
  df ← new_from df (on_frame id);
  _ ← assign df (on_frame convert_dates);
  df ← new_from df (on_frame sort_frame);
  df ← new_from df (on_frame id);
  (* lines 30-98 *)
  o ← load df;
  let st := run_loop (rows (frame_of o)) in
  (* lines 101-103 *)
  _ ← assign df
        (on_frame (set_float "p1_surface_win_pct"
                     (map Some (p1_surface_pct st))));
  _ ← assign df
        (on_frame (set_float "p2_surface_win_pct"
                     (map Some (p2_surface_pct st))));
  _ ← assign df (on_frame (set_int "h2h_diff" (h2h_diff st)));
  (* line 106 *)
  df ← compute_rolling_features df;
  mret (df, surface_history st, h2h_history st).
End add_features.

(** Every object of [h] is still in [h'], unchanged. *)
Definition preserved (h h' : heap) : Prop :=
  ∀ l o, h !! l = Some o → h' !! l = Some o.

(** [Q] holds of the result and the store after running [m] from [h]. *)
Definition wp {A} (m : State A) (h : heap) (Q : A → heap → Prop) : Prop :=
  Q (fst (m h)) (snd (m h)).

End Heap.

(** ** Orders and rows used to state the properties of the rolling tracker *)

Section event_orders.
Import Rolling.

(** The key order as a proposition. *)
Definition key_le (e1 e2 : Event) : Prop :=
  String.compare (player e1) (player e2) = Lt
  ∨ (player e1 = player e2
     ∧ (date_ltb (date e1) (date e2) = true
        ∨ (date_ltb (date e1) (date e2) = false
           ∧ date_ltb (date e2) (date e1) = false
           ∧ (match_index e1 ≤ match_index e2)%nat))).

(** Rows in key order, and rows in key order with ties in label order. *)
Definition row_le (r1 r2 : nat * Event) : Prop :=
  key_leb (snd r1) (snd r2) = true.

Definition row_lt (r1 r2 : nat * Event) : Prop :=
  key_leb (snd r1) (snd r2) = true
  ∧ (key_leb (snd r2) (snd r1) = true → (fst r1 < fst r2)%nat).

(** The event of a match in a role, with its label in [player_df]. *)
Definition event_row (role : bool) (n i : nat) (m : Match) : nat * Event :=
  if role then (i, p1_event i m) else ((n + i)%nat, p2_event i m).

(** The player of a match in a role. *)
Definition role_player (role : bool) (m : Match) : string :=
  if role then p1_name m else p2_name m.

End event_orders.

(** ** Small frames used as examples *)

(** A straight-sets win or loss of player 1, with the games of each side. *)
Definition ex_row (day : Z) (p1 p2 : string) (p1_won games1 games2 : Z)
    : Match :=
  mkMatch (Some day) (Some "Hard"%string) p1 p2 p1_won
    games1 games2 (2 * p1_won) (2 * (1 - p1_won))
    games2 games1 (2 * (1 - p1_won)) (2 * p1_won).

(** Player A's first match, won with [games] games, then a second one. *)
Definition two_matches (games : Z) : list Match :=
  [ex_row 1 "A" "B" 1 games 8; ex_row 2 "A" "C" 1 12 8].

(** Seventeen matches of the first of January 2023, one per player. *)
Definition seventeen_same_day : list Match :=
  map (λ p, ex_row 20230101 p "Z" 1 12 8)
    ["A"; "B"; "C"; "D"; "E"; "F"; "G"; "H"; "I"; "J"; "K"; "L"; "M"; "N";
     "O"; "P"; "Q"]%string.

(** Two players who meet twice, the sides exchanged. *)
Definition met_twice : list Match :=
  [ex_row 20230101 "A" "B" 1 12 8; ex_row 20230102 "B" "A" 1 12 8].

(** ** The rest of [config.py] *)

(** [config.MODEL_FEATURES], config.py lines 25-41. *)
Definition MODEL_FEATURES : list string :=
  ["p1_rank"; "p2_rank";
   "p1_age"; "p2_age";
   "p1_surface_win_pct"; "p2_surface_win_pct";
   "h2h_diff";
   "p1_recent_win_rate_5"; "p2_recent_win_rate_5";
   "p1_recent_win_rate_10"; "p2_recent_win_rate_10";
   "p1_recent_games_won_avg_5"; "p2_recent_games_won_avg_5";
   "p1_recent_games_won_avg_10"; "p2_recent_games_won_avg_10";
   "p1_recent_games_lost_avg_5"; "p2_recent_games_lost_avg_5";
   "p1_recent_games_lost_avg_10"; "p2_recent_games_lost_avg_10";
   "p1_recent_sets_won_avg_5"; "p2_recent_sets_won_avg_5";
   "p1_recent_sets_won_avg_10"; "p2_recent_sets_won_avg_10";
   "p1_recent_sets_lost_avg_5"; "p2_recent_sets_lost_avg_5";
   "p1_recent_sets_lost_avg_10"; "p2_recent_sets_lost_avg_10"]%string.

(** ** Tallies of a list of matches, counted directly *)

(** The rows a player played on a surface, in either role, and those of
    them the player won; the entry they make in the surface history. *)
Definition surface_matches (p surface : string) (past : list Match) : Z :=
  Z.of_nat (length (filter (λ m, row_surface m = surface ∧ p1_name m = p) past))
  + Z.of_nat (length (filter (λ m, row_surface m = surface ∧ p2_name m = p) past)).

Definition surface_wins (p surface : string) (past : list Match) : Z :=
  Z.of_nat (length (filter (λ m, row_surface m = surface ∧ p1_name m = p
                                 ∧ row_p1_won m = true) past))
  + Z.of_nat (length (filter (λ m, row_surface m = surface ∧ p2_name m = p
                                   ∧ row_p1_won m = false) past)).

Definition counted_entry (p surface : string) (past : list Match)
    : option (Z * Z) :=
  if surface_matches p surface past =? 0 then None
  else Some (surface_wins p surface past, surface_matches p surface past).

(** The matches between two players. *)
Definition meetings (a b : string) (past : list Match) : Z :=
  Z.of_nat (length (filter (λ m, between a b m = true) past)).

(** ** Shapes and ranges of the rolling columns *)

(** A cell that is NaN or lies between two bounds. *)
Definition in_range (lo hi : Q) (cell : option Q) : Prop :=
  match cell with
  | Some q => (lo <= q)%Q ∧ (q <= hi)%Q
  | None => True
  end.


(** A frame none of whose columns has a name with ["recent_"] in it. *)
Definition no_rolling_columns (fr : Frame) : Prop :=
  ∀ c, c ∈ map fst (float_cols fr) ++ map fst (int_cols fr) →
       contains "recent_" c = false.

(** The names of the joined rolling columns, in the order of the joins:
    player 1 then player 2, and for each the windows in turn. *)
Definition rolling_feature_names : list string :=
  role ← [true; false];
  w ← RECENT_FORM_WINDOWS;
  sm ← rolling_metrics;
  [feature_name role (fst sm) w].

(** ** Matches with the players in the other order *)

(** A match with its two players listed in the other order: the row
    [preprocess_data] builds when it swaps the players. *)
Definition swap_roles (m : Match) : Match :=
  mkMatch (tourney_date m) (surface m) (p2_name m) (p1_name m) (1 - target m)
    (p2_games_won m) (p2_games_lost m) (p2_sets_won m) (p2_sets_lost m)
    (p1_games_won m) (p1_games_lost m) (p1_sets_won m) (p1_sets_lost m).

(** Two histories of matches that differ in the order in which some
    matches list their players. *)
Definition same_up_to_roles (pre pre' : list Match) : Prop :=
  Forall2 (λ a a', a' = a ∨ a' = swap_roles a) pre pre'.

(** ** Characters of a token *)

(** The characters of a string. *)
Fixpoint chars (s : string) : list ascii :=
  match s with
  | EmptyString => []
  | String c rest => c :: chars rest
  end.

(** ** [preprocess_data] (preprocess.py lines 9-90) *)

Definition DEFAULT_RANK : Z := 2000.

(** A row of the raw ATP frame, with the columns the function reads. *)
Record RawMatch := mkRaw {
  raw_tourney_date : option Z;
  raw_surface : option string;
  tourney_level : option string;
  winner_name : string;
  loser_name : string;
  winner_rank : option Q;
  loser_rank : option Q;
  winner_age : option Q;
  loser_age : option Q;
  score : Score.pyvalue;
}.

(** A row of the frame the function returns: the columns of a [Match] and
    the level, rank and age columns. *)
Record Prepared := mkPrepared {
  match_row : Match;
  row_level : option string;
  p1_rank : option Q;
  p1_age : option Q;
  p2_rank : option Q;
  p2_age : option Q;
}.

(** [np.random.default_rng(seed=42).random(n)]: [n] floats, which the
    repository does not determine. *)
Class Numpy := {
  rng_random : nat → list Q;
  rng_random_length n : length (rng_random n) = n;
}.

(** A generator that alternates between 0.25 and 0.75. *)
Definition alternating (n : nat) : list Q :=
  map (λ i, if Nat.even i then 1 # 4 else 3 # 4)%Q (seq 0 n).

Lemma alternating_length n : length (alternating n) = n.
Proof. unfold alternating. by rewrite length_map, length_seq. Qed.

Definition numpy_alternating : Numpy := {|
  rng_random := alternating;
  rng_random_length := alternating_length;
|}.

(** [Series.median()]: the middle of the sorted cells that are not NaN,
    the mean of the two middle ones when their number is even, NaN when
    there is none. *)
Fixpoint insert_Q (x : Q) (l : list Q) : list Q :=
  match l with
  | [] => [x]
  | y :: l' => if Qle_bool x y then x :: l else y :: insert_Q x l'
  end.

Definition sort_Q (l : list Q) : list Q := foldr insert_Q [] l.

Definition median (xs : list (option Q)) : option Q :=
  let obs := sort_Q (omap id xs) in
  let n := length obs in
  if (n =? 0)%nat then None
  else if Nat.odd n then obs !! (n / 2)%nat
  else a ← obs !! (n / 2 - 1)%nat; b ← obs !! (n / 2)%nat;
       Some ((a + b) / 2)%Q.

(** [np.where(cond, xs, ys)] on arrays of one length. *)
Definition np_where {A} (cond : list bool) (xs ys : list A) : list A :=
  zip_with (λ (c : bool) xy, if c then fst xy else snd xy) cond (zip xs ys).

(** [df['score'].fillna('')] on one cell. *)
Definition fill_score (v : Score.pyvalue) : Score.pyvalue :=
  match v with
  | Score.PyNone | Score.PyFloat None => Score.PyStr EmptyString
  | _ => v
  end.

(** The loop of lines 59-64: the four lists, one entry per score. *)
Fixpoint parse_scores (scores : list Score.pyvalue)
    : Score.outcome (list Z * list Z * list Z * list Z) :=
  match scores with
  | [] => Score.Returns ([], [], [], [])
  | score :: rest =>
      Score.bind (Score.parse_match_score score) (λ '(gw, gl, sw, sl),
      Score.bind (parse_scores rest) (λ '(gws, gls, sws, sls),
      Score.Returns (gw :: gws, gl :: gls, sw :: sws, sl :: sls)))
  end.

(** The cell of a column at a row. *)
Definition cell_at {A} (d : A) (col : list A) (i : nat) : A := default d (col !! i).

Section preprocess_data.
Context `{Numpy}.

Definition preprocess_data (df : list RawMatch)
    : Score.outcome (list Prepared) :=
  (* lines 20-24 *)
  let winner_rank :=
    fillna (Some (inject_Z DEFAULT_RANK)) (map winner_rank df) in
  let loser_rank :=
    fillna (Some (inject_Z DEFAULT_RANK)) (map loser_rank df) in
  let winner_age := fillna (median (map winner_age df)) (map winner_age df) in
  let loser_age := fillna (median (map loser_age df)) (map loser_age df) in
  (* lines 27-28 *)
  let swap_players :=
    map (λ x, negb (Qle_bool x DEFAULT_WIN_PCT)) (rng_random (length df)) in
  (* lines 31-46 *)
  let p1_name := np_where swap_players (map loser_name df) (map winner_name df) in
  let p1_rank := np_where swap_players loser_rank winner_rank in
  let p1_age := np_where swap_players loser_age winner_age in
  let p2_name := np_where swap_players (map winner_name df) (map loser_name df) in
  let p2_rank := np_where swap_players winner_rank loser_rank in
  let p2_age := np_where swap_players winner_age loser_age in
  let target := map (λ swap : bool, if swap then 0 else 1) swap_players in
  (* lines 55-64 *)
  let scores := map (λ raw, fill_score (score raw)) df in
  Score.bind (parse_scores scores)
    (λ '(w_games_won, w_games_lost, w_sets_won, w_sets_lost),
     (* lines 70-78 *)
     let p1_games_won := np_where swap_players w_games_lost w_games_won in
     let p1_games_lost := np_where swap_players w_games_won w_games_lost in
     let p1_sets_won := np_where swap_players w_sets_lost w_sets_won in
     let p1_sets_lost := np_where swap_players w_sets_won w_sets_lost in
     let p2_games_won := np_where swap_players w_games_won w_games_lost in
     let p2_games_lost := np_where swap_players w_games_lost w_games_won in
     let p2_sets_won := np_where swap_players w_sets_won w_sets_lost in
     let p2_sets_lost := np_where swap_players w_sets_lost w_sets_won in
     (* the rows of [new_df] *)
     Score.Returns
       (imap (λ i raw,
          mkPrepared
            (mkMatch (raw_tourney_date raw) (raw_surface raw)
               (cell_at EmptyString p1_name i) (cell_at EmptyString p2_name i)
               (cell_at 0 target i)
               (cell_at 0 p1_games_won i) (cell_at 0 p1_games_lost i)
               (cell_at 0 p1_sets_won i) (cell_at 0 p1_sets_lost i)
               (cell_at 0 p2_games_won i) (cell_at 0 p2_games_lost i)
               (cell_at 0 p2_sets_won i) (cell_at 0 p2_sets_lost i))
            (tourney_level raw)
            (cell_at None p1_rank i) (cell_at None p1_age i)
            (cell_at None p2_rank i) (cell_at None p2_age i)) df)).
End preprocess_data.

(** A small raw frame. *)
Definition raw_example : list RawMatch :=
  [ mkRaw (Some 20230101) (Some "Hard") (Some "A") "Ann" "Bea"
      (Some 3%Q) None (Some 25%Q) None (Score.PyStr "6-4 3-6 7-6(5)");
    mkRaw (Some 20230102) None (Some "G") "Cy" "Ann"
      None (Some 8%Q) None (Some 31%Q) (Score.PyFloat None) ]%string.

(** ** The two calls of [main] that build the feature table *)

(** Step 2 of [main] (predictor.py lines 30-31): the two calls in a row. *)
Definition engineer `{Pandas} `{Numpy} (data : list RawMatch)
    : Score.outcome (Frame * Surface.history * H2H.history) :=
  Score.bind (preprocess_data data) (λ processed_data,
  Score.Returns (add_features (map match_row processed_data))).


(** * Properties *)

(** ** The surface tracker *)

Section surface_facts.
Import Surface.
Implicit Types (h : history) (player surface : string).

(** What [update_surface_history] does to the entry it touches. *)
Lemma entry_update_same h player surface won :
  entry (update_surface_history h player surface won) player surface =
    let '(wins, total) := default (0, 0) (entry h player surface) in
    Some (if won then wins + 1 else wins, total + 1).
Proof.
  unfold entry, update_surface_history.
  destruct (h !! player) as [bs|] eqn:Hp; simpl.
  - rewrite Hp; simpl.
    destruct (bs !! surface) as [[w t]|] eqn:Hs; simpl.
    + rewrite Hs; simpl. rewrite lookup_insert_eq; simpl.
      by rewrite lookup_insert_eq.
    + rewrite lookup_insert_eq; simpl. rewrite lookup_insert_eq; simpl.
      by rewrite lookup_insert_eq.
  - rewrite lookup_insert_eq; simpl. rewrite lookup_empty; simpl.
    rewrite lookup_insert_eq; simpl. rewrite lookup_insert_eq; simpl.
    by rewrite lookup_insert_eq.
Qed.

(** ... and to every other entry. *)
Lemma entry_update_other h player surface won player' surface' :
  (player', surface') ≠ (player, surface) →
  entry (update_surface_history h player surface won) player' surface' =
    entry h player' surface'.
Proof.
  intros Hne. unfold entry, update_surface_history.
  destruct (decide (player' = player)) as [->|Hp].
  - assert (surface' ≠ surface) as Hs by congruence.
    destruct (h !! player) as [bs|] eqn:Hh; simpl.
    + rewrite Hh; simpl.
      destruct (bs !! surface) as [[w t]|] eqn:Hbs; simpl.
      * rewrite Hbs; simpl. rewrite lookup_insert_eq; simpl.
        by rewrite lookup_insert_ne.
      * rewrite lookup_insert_eq; simpl. rewrite lookup_insert_eq; simpl.
        by rewrite !lookup_insert_ne.
    + rewrite lookup_insert_eq; simpl. rewrite lookup_empty; simpl.
      rewrite lookup_insert_eq; simpl. rewrite lookup_insert_eq; simpl.
      by rewrite !lookup_insert_ne, lookup_empty.
  - destruct (h !! player) as [bs|] eqn:Hh; simpl.
    + rewrite Hh; simpl.
      destruct (bs !! surface) as [[w t]|] eqn:Hbs; simpl.
      * rewrite Hbs; simpl. by rewrite lookup_insert_ne.
      * rewrite lookup_insert_eq; simpl. by rewrite lookup_insert_ne.
    + rewrite lookup_insert_eq; simpl. rewrite lookup_empty; simpl.
      rewrite lookup_insert_eq; simpl.
      by rewrite !lookup_insert_ne.
Qed.

Lemma get_surface_win_pct_entry h player surface :
  get_surface_win_pct h player surface =
    if String.eqb surface "Unknown" then DEFAULT_WIN_PCT
    else match entry h player surface with
         | Some (wins, total) =>
             if 0 <? total then true_div wins total else DEFAULT_WIN_PCT
         | None => DEFAULT_WIN_PCT
         end.
Proof.
  unfold get_surface_win_pct, entry.
  destruct (String.eqb surface "Unknown"); [done|].
  by destruct (h !! player).
Qed.

(** The counter invariant of reachable states. *)
Lemma reachable_counters h :
  reachable h →
  ∀ player surface wins total,
    entry h player surface = Some (wins, total) → 0 ≤ wins ≤ total.
Proof.
  induction 1 as [|h p s won Hr IH]; intros player surface wins total He.
  - unfold entry in He. rewrite lookup_empty in He. done.
  - destruct (decide ((player, surface) = (p, s))) as [Heq|Hne].
    + injection Heq as -> ->. rewrite entry_update_same in He.
      destruct (entry h p s) as [[w t]|] eqn:Hh; simpl in He.
      * specialize (IH _ _ _ _ Hh).
        destruct won; injection He as <- <-; lia.
      * destruct won; injection He as <- <-; lia.
    + rewrite entry_update_other in He by done. eauto.
Qed.

Lemma true_div_unit_interval wins total :
  0 ≤ wins ≤ total → 0 < total →
  (0 <= true_div wins total)%Q ∧ (true_div wins total <= 1)%Q.
Proof.
  intros [Hw Hwt] Ht. unfold true_div.
  assert (0 < inject_Z total)%Q as HtQ.
  { change 0%Q with (inject_Z 0). by rewrite <- Zlt_Qlt. }
  split.
  - apply Qle_shift_div_l; [done|]. rewrite Qmult_0_l.
    change 0%Q with (inject_Z 0). by rewrite <- Zle_Qle.
  - apply Qle_shift_div_r; [done|]. rewrite Qmult_1_l.
    by rewrite <- Zle_Qle.
Qed.
End surface_facts.

(** ** Sums over dictionaries *)

Section map_sum_facts.
Context `{Countable K} {V : Type} (f : V → Z).
Implicit Types (m : gmap K V).

Lemma map_sum_empty : map_sum f (∅ : gmap K V) = 0.
Proof. unfold map_sum. apply map_fold_empty. Qed.

Lemma map_sum_insert_fresh m k v :
  m !! k = None → map_sum f (<[k:=v]> m) = f v + map_sum f m.
Proof.
  intros Hk. unfold map_sum. rewrite map_fold_insert_L; [done| |done].
  intros; lia.
Qed.

Lemma map_sum_insert_over m k v v0 :
  m !! k = Some v0 → map_sum f (<[k:=v]> m) = f v - f v0 + map_sum f m.
Proof.
  intros Hk. rewrite <- (insert_delete_id m k v0) at 2 by done.
  rewrite <- (insert_delete_eq m k v).
  rewrite !map_sum_insert_fresh by apply lookup_delete_eq. lia.
Qed.
End map_sum_facts.

(** ** The head-to-head tracker *)

Section h2h_facts.
Import H2H.
Implicit Types (h : history) (a b : string).

Lemma ltb_irrefl a : String.ltb a a = false.
Proof.
  unfold String.ltb. destruct (String.compare a a) eqn:Hc; try done.
  pose proof (String.compare_antisym a a) as Ha. rewrite Hc in Ha. done.
Qed.

Lemma ltb_asym a b : String.ltb a b = true → String.ltb b a = false.
Proof.
  unfold String.ltb. rewrite (String.compare_antisym a b).
  by destruct (String.compare b a).
Qed.

Lemma ltb_total a b :
  String.ltb a b = false → String.ltb b a = false → a = b.
Proof.
  unfold String.ltb. rewrite (String.compare_antisym a b).
  destruct (String.compare b a) eqn:Hc; try done.
  intros _ _. symmetry. by apply String.compare_eq_iff.
Qed.

Lemma sorted_pair_comm (p1 p2 : string) : sorted_pair p1 p2 = sorted_pair p2 p1.
Proof.
  unfold sorted_pair.
  destruct (String.ltb p2 p1) eqn:H21, (String.ltb p1 p2) eqn:H12; try done.
  - by rewrite (ltb_asym _ _ H21) in H12.
  - by rewrite (ltb_total _ _ H12 H21).
Qed.

Lemma sorted_pair_cases (p1 p2 : string) :
  sorted_pair p1 p2 = (p1, p2) ∨ sorted_pair p1 p2 = (p2, p1).
Proof. unfold sorted_pair. destruct (String.ltb p2 p1); auto. Qed.

(** A match is filed under the canonical key of a pair of distinct
    players exactly when it was played between the two. *)
Lemma sorted_pair_between a b (m : Match) :
  a ≠ b →
  sorted_pair (p1_name m) (p2_name m) = sorted_pair a b ↔
  between a b m = true.
Proof.
  intros Hab. unfold between.
  rewrite orb_true_iff, !andb_true_iff, !String.eqb_eq. split.
  - intros Heq.
    destruct (sorted_pair_cases (p1_name m) (p2_name m)) as [H1|H1],
             (sorted_pair_cases a b) as [H2|H2];
      rewrite H1, H2 in Heq; injection Heq; auto.
  - intros [[-> ->]|[-> ->]]; [done|apply sorted_pair_comm].
Qed.

Lemma winner_index_0 a b (m : Match) :
  a ≠ b → between a b m = true →
  winner_index (p1_name m) (p2_name m) (row_p1_won m) = 0%nat ↔
  winner m = fst (sorted_pair a b).
Proof.
  intros Hab Hbt. unfold winner_index, winner.
  apply (sorted_pair_between a b m Hab) in Hbt as Hkey. rewrite Hkey.
  unfold between in Hbt.
  rewrite orb_true_iff, !andb_true_iff, !String.eqb_eq in Hbt.
  assert (p1_name m ≠ p2_name m) as Hne by (destruct Hbt as [[??]|[??]]; congruence).
  destruct (sorted_pair_cases a b) as [H2|H2]; rewrite H2; simpl;
    destruct (String.eqb_spec (p1_name m) a), (String.eqb_spec (p1_name m) b),
      (row_p1_won m); simpl; split; intros; try done; try congruence;
    destruct Hbt as [[??]|[??]]; congruence.
Qed.
End h2h_facts.

(** ** The streaming pass *)

Section loop_facts.
Implicit Types (st : LoopState) (m row : Match) (pre post df : list Match).

Lemma run_loop_snoc pre m :
  run_loop (pre ++ [m]) = loop_body (run_loop pre) m.
Proof. unfold run_loop. by rewrite fold_left_app. Qed.

Lemma run_loop_app pre post :
  run_loop (pre ++ post) = fold_left loop_body post (run_loop pre).
Proof. unfold run_loop. by rewrite fold_left_app. Qed.

(** The three feature columns only ever grow at the end. *)
Lemma loop_columns_extend post st :
  ∃ r1 r2 r3,
    p1_surface_pct (fold_left loop_body post st) = p1_surface_pct st ++ r1 ∧
    p2_surface_pct (fold_left loop_body post st) = p2_surface_pct st ++ r2 ∧
    h2h_diff (fold_left loop_body post st) = h2h_diff st ++ r3.
Proof.
  revert st. induction post as [|m post IH]; intros st; simpl.
  - exists [], [], []. by rewrite !app_nil_r.
  - destruct (IH (loop_body st m)) as (r1 & r2 & r3 & -> & -> & ->).
    simpl. rewrite <- !app_assoc. by eexists _, _, _.
Qed.

Lemma loop_columns_length df :
  length (p1_surface_pct (run_loop df)) = length df ∧
  length (p2_surface_pct (run_loop df)) = length df ∧
  length (h2h_diff (run_loop df)) = length df.
Proof.
  induction df as [|m df IH] using rev_ind; [done|].
  rewrite run_loop_snoc. simpl. rewrite !length_app. simpl. lia.
Qed.

(** The features written for a row are read from the state left by the
    rows before it. *)
Lemma loop_features_at pre m post :
  let st := run_loop pre in
  let out := run_loop (pre ++ m :: post) in
  p1_surface_pct out !! length pre =
    Some (Surface.get_surface_win_pct (surface_history st) (p1_name m)
            (row_surface m)) ∧
  p2_surface_pct out !! length pre =
    Some (Surface.get_surface_win_pct (surface_history st) (p2_name m)
            (row_surface m)) ∧
  h2h_diff out !! length pre =
    Some (H2H.diff (h2h_history st) (p1_name m) (p2_name m)).
Proof.
  intros st out. subst out.
  replace (pre ++ m :: post) with ((pre ++ [m]) ++ post)
    by (by rewrite <- app_assoc).
  rewrite run_loop_app.
  destruct (loop_columns_extend post (run_loop (pre ++ [m])))
    as (r1 & r2 & r3 & -> & -> & ->).
  rewrite run_loop_snoc. simpl.
  destruct (loop_columns_length pre) as (L1 & L2 & L3).
  rewrite <- !app_assoc.
  split_and!.
  - rewrite lookup_app_r by lia. by rewrite L1, Nat.sub_diag.
  - rewrite lookup_app_r by lia. by rewrite L2, Nat.sub_diag.
  - rewrite lookup_app_r by lia. by rewrite L3, Nat.sub_diag.
Qed.

(** *** Head-to-head state against a direct count *)

Lemma between_sym a b m : between a b m = between b a m.
Proof. unfold between. apply orb_comm. Qed.

Lemma prior_wins_snoc a b pre m :
  prior_wins a b (pre ++ [m]) =
    prior_wins a b pre +
    (if decide (between a b m = true ∧ winner m = a) then 1 else 0).
Proof.
  unfold prior_wins. rewrite filter_app, length_app.
  case_decide.
  - rewrite filter_cons_True by done. simpl. lia.
  - rewrite filter_cons_False by done. simpl. lia.
Qed.

Lemma between_winner a b m :
  between a b m = true → winner m = a ∨ winner m = b.
Proof.
  unfold between, winner.
  rewrite orb_true_iff, !andb_true_iff, !String.eqb_eq.
  destruct (row_p1_won m); intros [[??]|[??]]; auto.
Qed.

Lemma h2h_history_run pre a b :
  a ≠ b → H2H.sorted_pair a b = (a, b) →
  match h2h_history (run_loop pre) !! (a, b) with
  | Some (wins_a, wins_b) =>
      Exists (λ m, between a b m = true) pre ∧
      wins_a = prior_wins a b pre ∧ wins_b = prior_wins b a pre
  | None =>
      Forall (λ m, between a b m = false) pre ∧
      prior_wins a b pre = 0 ∧ prior_wins b a pre = 0
  end.
Proof.
  intros Hab Hkey. induction pre as [|m pre IH] using rev_ind.
  - unfold run_loop; simpl. rewrite lookup_empty. done.
  - rewrite run_loop_snoc, !prior_wins_snoc. simpl.
    unfold H2H.record.
    rewrite (between_sym b a m).
    destruct (between a b m) eqn:Hbt.
    + apply (sorted_pair_between a b m Hab) in Hbt as Hk.
      rewrite Hk, Hkey.
      pose proof (winner_index_0 a b m Hab Hbt) as Hwi.
      rewrite Hkey in Hwi; simpl in Hwi.
      destruct (between_winner a b m Hbt) as [Hw|Hw].
      * assert (winner m ≠ b) by congruence.
        rewrite (proj2 Hwi Hw).
        rewrite decide_True by done. rewrite decide_False by (by intros [??]).
        destruct (h2h_history (run_loop pre) !! (a, b)) as [[x y]|] eqn:Hl.
        -- rewrite Hl; simpl. rewrite lookup_insert_eq. simpl.
           split; [apply Exists_app; right; by constructor|lia].
        -- rewrite lookup_insert_eq; simpl. rewrite lookup_insert_eq; simpl.
           split; [apply Exists_app; right; by constructor|lia].
      * assert (winner m ≠ a) as Hna by congruence.
        assert (H2H.winner_index (p1_name m) (p2_name m) (row_p1_won m)
                  ≠ 0%nat) as Hi by (by intros Hi%Hwi).
        destruct (H2H.winner_index (p1_name m) (p2_name m) (row_p1_won m))
          as [|i]; [done|].
        rewrite decide_False by (by intros [??]). rewrite decide_True by done.
        destruct (h2h_history (run_loop pre) !! (a, b)) as [[x y]|] eqn:Hl.
        -- rewrite Hl; simpl. rewrite lookup_insert_eq. simpl.
           split; [apply Exists_app; right; by constructor|lia].
        -- rewrite lookup_insert_eq; simpl. rewrite lookup_insert_eq; simpl.
           split; [apply Exists_app; right; by constructor|lia].
    + assert (H2H.sorted_pair (p1_name m) (p2_name m) ≠ (a, b)) as Hk.
      { rewrite <- Hkey. intros Hk%(sorted_pair_between a b m Hab).
        congruence. }
      rewrite !decide_False by (by intros [??]). rewrite !Z.add_0_r.
      assert (∀ h v, (<[H2H.sorted_pair (p1_name m) (p2_name m) := v]> h
                       : H2H.history) !! (a, b) = h !! (a, b)) as Hne.
      { intros. by apply lookup_insert_ne. }
      rewrite Hne.
      destruct (h2h_history (run_loop pre)
                  !! H2H.sorted_pair (p1_name m) (p2_name m)).
      * destruct (h2h_history (run_loop pre) !! (a, b)) as [[x y]|].
        { destruct IH as (? & ? & ?). split_and!; try done.
          apply Exists_app. by left. }
        destruct IH as (? & ? & ?). split_and!; try done.
        apply Forall_app; split; [done|]. by constructor.
      * rewrite Hne.
        destruct (h2h_history (run_loop pre) !! (a, b)) as [[x y]|].
        { destruct IH as (? & ? & ?). split_and!; try done.
          apply Exists_app. by left. }
        destruct IH as (? & ? & ?). split_and!; try done.
        apply Forall_app; split; [done|]. by constructor.
Qed.
End loop_facts.

(** ** Counter sums and growth *)

Section growth_facts.
Implicit Types (player surface : string).

Lemma sum_total_update (h : Surface.history) player surface won :
  Surface.sum_total (Surface.update_surface_history h player surface won) =
    Surface.sum_total h + 1.
Proof.
  unfold Surface.sum_total, Surface.update_surface_history.
  destruct (h !! player) as [bs|] eqn:Hp; simpl.
  - rewrite Hp; simpl.
    destruct (bs !! surface) as [[w t]|] eqn:Hs; simpl.
    + rewrite Hs; simpl.
      rewrite (map_sum_insert_over _ h player _ bs) by done.
      rewrite (map_sum_insert_over _ bs surface _ (w, t)) by done.
      simpl. lia.
    + rewrite lookup_insert_eq; simpl.
      rewrite (map_sum_insert_over _ h player _ bs) by done.
      rewrite (map_sum_insert_over _ _ surface _ (0, 0))
        by apply lookup_insert_eq.
      rewrite map_sum_insert_fresh by done. simpl. lia.
  - rewrite lookup_insert_eq; simpl. rewrite lookup_empty; simpl.
    rewrite lookup_insert_eq; simpl.
    rewrite (map_sum_insert_over _ _ player _ ∅) by apply lookup_insert_eq.
    rewrite (map_sum_insert_fresh _ h) by done.
    rewrite (map_sum_insert_over _ _ surface _ (0, 0))
      by apply lookup_insert_eq.
    rewrite map_sum_insert_fresh by done.
    rewrite map_sum_empty. simpl. lia.
Qed.

Lemma bump_sum i (w : Z * Z) :
  fst (H2H.bump i w) + snd (H2H.bump i w) = fst w + snd w + 1.
Proof. destruct i; simpl; lia. Qed.

Lemma sum_wins_record (h : H2H.history) (p1 p2 : string) won :
  H2H.sum_wins (H2H.record h p1 p2 won) = H2H.sum_wins h + 1.
Proof.
  unfold H2H.sum_wins, H2H.record.
  destruct (h !! H2H.sorted_pair p1 p2) as [w|] eqn:Hl; simpl.
  - rewrite Hl; simpl.
    rewrite (map_sum_insert_over _ h _ _ w) by done.
    rewrite bump_sum. lia.
  - rewrite lookup_insert_eq; simpl.
    rewrite (map_sum_insert_over _ _ _ _ (0, 0)) by apply lookup_insert_eq.
    rewrite map_sum_insert_fresh by done.
    rewrite bump_sum. simpl. lia.
Qed.

Lemma surface_grows_refl (h : Surface.history) : Surface.grows h h.
Proof. intros p s w t He. exists w, t. split_and!; [done|lia..]. Qed.

Lemma surface_grows_trans (h1 h2 h3 : Surface.history) :
  Surface.grows h1 h2 → Surface.grows h2 h3 → Surface.grows h1 h3.
Proof.
  intros H12 H23 p s w t He.
  destruct (H12 _ _ _ _ He) as (w2 & t2 & He2 & ? & ?).
  destruct (H23 _ _ _ _ He2) as (w3 & t3 & He3 & ? & ?).
  exists w3, t3. split_and!; [done|lia..].
Qed.

Lemma surface_grows_update (h : Surface.history) player surface won :
  Surface.grows h (Surface.update_surface_history h player surface won).
Proof.
  intros p s w t He.
  destruct (decide ((p, s) = (player, surface))) as [Heq|Hne].
  - injection Heq as -> ->. rewrite entry_update_same, He. simpl.
    eexists _, _. split; [done|]. destruct won; lia.
  - rewrite entry_update_other by done. exists w, t.
    split_and!; [done|lia..].
Qed.

Lemma h2h_grows_refl (h : H2H.history) : H2H.grows h h.
Proof. intros k x y Hl. exists x, y. split_and!; [done|lia..]. Qed.

Lemma h2h_grows_trans (h1 h2 h3 : H2H.history) :
  H2H.grows h1 h2 → H2H.grows h2 h3 → H2H.grows h1 h3.
Proof.
  intros H12 H23 k x y Hl.
  destruct (H12 _ _ _ Hl) as (x2 & y2 & Hl2 & ? & ?).
  destruct (H23 _ _ _ Hl2) as (x3 & y3 & Hl3 & ? & ?).
  exists x3, y3. split_and!; [done|lia..].
Qed.

Lemma h2h_grows_record (h : H2H.history) (p1 p2 : string) won :
  H2H.grows h (H2H.record h p1 p2 won).
Proof.
  intros k x y Hl. unfold H2H.record.
  destruct (decide (k = H2H.sorted_pair p1 p2)) as [->|Hne].
  - rewrite Hl; simpl. rewrite Hl; simpl. rewrite lookup_insert_eq.
    destruct (H2H.winner_index p1 p2 won); simpl;
      eexists _, _; (split; [done|lia]).
  - exists x, y. split_and!; [|lia..].
    destruct (h !! H2H.sorted_pair p1 p2); simpl;
      by rewrite !lookup_insert_ne.
Qed.

Implicit Types (pre post df : list Match).

Lemma loop_body_sums (st : LoopState) (m : Match) :
  Surface.sum_total (surface_history (loop_body st m)) =
    Surface.sum_total (surface_history st) + 2 ∧
  H2H.sum_wins (h2h_history (loop_body st m)) =
    H2H.sum_wins (h2h_history st) + 1.
Proof.
  unfold loop_body. cbn [surface_history h2h_history].
  rewrite !sum_total_update, sum_wins_record. lia.
Qed.

Lemma loop_body_grows (st : LoopState) (m : Match) :
  Surface.grows (surface_history st) (surface_history (loop_body st m)) ∧
  H2H.grows (h2h_history st) (h2h_history (loop_body st m)).
Proof.
  unfold loop_body. cbn [surface_history h2h_history].
  split; [|apply h2h_grows_record].
  eapply surface_grows_trans; apply surface_grows_update.
Qed.

Lemma run_loop_grows pre post :
  Surface.grows (surface_history (run_loop pre))
                (surface_history (run_loop (pre ++ post))) ∧
  H2H.grows (h2h_history (run_loop pre))
            (h2h_history (run_loop (pre ++ post))).
Proof.
  induction post as [|m post IH] using rev_ind.
  - rewrite app_nil_r. split; [apply surface_grows_refl|apply h2h_grows_refl].
  - rewrite app_assoc, run_loop_snoc.
    destruct IH as [IH1 IH2].
    destruct (loop_body_grows (run_loop (pre ++ post)) m) as [G1 G2].
    split; [by eapply surface_grows_trans|by eapply h2h_grows_trans].
Qed.
End growth_facts.

(** ** The sort key of [player_df] and the stable sort *)

Section sort_facts.
Import Rolling.
Implicit Types (r : nat * Event) (l : list (nat * Event)) (e : Event).

Lemma compare_refl (a : string) : String.compare a a = Eq.
Proof.
  pose proof (String.compare_antisym a a) as Ha.
  by destruct (String.compare a a).
Qed.

Lemma compare_Lt_le (a b : string) :
  String.compare a b = Lt ↔ String.le a b ∧ a ≠ b.
Proof.
  unfold String.le, String.leb. split.
  - intros Hc. rewrite Hc. split; [done|]. intros ->.
    by rewrite compare_refl in Hc.
  - intros [Hle Hne]. destruct (String.compare a b) eqn:Hc; try done.
    by apply String.compare_eq_iff in Hc.
Qed.

Lemma compare_Lt_trans (a b c : string) :
  String.compare a b = Lt → String.compare b c = Lt →
  String.compare a c = Lt.
Proof.
  rewrite !compare_Lt_le. intros [H1 N1] [H2 N2]. split.
  - by etrans.
  - intros ->. apply N1. by apply (anti_symm String.le).
Qed.

Lemma compare_Gt_Lt (a b : string) :
  String.compare a b = Gt ↔ String.compare b a = Lt.
Proof.
  rewrite (String.compare_antisym a b).
  by destruct (String.compare b a).
Qed.

Lemma key_leb_le e1 e2 : key_leb e1 e2 = true ↔ key_le e1 e2.
Proof.
  unfold key_leb, key_le.
  destruct (String.compare (player e1) (player e2)) eqn:Hc.
  - apply String.compare_eq_iff in Hc as Hp.
    destruct (date_ltb (date e1) (date e2)) eqn:H12.
    { split; [|done]. intros _. right. auto. }
    destruct (date_ltb (date e2) (date e1)) eqn:H21.
    { split; [done|]. intros [?|[_ [?|(_ & ? & _)]]]; done. }
    rewrite Nat.leb_le. split; [by auto 10|].
    intros [?|[_ [?|(_ & _ & ?)]]]; done.
  - split; [by left|done].
  - split; [done|]. intros [?|[Hp _]]; [done|].
    rewrite Hp, compare_refl in Hc. done.
Qed.

Ltac dates :=
  repeat match goal with
         | d : Timestamp |- _ => destruct d
         end;
  unfold date_ltb, date_leb in *; simpl in *;
  rewrite ?negb_true_iff, ?negb_false_iff, ?Z.leb_le, ?Z.leb_gt in *;
  try done; try lia.

Lemma date_ltb_trans (d1 d2 d3 : Timestamp) :
  date_ltb d1 d2 = true → date_ltb d2 d3 = true → date_ltb d1 d3 = true.
Proof. dates. Qed.

Lemma date_ltb_le_trans (d1 d2 d3 : Timestamp) :
  date_ltb d1 d2 = true → date_ltb d3 d2 = false → date_ltb d1 d3 = true.
Proof. dates. Qed.

Lemma date_le_ltb_trans (d1 d2 d3 : Timestamp) :
  date_ltb d2 d1 = false → date_ltb d2 d3 = true → date_ltb d1 d3 = true.
Proof. dates. Qed.

Lemma date_le_trans (d1 d2 d3 : Timestamp) :
  date_ltb d2 d1 = false → date_ltb d3 d2 = false → date_ltb d3 d1 = false.
Proof. dates. Qed.

Lemma date_ltb_asym (d1 d2 : Timestamp) :
  date_ltb d1 d2 = true → date_ltb d2 d1 = false.
Proof. dates. Qed.

Lemma key_le_trans e1 e2 e3 : key_le e1 e2 → key_le e2 e3 → key_le e1 e3.
Proof.
  unfold key_le.
  intros [H12|[P12 D12]] [H23|[P23 D23]].
  - left. by eapply compare_Lt_trans.
  - left. by rewrite <- P23.
  - left. by rewrite P12.
  - right. split; [congruence|].
    destruct D12 as [D12|(A12 & B12 & M12)], D23 as [D23|(A23 & B23 & M23)].
    + left. by eapply date_ltb_trans.
    + left. by eapply date_ltb_le_trans.
    + left. by eapply date_le_ltb_trans.
    + right. split_and!; [by eapply date_le_trans..|lia].
Qed.

Lemma key_le_total e1 e2 : key_le e1 e2 ∨ key_le e2 e1.
Proof.
  unfold key_le.
  destruct (String.compare (player e1) (player e2)) eqn:Hc.
  - apply String.compare_eq_iff in Hc.
    destruct (date_ltb (date e1) (date e2)) eqn:H12; [by auto 10|].
    destruct (date_ltb (date e2) (date e1)) eqn:H21; [by auto 10|].
    destruct (decide (match_index e1 ≤ match_index e2)%nat).
    + left. auto 10.
    + right. right. split; [done|]. right. split_and!; [done..|lia].
  - left. by left.
  - right. left. by apply compare_Gt_Lt.
Qed.

Lemma key_leb_trans e1 e2 e3 :
  key_leb e1 e2 = true → key_leb e2 e3 = true → key_leb e1 e3 = true.
Proof. rewrite !key_leb_le. apply key_le_trans. Qed.

Lemma key_leb_total e1 e2 : key_leb e1 e2 = false → key_leb e2 e1 = true.
Proof.
  intros Hf. apply key_leb_le. destruct (key_le_total e1 e2) as [H|H]; [|done].
  apply key_leb_le in H. congruence.
Qed.

Lemma insert_row_perm r l : insert_row r l ≡ₚ r :: l.
Proof.
  induction l as [|r' l IH]; simpl; [done|].
  destruct (key_leb (snd r) (snd r')); [done|].
  rewrite IH. apply Permutation_swap.
Qed.

Lemma rolling_sort_perm l : sort_values l ≡ₚ l.
Proof.
  induction l as [|r l IH]; simpl; [done|].
  by rewrite insert_row_perm, IH.
Qed.

Lemma insert_row_sorted r l :
  StronglySorted row_le l → StronglySorted row_le (insert_row r l).
Proof.
  induction l as [|r' l IH]; simpl; intros Hs.
  - repeat constructor.
  - apply StronglySorted_cons in Hs as [Hr' Hl].
    destruct (key_leb (snd r) (snd r')) eqn:Hle.
    + apply StronglySorted_cons. split; [|by apply StronglySorted_cons].
      constructor; [done|].
      eapply Forall_impl; [exact Hr'|]. intros z Hz.
      by eapply key_leb_trans.
    + apply StronglySorted_cons. split; [|auto].
      rewrite insert_row_perm. constructor; [|done].
      by apply key_leb_total.
Qed.

Lemma rolling_sort_sorted l : StronglySorted row_le (sort_values l).
Proof.
  induction l as [|r l IH]; simpl; [constructor|].
  by apply insert_row_sorted.
Qed.

Lemma insert_row_front r l :
  match l with [] => True | r' :: _ => row_le r r' end →
  insert_row r l = r :: l.
Proof. destruct l as [|r' l]; simpl; [done|]. by intros ->. Qed.

(** Filtering commutes with the stable sort. *)
Lemma filter_insert_row (P : nat * Event → Prop) `{∀ x, Decision (P x)} r l :
  StronglySorted row_le l →
  filter P (insert_row r l) =
    if decide (P r) then insert_row r (filter P l) else filter P l.
Proof.
  induction l as [|r' l IH]; simpl; intros Hs.
  - rewrite filter_cons, filter_nil. by case_decide.
  - apply StronglySorted_cons in Hs as [Hr' Hl].
    destruct (key_leb (snd r) (snd r')) eqn:Hle.
    + rewrite (filter_cons _ r). case_decide; [|done].
      symmetry. apply insert_row_front.
      destruct (filter P (r' :: l)) as [|z fl] eqn:Hf; [done|].
      assert (z ∈ r' :: l) as Hz.
      { eapply (list_elem_of_filter P). rewrite Hf. by left. }
      apply elem_of_cons in Hz as [->|Hz]; [done|].
      rewrite Forall_forall in Hr'. eapply key_leb_trans; [done|].
      by apply Hr'.
    + rewrite (filter_cons _ r'), IH by done.
      rewrite (filter_cons _ r').
      case_decide; case_decide; simpl; try done.
      by rewrite Hle.
Qed.

Lemma filter_sort_values (P : nat * Event → Prop) `{∀ x, Decision (P x)} l :
  filter P (sort_values l) = sort_values (filter P l).
Proof.
  induction l as [|r l IH]; simpl; [done|].
  rewrite filter_insert_row by apply rolling_sort_sorted.
  rewrite filter_cons. case_decide; simpl; by rewrite IH.
Qed.

(** Stability: rows that enter in label order leave with ties in label
    order. *)
Lemma insert_row_lt r l :
  StronglySorted row_lt l → Forall (λ y, (fst r < fst y)%nat) l →
  StronglySorted row_lt (insert_row r l).
Proof.
  induction l as [|r' l IH]; simpl; intros Hs Hlab.
  - repeat constructor.
  - apply StronglySorted_cons in Hs as [Hr' Hl].
    apply Forall_cons in Hlab as [Hlab' Hlab].
    destruct (key_leb (snd r) (snd r')) eqn:Hle.
    + apply StronglySorted_cons. split; [|by apply StronglySorted_cons].
      constructor; [done|].
      rewrite Forall_forall in Hr', Hlab |- *. intros z Hz. split.
      * eapply key_leb_trans; [done|]. by apply Hr'.
      * intros _. by apply Hlab.
    + apply StronglySorted_cons. split; [|auto].
      rewrite insert_row_perm. constructor; [|done]. split.
      * by apply key_leb_total.
      * congruence.
Qed.

Lemma rolling_sort_stable l :
  StronglySorted (λ r1 r2, (fst r1 < fst r2)%nat) l →
  StronglySorted row_lt (sort_values l).
Proof.
  induction l as [|r l IH]; simpl; intros Hs; [constructor|].
  apply StronglySorted_cons in Hs as [Hr Hl].
  apply insert_row_lt; [auto|]. by rewrite rolling_sort_perm.
Qed.

Lemma row_lt_asym r1 r2 : row_lt r1 r2 → row_lt r2 r1 → r1 = r2.
Proof. intros [H1 L1] [H2 L2]. specialize (L1 H2). specialize (L2 H1). lia. Qed.
End sort_facts.

(** ** The groups of [player_df] *)

Section group_facts.
Import Rolling.
Implicit Types (r : nat * Event) (l : list (nat * Event)) (df : list Match).

Lemma concat_split df :
  concat df =
    imap (λ i m, (i, p1_event i m)) df
    ++ imap (λ i m, ((length df + i)%nat, p2_event i m)) df.
Proof.
  unfold concat. rewrite imap_app, length_imap. f_equal.
  - apply list_eq. intros i. rewrite !list_lookup_imap.
    by destruct (df !! i).
  - apply list_eq. intros i. rewrite !list_lookup_imap.
    by destruct (df !! i).
Qed.

Lemma elem_of_concat r df :
  r ∈ concat df ↔
  ∃ i m, df !! i = Some m
         ∧ (r = (i, p1_event i m) ∨ r = ((length df + i)%nat, p2_event i m)).
Proof.
  rewrite concat_split, elem_of_app, !list_elem_of_lookup. split.
  - intros [[j Hj]|[j Hj]]; apply list_lookup_imap_Some in Hj as (m & ? & ->);
      eauto 10.
  - intros (i & m & Hi & [-> | ->]); [left|right]; exists i;
      rewrite list_lookup_imap, Hi; done.
Qed.

Lemma imap_labels_sorted {A} (f : nat → A → Event) (k : nat) (xs : list A) :
  StronglySorted (λ r1 r2, (fst r1 < fst r2)%nat)
    (imap (λ i x, ((k + i)%nat, f i x)) xs).
Proof.
  revert f k. induction xs as [|x xs IH]; intros f k; simpl; [constructor|].
  constructor.
  - specialize (IH (f ∘ S) (S k)).
    erewrite imap_ext; [exact IH|]. intros i y _. simpl. f_equal. lia.
  - apply Forall_forall. intros r Hr.
    apply list_elem_of_lookup in Hr as [j Hj].
    apply list_lookup_imap_Some in Hj as (y & _ & ->). simpl. lia.
Qed.

Lemma concat_labels_sorted df :
  StronglySorted (λ r1 r2, (fst r1 < fst r2)%nat) (concat df).
Proof.
  rewrite concat_split. apply StronglySorted_app_2.
  - intros r1 r2 H1 H2.
    apply list_elem_of_lookup in H1 as [i Hi].
    apply list_elem_of_lookup in H2 as [j Hj].
    apply list_lookup_imap_Some in Hi as (m1 & Hm1 & ->).
    apply list_lookup_imap_Some in Hj as (m2 & Hm2 & ->). simpl.
    apply lookup_lt_Some in Hm1. lia.
  - apply (imap_labels_sorted p1_event 0).
  - apply (imap_labels_sorted p2_event).
Qed.

Lemma StronglySorted_filter_rows (R : relation (nat * Event))
    (P : nat * Event → Prop) `{∀ x, Decision (P x)} l :
  StronglySorted R l → StronglySorted R (filter P l).
Proof.
  induction 1 as [|r l Hl IH Hr]; [constructor|].
  rewrite filter_cons. case_decide; [|done].
  constructor; [done|].
  rewrite Forall_forall in Hr |- *. intros z Hz.
  apply list_elem_of_filter in Hz as [_ Hz]. auto.
Qed.

Lemma concat_labels_NoDup df : NoDup (map fst (concat df)).
Proof.
  pose proof (concat_labels_sorted df) as Hs.
  induction Hs as [|r l Hl IH Hr]; simpl; constructor; [|done].
  rewrite list_elem_of_fmap. intros (r' & Heq & Hin).
  rewrite Forall_forall in Hr. specialize (Hr _ Hin). lia.
Qed.

(** The group of a player, as a multiset, is the player's rows. *)
Lemma filter_two_imaps {A} (P : nat * Event → Prop) `{∀ x, Decision (P x)}
    (f g : nat → A → nat * Event) (xs : list A) :
  filter P (imap f xs) ++ filter P (imap g xs)
  ≡ₚ mjoin (imap (λ i x, filter P [f i x] ++ filter P [g i x]) xs).
Proof.
  revert f g. induction xs as [|x xs IH]; intros f g; simpl; [done|].
  rewrite !(filter_cons _ (f 0%nat x)), !(filter_cons _ (g 0%nat x)).
  rewrite !filter_nil. rewrite <- (IH (f ∘ S) (g ∘ S)).
  case_decide; case_decide; simpl; try done.
  - constructor. symmetry. apply Permutation_middle.
  - symmetry. apply Permutation_middle.
Qed.

Lemma events_of_filter (p : string) n i m :
  events_of p n i m =
    filter (λ r, player (snd r) = p) [(i, p1_event i m)]
    ++ filter (λ r, player (snd r) = p) [((n + i)%nat, p2_event i m)].
Proof.
  unfold events_of. rewrite !filter_cons, !filter_nil. simpl.
  by repeat case_decide.
Qed.

Lemma get_group_concat (p : string) df :
  get_group p (concat df) ≡ₚ player_rows p (length df) df.
Proof.
  unfold get_group, player_rows. rewrite concat_split, filter_app.
  rewrite filter_two_imaps.
  erewrite imap_ext; [done|].
  intros i m _. simpl. by rewrite events_of_filter.
Qed.

Lemma player_rows_snoc (p : string) n df m :
  player_rows p n (df ++ [m]) =
    player_rows p n df ++ events_of p n (length df) m.
Proof.
  unfold player_rows. rewrite imap_app, join_app. simpl.
  by rewrite app_nil_r, Nat.add_0_r.
Qed.

Lemma player_rows_app (p : string) n df1 df2 :
  player_rows p n (df1 ++ df2) =
    player_rows p n df1
    ++ mjoin (imap (λ i, events_of p n (length df1 + i)) df2).
Proof. unfold player_rows. by rewrite imap_app, join_app. Qed.

Lemma elem_of_player_rows (p : string) n df r :
  r ∈ player_rows p n df →
  ∃ i m, df !! i = Some m ∧ r ∈ events_of p n i m.
Proof.
  unfold player_rows. rewrite list_elem_of_join.
  intros (chunk & Hr & Hc). apply list_elem_of_lookup in Hc as [i Hi].
  apply list_lookup_imap_Some in Hi as (m & Hm & ->). eauto.
Qed.

Lemma elem_of_events_of (p : string) n i m r :
  r ∈ events_of p n i m →
  player (snd r) = p ∧ date (snd r) = tourney_date m
  ∧ match_index (snd r) = i
  ∧ ((r = (i, p1_event i m) ∧ p1_name m = p)
     ∨ (r = ((n + i)%nat, p2_event i m) ∧ p2_name m = p)).
Proof.
  unfold events_of. rewrite elem_of_app.
  intros [Hr|Hr]; case_decide; try by apply elem_of_nil in Hr.
  - apply list_elem_of_singleton in Hr as ->. simpl. auto 10.
  - apply list_elem_of_singleton in Hr as ->. simpl. auto 10.
Qed.

Lemma key_leb_same_player (e1 e2 : Event) :
  player e1 = player e2 →
  date_leb (date e1) (date e2) = true →
  (match_index e1 ≤ match_index e2)%nat →
  key_leb e1 e2 = true.
Proof.
  intros Hp Hd Hm. apply key_leb_le. right. split; [done|].
  unfold date_ltb. rewrite Hd. simpl.
  destruct (date_leb (date e2) (date e1)); simpl; auto.
Qed.

Lemma key_leb_later (e1 e2 : Event) :
  player e1 = player e2 →
  date_leb (date e1) (date e2) = true →
  (match_index e1 < match_index e2)%nat →
  key_leb e2 e1 = false.
Proof.
  intros Hp Hd Hm. destruct (key_leb e2 e1) eqn:Hk; [|done].
  apply key_leb_le in Hk as [Hk|[_ [Hk|(_ & _ & Hk)]]].
  - rewrite Hp, compare_refl in Hk. done.
  - unfold date_ltb in Hk. rewrite Hd in Hk. done.
  - lia.
Qed.

Lemma date_leb_refl (d : Timestamp) : date_leb d d = true.
Proof. destruct d; simpl; [|done]. by apply Z.leb_le. Qed.

Lemma events_of_sorted (p : string) n i m :
  (0 < n)%nat → StronglySorted row_lt (events_of p n i m).
Proof.
  intros Hn. unfold events_of.
  repeat case_decide; simpl; repeat constructor; simpl.
  - apply key_leb_same_player; simpl; [congruence|apply date_leb_refl|done].
  - intros _. lia.
Qed.

(** In a frame sorted by date, the rows of a player are in key order with
    ties in label order. *)
Lemma player_rows_sorted (p : string) n df :
  date_sorted df → (length df ≤ n)%nat →
  StronglySorted row_lt (player_rows p n df).
Proof.
  induction df as [|m df IH] using rev_ind; intros Hs Hn.
  - constructor.
  - rewrite length_app in Hn. simpl in Hn.
    unfold date_sorted in Hs. apply StronglySorted_app in Hs as (Hd & Hs & _).
    rewrite player_rows_snoc. apply StronglySorted_app_2.
    + intros r1 r2 H1 H2.
      apply elem_of_player_rows in H1 as (i & m' & Hi & H1).
      apply elem_of_events_of in H1 as (P1 & D1 & M1 & _).
      apply elem_of_events_of in H2 as (P2 & D2 & M2 & _).
      apply lookup_lt_Some in Hi as Hlt.
      assert (date_leb (date (snd r1)) (date (snd r2)) = true) as Hdate.
      { rewrite D1, D2. apply Hd; [|by left].
        by eapply list_elem_of_lookup_2. }
      split.
      * apply key_leb_same_player; [congruence|done|lia].
      * rewrite (key_leb_later (snd r1) (snd r2)); [done|congruence|done|lia].
    + apply IH; [done|lia].
    + apply events_of_sorted. lia.
Qed.

Lemma get_group_player_df (p : string) df :
  date_sorted df →
  get_group p (player_df df) = player_rows p (length df) df.
Proof.
  intros Hs. unfold player_df, get_group.
  rewrite filter_sort_values.
  apply (StronglySorted_unique_strong row_lt).
  - intros r1 r2 _ _. apply row_lt_asym.
  - apply rolling_sort_stable, StronglySorted_filter_rows.
    apply concat_labels_sorted.
  - by apply player_rows_sorted.
  - rewrite rolling_sort_perm. apply get_group_concat.
Qed.
End group_facts.

(** ** Rolling means and their alignment *)

Section rolling_facts.
Import Rolling.
Implicit Types (r : nat * Event) (l pdf : list (nat * Event))
  (df pre post : list Match) (metric : Event → Z).

Lemma length_shift1 (xs : list (option Q)) : length (shift1 xs) = length xs.
Proof.
  destruct xs as [|x xs]; [done|]. unfold shift1.
  rewrite removelast_firstn_len. simpl length at 1.
  rewrite length_take. simpl. lia.
Qed.

Lemma length_rolling_mean w mp (xs : list (option Q)) :
  length (rolling_mean w mp xs) = length xs.
Proof. apply length_imap. Qed.

Lemma rolling_mean_lookup w mp (xs : list (option Q)) j :
  (j < length xs)%nat →
  rolling_mean w mp xs !! j = Some (window_mean mp (window_at w j xs)).
Proof.
  intros Hj. unfold rolling_mean. rewrite list_lookup_imap.
  destruct (lookup_lt_is_Some_2 xs j Hj) as [x ->]. done.
Qed.

Lemma omap_id_some (xs : list Z) :
  omap id (map (λ x, Some (inject_Z x)) xs) = map inject_Z xs.
Proof. induction xs as [|x xs IH]; [done|]. csimpl. by f_equal. Qed.

Lemma window_mean_some (xs : list Z) :
  window_mean 1 (map (λ x, Some (inject_Z x)) xs) =
    trailing_mean (length xs) xs.
Proof.
  unfold window_mean, trailing_mean. cbv zeta.
  rewrite omap_id_some, Nat.sub_diag, drop_0.
  by destruct (1 <=? length (map inject_Z xs))%nat.
Qed.

Lemma trailing_mean_drop w (xs : list Z) :
  trailing_mean w xs =
    trailing_mean (length (drop (length xs - w) xs)) (drop (length xs - w) xs).
Proof.
  unfold trailing_mean at 2. by rewrite Nat.sub_diag, drop_0.
Qed.

(** The shifted window at row [j] holds the last [w] of the first [j]
    values. *)
Lemma window_shift w (xs : list Z) j :
  (j < length xs)%nat →
  window_mean 1
    (window_at w j (shift1 (map (λ x, Some (inject_Z x)) xs))) =
  trailing_mean w (take j xs).
Proof.
  intros Hj. unfold window_at, shift1.
  destruct xs as [|x0 xs0] eqn:Hxs; [simpl in Hj; lia|].
  rewrite <- Hxs in *. clear Hxs x0 xs0.
  destruct (map (λ x, Some (inject_Z x)) xs) as [|y ys] eqn:Hmap.
  { apply (f_equal length) in Hmap. rewrite length_map in Hmap.
    simpl in Hmap. lia. }
  rewrite <- Hmap. clear Hmap y ys.
  rewrite removelast_firstn_len, length_map.
  rewrite firstn_cons, take_take.
  replace (j `min` Nat.pred (length xs))%nat with j by lia.
  rewrite <- fmap_take.
  assert (length (take j xs) = j) as Hlen by (rewrite length_take; lia).
  rewrite (trailing_mean_drop w (take j xs)), Hlen.
  destruct (decide (j < w)%nat) as [Hw|Hw].
  - replace (S j - w)%nat with 0%nat by lia.
    replace (j - w)%nat with 0%nat by lia.
    rewrite !drop_0. change (window_mean 1 (None :: ?c)) with (window_mean 1 c).
    apply window_mean_some.
  - replace (S j - w)%nat with (S (j - w)) by lia.
    rewrite skipn_cons, <- fmap_drop. apply window_mean_some.
Qed.

Lemma series_at_app (s1 s2 : list (nat * option Q)) label :
  series_at (s1 ++ s2) label =
    if decide (label ∈ map fst s1) then series_at s1 label
    else series_at s2 label.
Proof.
  induction s1 as [|[l' v] s1 IH].
  - destruct (decide (label ∈ map fst [])) as [Hin|Hin]; [|done].
    by apply elem_of_nil in Hin.
  - change (series_at (((l', v) :: s1) ++ s2) label)
      with (if decide (l' = label) then v else series_at (s1 ++ s2) label).
    change (series_at ((l', v) :: s1) label)
      with (if decide (l' = label) then v else series_at s1 label).
    change (map fst ((l', v) :: s1)) with (l' :: map fst s1).
    rewrite IH.
    destruct (decide (l' = label)) as [->|Hne].
    + destruct (decide (label ∈ label :: map fst s1)) as [Hin|Hin]; [done|].
      destruct Hin. by left.
    + destruct (decide (label ∈ map fst s1)) as [Hin|Hin],
        (decide (label ∈ l' :: map fst s1)) as [Hin'|Hin']; try done.
      * destruct Hin'. by right.
      * apply elem_of_cons in Hin' as [?|?]; congruence.
Qed.

Lemma series_at_zip (labels : list nat) (vals : list (option Q)) j label :
  NoDup labels → labels !! j = Some label →
  series_at (zip labels vals) label = mjoin (vals !! j).
Proof.
  revert vals j. induction labels as [|l0 labels IH]; intros vals j Hnd Hj.
  - done.
  - apply NoDup_cons in Hnd as [Hl0 Hnd].
    destruct vals as [|v vals].
    + by destruct j.
    + change (series_at (zip (l0 :: labels) (v :: vals)) label)
        with (if decide (l0 = label) then v
              else series_at (zip labels vals) label).
      destruct j as [|j]; simpl in Hj.
      * injection Hj as ->. by rewrite decide_True.
      * rewrite decide_False.
        -- exact (IH vals j Hnd Hj).
        -- intros ->. apply Hl0. by eapply list_elem_of_lookup_2.
Qed.

Lemma apply_group_labels w metric l :
  map fst (apply_group w metric l) = map fst l.
Proof.
  unfold apply_group. apply fst_zip.
  rewrite length_rolling_mean, length_shift1, !length_map. done.
Qed.

Lemma NoDup_labels_filter (P : nat * Event → Prop) `{∀ x, Decision (P x)} l :
  NoDup (map fst l) → NoDup (map fst (filter P l)).
Proof.
  induction l as [|r l IH]; simpl; [done|].
  intros [Hr Hnd]%NoDup_cons. rewrite filter_cons.
  case_decide; [|auto]. simpl. apply NoDup_cons. split; [|auto].
  rewrite list_elem_of_fmap in Hr |- *.
  intros (r' & Heq & Hin). apply Hr. exists r'. split; [done|].
  by apply list_elem_of_filter in Hin as [_ ?].
Qed.

Lemma NoDup_labels_inj l r1 r2 :
  NoDup (map fst l) → r1 ∈ l → r2 ∈ l → fst r1 = fst r2 → r1 = r2.
Proof.
  induction l as [|r l IH]; simpl; intros Hnd H1 H2 Heq.
  - by apply elem_of_nil in H1.
  - apply NoDup_cons in Hnd as [Hr Hnd].
    apply elem_of_cons in H1 as [->|H1], H2 as [->|H2]; auto.
    + destruct Hr. rewrite Heq. by apply list_elem_of_fmap_2.
    + destruct Hr. rewrite <- Heq. by apply list_elem_of_fmap_2.
Qed.

Lemma player_df_perm df : player_df df ≡ₚ concat df.
Proof. apply rolling_sort_perm. Qed.

Lemma player_df_labels_NoDup df : NoDup (map fst (player_df df)).
Proof. rewrite player_df_perm. apply concat_labels_NoDup. Qed.

(** A row reads, from the concatenated results of all groups, the cell
    computed at its own position in its own group. *)
Lemma rolling_stats_at w metric pdf r j :
  NoDup (map fst pdf) →
  get_group (player (snd r)) pdf !! j = Some r →
  series_at (rolling_stats w metric pdf) (fst r) =
    mjoin (rolling_mean w 1
             (shift1 (map (λ r', Some (inject_Z (metric (snd r'))))
                          (get_group (player (snd r)) pdf))) !! j).
Proof.
  intros Hnd Hj.
  assert (r ∈ pdf) as Hin.
  { apply list_elem_of_lookup_2 in Hj.
    by apply list_elem_of_filter in Hj as [_ ?]. }
  unfold rolling_stats.
  assert (player (snd r) ∈ group_keys pdf) as Hk.
  { unfold group_keys. rewrite elem_of_remove_dups.
    by apply (list_elem_of_fmap_2 (λ r, player (snd r))). }
  induction (group_keys pdf) as [|k ks IH]; [by apply elem_of_nil in Hk|].
  simpl. rewrite series_at_app, apply_group_labels.
  destruct (decide (k = player (snd r))) as [->|Hne].
  - rewrite decide_True.
    + unfold apply_group. apply series_at_zip.
      * by apply NoDup_labels_filter.
      * by rewrite list_lookup_fmap, Hj.
    + apply list_elem_of_lookup_2 in Hj. by apply list_elem_of_fmap_2.
  - rewrite decide_False.
    + apply IH. apply elem_of_cons in Hk as [?|?]; [congruence|done].
    + rewrite list_elem_of_fmap. intros (r' & Heq & Hr').
      apply list_elem_of_filter in Hr' as [Hp Hr'].
      assert (r = r') by by eapply NoDup_labels_inj. congruence.
Qed.

Lemma player_rows_snd_ext (p : string) n n' df :
  map snd (player_rows p n df) = map snd (player_rows p n' df).
Proof.
  unfold player_rows.
  assert (∀ k, map snd (mjoin (imap (λ i, events_of p n (k + i)) df)) =
               map snd (mjoin (imap (λ i, events_of p n' (k + i)) df))) as Hg.
  { induction df as [|m df IH]; intros k; simpl; [done|].
    rewrite !fmap_app. f_equal.
    - unfold events_of. by repeat case_decide.
    - specialize (IH (S k)).
      rewrite (imap_ext ((λ i, events_of p n (k + i)) ∘ S)
                 (λ i, events_of p n (S k + i)))
        by (intros; simpl; f_equal; lia).
      rewrite (imap_ext ((λ i, events_of p n' (k + i)) ∘ S)
                 (λ i, events_of p n' (S k + i)))
        by (intros; simpl; f_equal; lia).
      exact IH. }
  apply (Hg 0%nat).
Qed.

(** The raw rolling cell of the player-1 event of a match is the trailing
    mean over that player's events in the matches before it. *)
Lemma raw_cell_p1 w metric pre m post :
  let df := pre ++ m :: post in
  date_sorted df →
  series_at (rolling_stats w metric (player_df df)) (length pre) =
    trailing_mean w (map metric (player_history (p1_name m) pre)).
Proof.
  intros df Hs.
  set (p := p1_name m). set (n := length df).
  set (r := (length pre, p1_event (length pre) m)).
  assert (get_group p (player_df df) =
          player_rows p n pre
          ++ r :: (if decide (p2_name m = p)
                   then [((n + length pre)%nat, p2_event (length pre) m)]
                   else [])
          ++ mjoin (imap (λ i, events_of p n (length pre + S i)) post))
    as Hgroup.
  { rewrite get_group_player_df by done. subst df.
    rewrite player_rows_app. f_equal. simpl.
    rewrite Nat.add_0_r. unfold events_of at 1.
    rewrite decide_True by done. done. }
  pose proof (rolling_stats_at w metric (player_df df) r
                (length (player_rows p n pre))
                (player_df_labels_NoDup df)) as Hat.
  change (player (snd r)) with p in Hat. change (fst r) with (length pre) in Hat.
  rewrite Hat by (rewrite Hgroup; apply list_lookup_middle; done).
  rewrite rolling_mean_lookup
    by (rewrite length_shift1, length_map, Hgroup, length_app; simpl; lia).
  change (mjoin (Some ?x)) with x.
  rewrite <- (map_map (λ r', metric (snd r')) (λ x, Some (inject_Z x))).
  rewrite <- (map_map snd metric).
  rewrite window_shift
    by (rewrite !length_map, Hgroup, length_app; simpl; lia).
  f_equal. rewrite <- !fmap_take, Hgroup, take_app_length.
  unfold player_history. by rewrite (player_rows_snd_ext p n 0).
Qed.

(** The same for the player-2 event, when the two players differ. *)
Lemma raw_cell_p2 w metric pre m post :
  let df := pre ++ m :: post in
  date_sorted df → p1_name m ≠ p2_name m →
  series_at (rolling_stats w metric (player_df df))
            (length df + length pre) =
    trailing_mean w (map metric (player_history (p2_name m) pre)).
Proof.
  intros df Hs Hne.
  set (p := p2_name m). set (n := length df).
  set (r := ((n + length pre)%nat, p2_event (length pre) m)).
  assert (get_group p (player_df df) =
          player_rows p n pre
          ++ r :: mjoin (imap (λ i, events_of p n (length pre + S i)) post))
    as Hgroup.
  { rewrite get_group_player_df by done. subst df.
    rewrite player_rows_app. f_equal. simpl.
    rewrite Nat.add_0_r. unfold events_of at 1.
    rewrite decide_False by done. rewrite decide_True by done. done. }
  pose proof (rolling_stats_at w metric (player_df df) r
                (length (player_rows p n pre))
                (player_df_labels_NoDup df)) as Hat.
  change (player (snd r)) with p in Hat.
  change (fst r) with (n + length pre)%nat in Hat.
  rewrite Hat by (rewrite Hgroup; apply list_lookup_middle; done).
  rewrite rolling_mean_lookup
    by (rewrite length_shift1, length_map, Hgroup, length_app; simpl; lia).
  change (mjoin (Some ?x)) with x.
  rewrite <- (map_map (λ r', metric (snd r')) (λ x, Some (inject_Z x))).
  rewrite <- (map_map snd metric).
  rewrite window_shift
    by (rewrite !length_map, Hgroup, length_app; simpl; lia).
  f_equal. rewrite <- !fmap_take, Hgroup, take_app_length.
  unfold player_history. by rewrite (player_rows_snd_ext p n 0).
Qed.
End rolling_facts.

(** ** From [player_df] columns to the cells of the feature table *)

Section table_facts.
Import Rolling.
Implicit Types (df : list Match) (pdf : list (nat * Event)).

Lemma find_event role df i m :
  df !! i = Some m →
  ∃ j, list_find (λ r, is_p1 (snd r) = role ∧ match_index (snd r) = i)
                 (player_df df) = Some (j, event_row role (length df) i m).
Proof.
  intros Hi.
  assert (event_row role (length df) i m ∈ player_df df) as Hin.
  { rewrite player_df_perm. apply elem_of_concat. exists i, m.
    split; [done|]. destruct role; auto. }
  destruct (list_find_elem_of
              (λ r, is_p1 (snd r) = role ∧ match_index (snd r) = i)
              (player_df df) _ Hin) as [[j r] Hf].
  { by destruct role. }
  exists j. rewrite Hf. do 2 f_equal.
  apply list_find_Some in Hf as (Hj & [Hrole Hidx] & _).
  apply list_elem_of_lookup_2 in Hj. rewrite player_df_perm in Hj.
  apply elem_of_concat in Hj as (i' & m' & Hi' & [-> | ->]);
    simpl in *; destruct role; try done; subst i';
    rewrite Hi in Hi'; by injection Hi' as <-.
Qed.

(** Row [i] of a joined column is the filled cell of the event of that
    role of match [i]. *)
Lemma join_col_cell role df i m (d : option Q) (s : list (nat * option Q)) :
  df !! i = Some m →
  join_col role (player_df df) (length df)
    (fillna d (aligned s (player_df df))) !! i =
  Some (match series_at s (fst (event_row role (length df) i m)) with
        | Some x => Some x
        | None => d
        end).
Proof.
  intros Hi. unfold join_col. rewrite list_lookup_fmap.
  rewrite lookup_seq_lt by (by eapply lookup_lt_Some). simpl.
  destruct (find_event role df i m Hi) as [j Hf]. rewrite Hf.
  apply list_find_Some in Hf as (Hj & _ & _).
  unfold fillna, aligned. rewrite !list_lookup_fmap, Hj. simpl.
  by destruct (series_at s (fst (event_row role (length df) i m))).
Qed.

Lemma get_col_app name (c1 c2 : columns) :
  get_col name (c1 ++ c2) =
    match get_col name c1 with
    | Some v => Some v
    | None => get_col name c2
    end.
Proof.
  induction c1 as [|[c v] c1 IH]; simpl; [done|].
  by destruct (String.eqb c name).
Qed.

Lemma get_col_absent name (cols : columns) :
  name ∉ map fst cols → get_col name cols = None.
Proof.
  induction cols as [|[c v] cols IH]; simpl; [done|].
  intros Hn. destruct (String.eqb_spec c name) as [->|Hne].
  - destruct Hn. by left.
  - apply IH. intros Hin. apply Hn. by right.
Qed.

(** The ten columns of [player_df] after the two fills. *)
Lemma filled_columns_explicit df :
  let raw w metric := raw_column w metric (player_df df) in
  let win w := fillna (Some DEFAULT_WIN_PCT) (raw w won) in
  let stat w metric := fillna (series_mean (raw w metric)) (raw w metric) in
  filled_columns df =
    [("recent_win_rate_5", win 5%nat);
     ("recent_games_won_avg_5", stat 5%nat games_won);
     ("recent_games_lost_avg_5", stat 5%nat games_lost);
     ("recent_sets_won_avg_5", stat 5%nat sets_won);
     ("recent_sets_lost_avg_5", stat 5%nat sets_lost);
     ("recent_win_rate_10", win 10%nat);
     ("recent_games_won_avg_10", stat 10%nat games_won);
     ("recent_games_lost_avg_10", stat 10%nat games_lost);
     ("recent_sets_won_avg_10", stat 10%nat sets_won);
     ("recent_sets_lost_avg_10", stat 10%nat sets_lost)]%string.
Proof.
  intros raw win stat. subst raw win stat.
  unfold filled_columns, rolling_columns, RECENT_FORM_WINDOWS.
  unfold fold_left, add_window.
  generalize (player_df df). intros pdf.
  generalize (raw_column 5 won pdf) (raw_column 5 games_won pdf)
    (raw_column 5 games_lost pdf) (raw_column 5 sets_won pdf)
    (raw_column 5 sets_lost pdf) (raw_column 10 won pdf)
    (raw_column 10 games_won pdf) (raw_column 10 games_lost pdf)
    (raw_column 10 sets_won pdf) (raw_column 10 sets_lost pdf).
  intros c1 c2 c3 c4 c5 c6 c7 c8 c9 c10.
  vm_compute. reflexivity.
Qed.

Lemma role_features_explicit role pdf n
    (c1 c2 c3 c4 c5 c6 c7 c8 c9 c10 : list (option Q)) :
  role_features role pdf n
    [("recent_win_rate_5", c1); ("recent_games_won_avg_5", c2);
     ("recent_games_lost_avg_5", c3); ("recent_sets_won_avg_5", c4);
     ("recent_sets_lost_avg_5", c5); ("recent_win_rate_10", c6);
     ("recent_games_won_avg_10", c7); ("recent_games_lost_avg_10", c8);
     ("recent_sets_won_avg_10", c9); ("recent_sets_lost_avg_10", c10)]%string
  = map (λ '(c, v), (role_prefix role +:+ c, join_col role pdf n v))
    [("recent_win_rate_5", c1); ("recent_games_won_avg_5", c2);
     ("recent_games_lost_avg_5", c3); ("recent_sets_won_avg_5", c4);
     ("recent_sets_lost_avg_5", c5); ("recent_win_rate_10", c6);
     ("recent_games_won_avg_10", c7); ("recent_games_lost_avg_10", c8);
     ("recent_sets_won_avg_10", c9); ("recent_sets_lost_avg_10", c10)]%string.
Proof.
  unfold role_features, role_prefix.
  generalize (join_col role pdf n). intros jc.
  destruct role; vm_compute; reflexivity.
Qed.

(** The twenty joined columns. *)
Lemma joined_columns_explicit df :
  let pdf := player_df df in
  let n := length df in
  let raw w metric := raw_column w metric pdf in
  let win role w :=
    join_col role pdf n (fillna (Some DEFAULT_WIN_PCT) (raw w won)) in
  let stat role w metric :=
    join_col role pdf n
      (fillna (series_mean (raw w metric)) (raw w metric)) in
  role_features true (player_df df) (length df) (filled_columns df)
  ++ role_features false (player_df df) (length df) (filled_columns df) =
    [("p1_recent_win_rate_5", win true 5%nat);
     ("p1_recent_games_won_avg_5", stat true 5%nat games_won);
     ("p1_recent_games_lost_avg_5", stat true 5%nat games_lost);
     ("p1_recent_sets_won_avg_5", stat true 5%nat sets_won);
     ("p1_recent_sets_lost_avg_5", stat true 5%nat sets_lost);
     ("p1_recent_win_rate_10", win true 10%nat);
     ("p1_recent_games_won_avg_10", stat true 10%nat games_won);
     ("p1_recent_games_lost_avg_10", stat true 10%nat games_lost);
     ("p1_recent_sets_won_avg_10", stat true 10%nat sets_won);
     ("p1_recent_sets_lost_avg_10", stat true 10%nat sets_lost);
     ("p2_recent_win_rate_5", win false 5%nat);
     ("p2_recent_games_won_avg_5", stat false 5%nat games_won);
     ("p2_recent_games_lost_avg_5", stat false 5%nat games_lost);
     ("p2_recent_sets_won_avg_5", stat false 5%nat sets_won);
     ("p2_recent_sets_lost_avg_5", stat false 5%nat sets_lost);
     ("p2_recent_win_rate_10", win false 10%nat);
     ("p2_recent_games_won_avg_10", stat false 10%nat games_won);
     ("p2_recent_games_lost_avg_10", stat false 10%nat games_lost);
     ("p2_recent_sets_won_avg_10", stat false 10%nat sets_won);
     ("p2_recent_sets_lost_avg_10", stat false 10%nat sets_lost)]%string.
Proof.
  intros pdf n raw win stat.
  pose proof (filled_columns_explicit df) as Hfilled.
  cbv zeta in Hfilled. rewrite Hfilled.
  rewrite !role_features_explicit. reflexivity.
Qed.

Lemma get_col_hit name c v (rest : columns) :
  String.eqb c name = true → get_col name ((c, v) :: rest) = Some v.
Proof. simpl. by intros ->. Qed.

Lemma get_col_miss name c v (rest : columns) :
  String.eqb c name = false →
  get_col name ((c, v) :: rest) = get_col name rest.
Proof. simpl. by intros ->. Qed.

Ltac find_col :=
  repeat match goal with
         | |- context [get_col _ (_ :: _)] =>
             first [ rewrite get_col_hit by (vm_compute; reflexivity)
                   | rewrite get_col_miss by (vm_compute; reflexivity) ]
         end.

(** A cell of a joined rolling column, for every role, configured window
    and metric. *)
Lemma rolling_cell (fr : Frame) role w stem metric i m :
  w ∈ RECENT_FORM_WINDOWS → (stem, metric) ∈ rolling_metrics →
  rows fr !! i = Some m →
  (∀ c, c ∈ map fst (float_cols fr) → contains "recent_" c = false) →
  float_cell (compute_rolling_features fr) (feature_name role stem w) i =
    Some (fill_cell stem
            (series_mean (raw_column w metric (player_df (rows fr))))
            (series_at (rolling_stats w metric (player_df (rows fr)))
                       (fst (event_row role (length (rows fr)) i m)))).
Proof.
  intros Hw Hm Hi Hfc.
  unfold RECENT_FORM_WINDOWS in Hw.
  unfold rolling_metrics, magnitude_metrics in Hm.
  rewrite !elem_of_cons, elem_of_nil in Hw.
  rewrite !elem_of_cons, elem_of_nil in Hm.
  unfold float_cell, compute_rolling_features. cbv zeta. cbn [float_cols].
  rewrite get_col_app.
  assert (contains "recent_" (feature_name role stem w) = true) as Hname.
  { destruct Hw as [->|[->|[]]];
      destruct Hm as [Hm|[Hm|[Hm|[Hm|[Hm|[]]]]]];
      injection Hm as -> _; destruct role; vm_compute; reflexivity. }
  rewrite get_col_absent.
  2:{ intros Hin. apply Hfc in Hin. congruence. }
  pose proof (joined_columns_explicit (rows fr)) as Hjoined.
  cbv zeta in Hjoined. rewrite Hjoined. clear Hjoined. unfold raw_column.
  destruct Hw as [->|[->|[]]];
    destruct Hm as [Hm|[Hm|[Hm|[Hm|[Hm|[]]]]]];
    injection Hm as -> ->; destruct role;
    find_col; cbn [mbind option_bind];
    rewrite (join_col_cell _ _ i m) by done; reflexivity.
Qed.

(** A cell of a joined rolling column at the row of a match, in a frame
    sorted by date: the trailing mean over the player's earlier events,
    filled where there is none. *)
Lemma rolling_cell_sorted (fr : Frame) pre m post role w stem metric :
  rows fr = pre ++ m :: post → date_sorted (rows fr) →
  (role = false → p1_name m ≠ p2_name m) →
  (∀ c, c ∈ map fst (float_cols fr) → contains "recent_" c = false) →
  w ∈ RECENT_FORM_WINDOWS → (stem, metric) ∈ rolling_metrics →
  float_cell (compute_rolling_features fr) (feature_name role stem w)
             (length pre) =
    Some (fill_cell stem
            (series_mean (raw_column w metric (player_df (rows fr))))
            (trailing_mean w
               (map metric (player_history (role_player role m) pre)))).
Proof.
  intros Hrows Hs Hwf Hfc Hw Hm.
  rewrite (rolling_cell _ role w stem metric (length pre) m); try done.
  - do 2 f_equal. rewrite Hrows in Hs |- *. destruct role; simpl.
    + by apply raw_cell_p1.
    + apply (raw_cell_p2 w metric pre m post Hs). by apply Hwf.
  - rewrite Hrows. by apply list_lookup_middle.
Qed.

Lemma player_history_fresh (p : string) pre :
  Forall (λ m', ¬ plays p m') pre → player_history p pre = [].
Proof.
  intros Hall. unfold player_history, player_rows.
  rewrite (join_nil_2 (imap (events_of p 0) pre)); [done|].
  apply Forall_forall. intros chunk Hc.
  apply list_elem_of_lookup in Hc as [i Hi].
  apply list_lookup_imap_Some in Hi as (m' & Hm' & ->).
  rewrite Forall_forall in Hall.
  assert (¬ plays p m') as Hnp by (by eapply Hall, list_elem_of_lookup_2).
  unfold events_of, plays in *.
  rewrite !decide_False; [done|tauto..].
Qed.

Lemma trailing_mean_nil w : trailing_mean w [] = None.
Proof. unfold trailing_mean. cbv zeta. by rewrite drop_nil. Qed.

Lemma trailing_mean_is_Some w (xs : list Z) :
  (1 ≤ w)%nat → xs ≠ [] → is_Some (trailing_mean w xs).
Proof.
  intros Hw Hxs. unfold trailing_mean. cbv zeta.
  rewrite length_map, length_drop.
  assert (0 < length xs)%nat by (destruct xs; [done|simpl; lia]).
  destruct (Nat.leb_spec 1 (length xs - (length xs - w))); [by eexists|lia].
Qed.
End table_facts.

(** ** The cells of the table [add_features] returns *)

Section feature_table_facts.
Import Rolling.
Context `{Pandas}.
Implicit Types (df pre post : list Match) (m : Match).

Lemma add_features_histories df :
  snd (fst (add_features df)) = surface_history (run_loop (processing_order df))
  ∧ snd (add_features df) = h2h_history (run_loop (processing_order df)).
Proof. done. Qed.

Lemma processing_order_length df :
  length (processing_order df) = length df.
Proof.
  unfold processing_order.
  by rewrite sort_values_permutation, length_map.
Qed.

(** The streamed columns at the row of a match. *)
Lemma streamed_cells df pre m post :
  processing_order df = pre ++ m :: post →
  let t := fst (fst (add_features df)) in
  let st := run_loop pre in
  float_cell t "p1_surface_win_pct" (length pre) =
    Some (Some (Surface.get_surface_win_pct (surface_history st) (p1_name m)
                  (row_surface m))) ∧
  float_cell t "p2_surface_win_pct" (length pre) =
    Some (Some (Surface.get_surface_win_pct (surface_history st) (p2_name m)
                  (row_surface m))) ∧
  int_cell t "h2h_diff" (length pre) =
    Some (H2H.diff (h2h_history st) (p1_name m) (p2_name m)).
Proof.
  intros Hpo t st. subst t st. unfold add_features. rewrite Hpo.
  destruct (loop_features_at pre m post) as (F1 & F2 & F3).
  unfold float_cell, int_cell, compute_rolling_features. cbv zeta.
  cbn [fst snd float_cols int_cols rows].
  split_and!.
  - rewrite get_col_app, get_col_hit by reflexivity.
    cbn [mbind option_bind]. by rewrite list_lookup_fmap, F1.
  - rewrite get_col_app, get_col_miss by reflexivity.
    rewrite get_col_hit by reflexivity. cbn [mbind option_bind].
    by rewrite list_lookup_fmap, F2.
  - cbn [get_int_col]. exact F3.
Qed.

(** The rolling columns at the row of a match. *)
Lemma rolling_cells df pre m post role w stem metric :
  processing_order df = pre ++ m :: post →
  (role = false → p1_name m ≠ p2_name m) →
  w ∈ RECENT_FORM_WINDOWS → (stem, metric) ∈ rolling_metrics →
  float_cell (fst (fst (add_features df))) (feature_name role stem w)
             (length pre) =
    Some (fill_cell stem
            (series_mean (raw_column w metric (player_df (pre ++ m :: post))))
            (trailing_mean w
               (map metric (player_history (role_player role m) pre)))).
Proof.
  intros Hpo Hwf Hw Hm.
  assert (date_sorted (pre ++ m :: post)) as Hs.
  { rewrite <- Hpo. apply sort_values_sorted. }
  unfold add_features. rewrite Hpo. cbn [fst].
  match goal with
  | |- float_cell (compute_rolling_features ?fr) _ _ = _ =>
      apply (rolling_cell_sorted fr pre m post
               role w stem metric eq_refl Hs Hwf)
  end; [|exact Hw|exact Hm].
  cbn [float_cols]. intros c Hc. cbn [map fst] in Hc.
  rewrite !elem_of_cons, elem_of_nil in Hc.
  by destruct Hc as [->|[->|[]]].
Qed.

(** *** What a player without earlier matches finds in the histories *)

Lemma surface_entry_fresh (p : string) pre surface :
  Forall (λ m', ¬ plays p m') pre →
  Surface.entry (surface_history (run_loop pre)) p surface = None.
Proof.
  induction pre as [|m' pre IH] using rev_ind; intros Hall.
  - unfold run_loop, Surface.entry. simpl. by rewrite lookup_empty.
  - apply Forall_app in Hall as [Hpre Hm'].
    apply Forall_cons in Hm' as [Hm' _]. unfold plays in Hm'.
    rewrite run_loop_snoc. unfold loop_body. cbn [surface_history].
    rewrite !entry_update_other; [by apply IH|..];
      intros [= ? _]; apply Hm'; auto.
Qed.

Lemma h2h_entry_fresh (key : string * string) pre :
  Forall (λ m', H2H.sorted_pair (p1_name m') (p2_name m') ≠ key) pre →
  h2h_history (run_loop pre) !! key = None.
Proof.
  induction pre as [|m' pre IH] using rev_ind; intros Hall.
  - unfold run_loop. simpl. by rewrite lookup_empty.
  - apply Forall_app in Hall as [Hpre Hm'].
    apply Forall_cons in Hm' as [Hm' _].
    rewrite run_loop_snoc. unfold loop_body. cbn [h2h_history].
    unfold H2H.record.
    destruct (h2h_history (run_loop pre)
                !! H2H.sorted_pair (p1_name m') (p2_name m'));
      simpl; rewrite !lookup_insert_ne by done; by apply IH.
Qed.

Lemma h2h_diff_fresh (p : string) pre m :
  plays p m → Forall (λ m', ¬ plays p m') pre →
  H2H.diff (h2h_history (run_loop pre)) (p1_name m) (p2_name m) = 0.
Proof.
  intros Hp Hall. unfold H2H.diff.
  rewrite h2h_entry_fresh; [done|].
  eapply Forall_impl; [exact Hall|]. intros m' Hnp Heq. apply Hnp.
  unfold plays in *.
  destruct (sorted_pair_cases (p1_name m') (p2_name m')) as [E1|E1],
           (sorted_pair_cases (p1_name m) (p2_name m)) as [E2|E2];
    rewrite E1, E2 in Heq; injection Heq as ??; destruct Hp; subst; auto;
    right; congruence.
Qed.
End feature_table_facts.

(** ** Score parsing *)

Section score_facts.
Import Score.
Implicit Types (s tok : string) (st : totals).

(** [split] with a separator gives at least one piece, so taking the first
    piece raises no [IndexError]. *)
Lemma first_item_split_on (sep : ascii) s :
  ∃ piece, first_item (split_on sep s) = Returns piece.
Proof.
  unfold split_on. destruct s as [|c s]; simpl; [by eexists|].
  destruct (Ascii.eqb sep c); [by eexists|].
  destruct (split_by _ s); by eexists.
Qed.

(** [int] on a string returns or raises [ValueError]. *)
Lemma int_outcome s : (∃ z, int s = Returns z) ∨ int s = Raises ValueError.
Proof.
  unfold int. destruct (match strip s with
                        | String "+" rest => (1, rest)
                        | String "-" rest => (-1, rest)
                        | _ => (1, strip s)
                        end) as [sign body].
  destruct (digits 0 0 false body) as [[n count]|]; [|by right].
  destruct (count <=? max_str_digits)%nat; [left; by eexists|by right].
Qed.

Lemma parse_set_add st tok :
  parse_set st tok = Returns (add_totals st (contribution tok)).
Proof.
  destruct st as [[[a b] c] d]. unfold contribution, parse_set.
  destruct (has_marker tok); simpl.
  { f_equal. repeat f_equal; lia. }
  assert (∃ games,
    (if contains "(" tok then first_item (split_on "(" tok) else Returns tok)
    = Returns games) as [games ->].
  { destruct (contains "(" tok); [apply first_item_split_on|by eexists]. }
  cbn [bind].
  destruct (split_on "-" _) as [|p0 [|p1 [|p2 l]]]; simpl;
    try (f_equal; repeat f_equal; lia).
  destruct (int_outcome p0) as [[x ->] | ->]; simpl;
    [|f_equal; repeat f_equal; lia].
  destruct (int_outcome p1) as [[y ->] | ->]; simpl;
    [|f_equal; repeat f_equal; lia].
  destruct (y <? x); simpl; [f_equal; repeat f_equal; lia|].
  destruct (x <? y); simpl; f_equal; repeat f_equal; lia.
Qed.

Lemma for_each_sum (sets : list string) st :
  for_each sets st =
    Returns (foldl add_totals st (map contribution sets)).
Proof.
  revert st. induction sets as [|tok sets IH]; intros st; simpl; [done|].
  rewrite parse_set_add. simpl. apply IH.
Qed.

Lemma rev_app_empty s acc :
  String.rev_app s acc = EmptyString → s = EmptyString ∧ acc = EmptyString.
Proof.
  revert acc. induction s as [|c s IH]; intros acc; simpl; [done|].
  intros [_ [=]]%IH.
Qed.

Lemma all_space_rev_app s acc :
  all_space (String.rev_app s acc) = all_space s && all_space acc.
Proof.
  revert acc. induction s as [|c s IH]; intros acc; simpl; [done|].
  rewrite IH. simpl. destruct (isspace c), (all_space s); done.
Qed.

Lemma lstrip_empty s : lstrip s = EmptyString ↔ all_space s = true.
Proof.
  induction s as [|c s IH]; simpl; [done|].
  destruct (isspace c); simpl; [done|]. split; intros [=].
Qed.

Lemma lstrip_all_space s :
  all_space (lstrip s) = true → lstrip s = EmptyString.
Proof.
  induction s as [|c s IH]; simpl; [done|].
  destruct (isspace c) eqn:Hc; [done|]. simpl. by rewrite Hc.
Qed.

Lemma strip_empty s : strip s = EmptyString → all_space s = true.
Proof.
  unfold strip, String.rev. intros [Hl _]%rev_app_empty.
  apply lstrip_empty in Hl. rewrite all_space_rev_app in Hl.
  apply andb_true_iff in Hl as [Hl _].
  by apply lstrip_empty, lstrip_all_space.
Qed.

Lemma split_all_space s : all_space s = true → split s = [].
Proof.
  unfold split. induction s as [|c s IH]; simpl; [done|].
  intros [Hc Hs]%andb_true_iff. rewrite Hc.
  rewrite filter_cons_False by (by intros ?). auto.
Qed.

(** A substring of a prefix is a substring. *)
Lemma prefix_app (needle a b : string) :
  String.prefix needle a = true → String.prefix needle (a +:+ b) = true.
Proof.
  revert a. induction needle as [|c needle IH]; intros a; simpl.
  { by destruct (a +:+ b). }
  destruct a as [|d a]; [done|]. simpl.
  destruct (ascii_dec c d); [apply IH|done].
Qed.

Lemma contains_app (needle a b : string) :
  contains needle a = true → contains needle (a +:+ b) = true.
Proof.
  induction a as [|d a IH].
  - simpl. rewrite orb_false_r. intros Hp.
    destruct needle; [|done]. by destruct b.
  - change (String d a +:+ b) with (String d (a +:+ b)).
    simpl contains. intros [Hp|Hc]%orb_true_iff; apply orb_true_iff.
    + left. by apply (prefix_app needle (String d a) b).
    + right. auto.
Qed.

Lemma has_marker_app (a b : string) :
  has_marker (a +:+ b) = false → has_marker a = false.
Proof.
  unfold has_marker. rewrite !orb_false_iff.
  intros [[H1 H2] H3]. split_and!; apply not_true_is_false; intros Hc;
    apply (contains_app _ a b) in Hc; congruence.
Qed.

(** The piece before the first separator. *)
Lemma split_on_first (sep : ascii) (a rest : string) :
  contains (String sep EmptyString) a = false →
  split_on sep (a +:+ String sep rest) = a :: split_on sep rest.
Proof.
  unfold split_on. induction a as [|d a IH].
  - intros _. change (EmptyString +:+ ?x) with x. simpl.
    by rewrite Ascii.eqb_refl.
  - change (String d a +:+ ?x) with (String d (a +:+ x)).
    simpl contains. intros [Hp Hc]%orb_false_iff. simpl.
    destruct (ascii_dec sep d) as [->|Hne].
    { by destruct a. }
    apply Ascii.eqb_neq in Hne. rewrite Hne. by rewrite IH.
Qed.

Lemma contains_sep (sep : ascii) (a rest : string) :
  contains (String sep EmptyString) (a +:+ String sep rest) = true.
Proof.
  induction a as [|d a IH].
  - change (EmptyString +:+ ?x) with x. simpl.
    destruct (ascii_dec sep sep); [|done]. by destruct rest.
  - change (String d a +:+ ?x) with (String d (a +:+ x)).
    simpl contains. rewrite IH. apply orb_true_r.
Qed.
(** The score of the docstring, a retirement, a token that is no score
    and a token with two dashes. *)
Example parse_match_score_examples :
  parse_match_score (PyStr "6-4 3-6 7-6(5)") = Returns (16, 16, 2, 1)
  ∧ parse_match_score (PyStr "6-4 2-0 RET") = Returns (8, 4, 2, 0)
  ∧ parse_match_score (PyStr "6-4 abc 7-5") = Returns (13, 9, 2, 0)
  ∧ parse_match_score (PyStr "6--4") = Returns (0, 0, 0, 0)
  ∧ parse_match_score PyNone = Returns (0, 0, 0, 0).
Proof. vm_compute. done. Qed.
End score_facts.

(** ** The frames as objects: weakest preconditions *)

Section heap_facts.
Import Rolling Heap.
Implicit Types (h : heap) (l : nat) (o : obj).

Lemma wp_bind {A B} (m : State A) (k : A → State B) h Q :
  wp m h (λ a h', wp (k a) h' Q) → wp (m ≫= k) h Q.
Proof. unfold wp, mbind, state_bind. by destruct (m h). Qed.

Lemma wp_ret {A} (a : A) h (Q : A → heap → Prop) :
  Q a h → wp (mret a) h Q.
Proof. done. Qed.

Lemma wp_load l h o (Q : obj → heap → Prop) :
  h !! l = Some o → Q o h → wp (load l) h Q.
Proof. unfold wp, load. simpl. by intros ->. Qed.

Lemma wp_new_from l g h o (Q : nat → heap → Prop) :
  h !! l = Some o →
  (∀ l', h !! l' = None → Q l' (<[l' := g o]> h)) →
  wp (new_from l g) h Q.
Proof.
  intros Hl HQ. unfold wp, new_from, mbind, state_bind, load, alloc.
  rewrite Hl. simpl. apply HQ.
  apply not_elem_of_dom, is_fresh.
Qed.

Lemma wp_new_from2 l1 l2 g h o1 o2 (Q : nat → heap → Prop) :
  h !! l1 = Some o1 → h !! l2 = Some o2 →
  (∀ l', h !! l' = None → Q l' (<[l' := g o1 o2]> h)) →
  wp (new_from2 l1 l2 g) h Q.
Proof.
  intros Hl1 Hl2 HQ.
  unfold wp, new_from2, mbind, state_bind, load, alloc.
  rewrite Hl1, Hl2. simpl. apply HQ.
  apply not_elem_of_dom, is_fresh.
Qed.

Lemma wp_assign l g h o (Q : unit → heap → Prop) :
  h !! l = Some o → Q tt (<[l := g o]> h) → wp (assign l g) h Q.
Proof.
  intros Hl HQ. unfold wp, assign, mbind, state_bind, load, store.
  by rewrite Hl.
Qed.

Lemma preserved_refl h : preserved h h.
Proof. by intros l o. Qed.

Lemma preserved_trans h1 h2 h3 :
  preserved h1 h2 → preserved h2 h3 → preserved h1 h3.
Proof. intros H12 H23 l o Hl. auto. Qed.

Lemma preserved_insert h h' l o :
  h !! l = None → preserved h h' → preserved h (<[l := o]> h').
Proof.
  intros Hl Hp l' o' Hl'. rewrite lookup_insert_ne by congruence. auto.
Qed.

Lemma preserved_None h h' l : preserved h h' → h' !! l = None → h !! l = None.
Proof.
  intros Hp Hl. destruct (h !! l) as [o|] eqn:Ho; [|done].
  apply Hp in Ho. congruence.
Qed.
End heap_facts.

(** One step of a program on the store; the current store is kept as the
    inserts made so far. *)
Ltac heap_lookup :=
  repeat first
    [ rewrite lookup_insert_eq
    | rewrite lookup_insert_ne by congruence ];
  first [reflexivity | eassumption].

Ltac heap_fresh l H :=
  intros l H;
  repeat match type of H with
         | <[_ := _]> _ !! _ = None =>
             let Hne := fresh "Hne" in
             apply lookup_insert_None in H as [H Hne]
         end.

Ltac heap_step :=
  lazymatch goal with
  | |- Heap.wp (_ ≫= _) _ _ => apply wp_bind
  | |- Heap.wp (Heap.new_from _ _) _ _ =>
      eapply wp_new_from;
      [heap_lookup|let l := fresh "l" in let H := fresh "Hl" in heap_fresh l H]
  | |- Heap.wp (Heap.new_from2 _ _ _) _ _ =>
      eapply wp_new_from2;
      [heap_lookup|heap_lookup
      |let l := fresh "l" in let H := fresh "Hl" in heap_fresh l H]
  | |- Heap.wp (Heap.assign _ _) _ _ =>
      eapply wp_assign; [heap_lookup|rewrite ?insert_insert_eq]
  | |- Heap.wp (Heap.load _) _ _ => eapply wp_load; [heap_lookup|]
  | |- Heap.wp (mret _) _ _ => apply wp_ret
  end.

(** ** The programs on the store against the functions on values *)

Section heap_programs.
Import Rolling.
Implicit Types (h : Heap.heap) (f : Frame).

Lemma wp_mono {A} (m : Heap.State A) h (Q Q' : A → Heap.heap → Prop) :
  Heap.wp m h Q → (∀ a h', Q a h' → Q' a h') → Heap.wp m h Q'.
Proof. unfold Heap.wp. auto. Qed.

Lemma int_col_set_eq name values cols :
  Heap.int_col name (Heap.set_int_col name values cols) = values.
Proof.
  induction cols as [|[c v] cols IH]; simpl.
  - by rewrite String.eqb_refl.
  - destruct (String.eqb c name) eqn:Hc; simpl; by rewrite Hc.
Qed.

Lemma int_col_set_ne name name' values cols :
  name ≠ name' →
  Heap.int_col name (Heap.set_int_col name' values cols) =
    Heap.int_col name cols.
Proof.
  intros Hne.
  assert (String.eqb name' name = false) as Hf
    by (apply String.eqb_neq; congruence).
  induction cols as [|[c v] cols IH]; simpl.
  - by rewrite Hf.
  - destruct (String.eqb c name') eqn:Hc; simpl.
    + apply String.eqb_eq in Hc as ->. by rewrite Hf.
    + by rewrite IH.
Qed.

(** The player-1 and player-2 frames as they are after lines 39 and 59. *)
Lemma df_p1_object f :
  Heap.on_events (map (λ r, (fst r, Heap.set_is_p1 true (snd r))))
    (Heap.on_events Heap.index_events (Heap.select_p1 (Heap.MatchFrame f))) =
  Heap.PlayerFrame (imap (λ i m, (i, p1_event i m)) (rows f)) [].
Proof.
  unfold Heap.select_p1, Heap.on_events, Heap.index_events. f_equal.
  apply list_eq. intros i.
  rewrite !list_lookup_fmap, !list_lookup_imap.
  cbn [Heap.frame_of]. by destruct (rows f !! i).
Qed.

Lemma df_p2_object f :
  Heap.on_events (map (λ r, (fst r, Heap.set_is_p1 false (snd r))))
    (Heap.select_p2
       (Heap.on_frame Heap.won_inverse_frame
          (Heap.on_frame Heap.index_frame
             (Heap.on_frame id (Heap.MatchFrame f))))) =
  Heap.PlayerFrame (imap (λ i m, (i, p2_event i m)) (rows f)) [].
Proof.
  unfold Heap.select_p2, Heap.on_events, Heap.on_frame.
  cbn [Heap.frame_of Heap.won_inverse_frame Heap.index_frame rows
       int_cols float_cols id].
  rewrite int_col_set_eq, int_col_set_ne, int_col_set_eq by done.
  f_equal. apply list_eq. intros i.
  rewrite !list_lookup_fmap, !list_lookup_imap, !list_lookup_fmap.
  destruct (rows f !! i) as [m|] eqn:Hi; [|done]. simpl.
  rewrite lookup_seq_lt by (by eapply lookup_lt_Some). simpl.
  unfold p2_event, Heap.set_is_p1. simpl. by rewrite Nat2Z.id.
Qed.

Lemma concat_object f :
  Heap.concat_objs
    (Heap.PlayerFrame (imap (λ i m, (i, p1_event i m)) (rows f)) [])
    (Heap.PlayerFrame (imap (λ i m, (i, p2_event i m)) (rows f)) []) =
  Heap.PlayerFrame (concat (rows f)) [].
Proof.
  unfold Heap.concat_objs, concat. f_equal.
  apply list_eq. intros j.
  rewrite !list_lookup_imap.
  destruct (decide (j < length (rows f))%nat) as [Hj|Hj].
  - rewrite !lookup_app_l by (by rewrite length_imap).
    rewrite !list_lookup_imap. by destruct (rows f !! j).
  - rewrite !lookup_app_r by (rewrite length_imap; lia).
    rewrite !length_imap, !list_lookup_imap.
    by destruct (rows f !! (j - length (rows f))%nat).
Qed.

Lemma on_events_player g events cols :
  Heap.on_events g (Heap.PlayerFrame events cols) =
    Heap.PlayerFrame (g events) cols.
Proof. done. Qed.

Lemma on_cols_player g events cols :
  Heap.on_cols g (Heap.PlayerFrame events cols) =
    Heap.PlayerFrame events (g events cols).
Proof. done. Qed.

Lemma set_rolling_player stem metric w events cols :
  Heap.set_rolling stem metric w (Heap.PlayerFrame events cols) =
    Heap.PlayerFrame events
      (set_col (fname stem w) (raw_column w metric events) cols).
Proof. done. Qed.

Lemma join_role_player role f events cols :
  Heap.join_role role (Heap.MatchFrame f) (Heap.PlayerFrame events cols) =
    Heap.MatchFrame
      (mkFrame (rows f)
         (float_cols f ++ role_features role events (length (rows f)) cols)
         (int_cols f)).
Proof. done. Qed.

(** [compute_rolling_features] on the store: nothing that was there is
    touched, the result is a new object, and it holds the frame the
    function on values gives. *)
Lemma heap_compute_rolling_features h df f :
  h !! df = Some (Heap.MatchFrame f) →
  Heap.wp (Heap.compute_rolling_features df) h
    (λ res h',
       Heap.preserved h h' ∧ h !! res = None
       ∧ h' !! res = Some (Heap.MatchFrame (compute_rolling_features f))).
Proof.
  intros Hdf. unfold Heap.compute_rolling_features.
  unfold RECENT_FORM_WINDOWS. cbn [Heap.for_each].
  repeat heap_step.
  split_and!.
  - repeat (apply preserved_insert; [assumption|]).
    apply preserved_refl.
  - assumption.
  - rewrite lookup_insert_eq. f_equal.
    rewrite df_p1_object, df_p2_object, concat_object.
    rewrite on_events_player, !set_rolling_player, !on_cols_player.
    rewrite !join_role_player. cbn [rows float_cols int_cols].
    rewrite <- app_assoc. reflexivity.
Qed.
End heap_programs.

(** ** The surface history as a tally of the rows processed *)

Section surface_count_facts.
Implicit Types (p surface : string) (pre df : list Match) (m : Match).

Lemma surface_matches_nonneg p surface pre : 0 ≤ surface_matches p surface pre.
Proof. unfold surface_matches. lia. Qed.

Lemma surface_matches_snoc p surface pre m :
  surface_matches p surface (pre ++ [m]) =
    surface_matches p surface pre
    + (if decide (row_surface m = surface ∧ p1_name m = p) then 1 else 0)
    + (if decide (row_surface m = surface ∧ p2_name m = p) then 1 else 0).
Proof.
  unfold surface_matches. rewrite !filter_app, !length_app.
  rewrite !filter_cons, !filter_nil.
  repeat case_decide; simpl; lia.
Qed.

Lemma surface_wins_snoc p surface pre m :
  surface_wins p surface (pre ++ [m]) =
    surface_wins p surface pre
    + (if decide (row_surface m = surface ∧ p1_name m = p
                  ∧ row_p1_won m = true) then 1 else 0)
    + (if decide (row_surface m = surface ∧ p2_name m = p
                  ∧ row_p1_won m = false) then 1 else 0).
Proof.
  unfold surface_wins. rewrite !filter_app, !length_app.
  rewrite !filter_cons, !filter_nil.
  repeat case_decide; simpl; lia.
Qed.

(** What one update does to the entry read for any player and surface. *)
Lemma entry_update h player surface won p s :
  Surface.entry (Surface.update_surface_history h player surface won) p s =
    if decide (p = player ∧ s = surface)
    then let '(wins, total) := default (0, 0) (Surface.entry h p s) in
         Some (if won then wins + 1 else wins, total + 1)
    else Surface.entry h p s.
Proof.
  case_decide as Hd.
  - destruct Hd as [-> ->]. apply entry_update_same.
  - apply entry_update_other. intros [= -> ->]. by apply Hd.
Qed.

Lemma length_filter_impl {A} (P Q : A → Prop) `{∀ x, Decision (P x)}
    `{∀ x, Decision (Q x)} (l : list A) :
  (∀ x, P x → Q x) → (length (filter P l) ≤ length (filter Q l))%nat.
Proof.
  intros HPQ. induction l as [|x l IH]; [done|].
  rewrite !filter_cons. destruct (decide (P x)) as [HP|HP].
  - rewrite decide_True by auto. simpl. lia.
  - destruct (decide (Q x)); simpl; lia.
Qed.

Lemma surface_wins_bounds p surface pre :
  0 ≤ surface_wins p surface pre ≤ surface_matches p surface pre.
Proof.
  unfold surface_wins, surface_matches. split; [lia|].
  apply Z.add_le_mono; apply inj_le, length_filter_impl; tauto.
Qed.

Lemma surface_history_run pre p surface :
  Surface.entry (surface_history (run_loop pre)) p surface =
    counted_entry p surface pre.
Proof.
  induction pre as [|m pre IH] using rev_ind.
  { done. }
  rewrite run_loop_snoc. unfold loop_body. cbn [surface_history].
  rewrite !entry_update, IH. unfold counted_entry.
  rewrite surface_matches_snoc, surface_wins_snoc.
  unfold row_p1_won.
  pose proof (surface_wins_bounds p surface pre) as Hw.
  destruct (decide (surface = row_surface m)) as [Hs|Hs];
  destruct (decide (p = p1_name m)) as [H1|H1];
  destruct (decide (p = p2_name m)) as [H2|H2];
  destruct (target m =? 1) eqn:Ht;
  repeat case_decide;
  try (exfalso; destruct_and?;
       first [ congruence
             | match goal with
               | H : ¬ _ |- _ => solve [apply H; repeat split; congruence]
               end ]);
  cbn [default];
  repeat match goal with
         | |- context [?x =? 0] => destruct (Z.eqb_spec x 0)
         end; simpl; try lia; try done;
  try (f_equal; f_equal; lia).
Qed.
End surface_count_facts.

(** ** The head-to-head history as a tally *)

Section h2h_count_facts.
Implicit Types (a b : string) (pre df : list Match) (m : Match).

Lemma prior_wins_meetings a b pre :
  a ≠ b → prior_wins a b pre + prior_wins b a pre = meetings a b pre.
Proof.
  intros Hab. unfold prior_wins, meetings.
  induction pre as [|m pre IH]; [done|].
  rewrite !filter_cons. rewrite (between_sym b a m).
  destruct (between a b m) eqn:Hbt.
  - destruct (between_winner a b m Hbt) as [Hw|Hw]; rewrite Hw.
    + rewrite decide_True by done. rewrite decide_False by (intros [_ ?]; done).
      rewrite decide_True by done. simpl length. lia.
    + rewrite decide_False by (intros [_ ?]; done).
      rewrite decide_True by done. rewrite decide_True by done.
      simpl length. lia.
  - rewrite !decide_False by (intros [? _]; done).
    rewrite decide_False by done. exact IH.
Qed.

(** Keys are stored in sorted order. *)
Lemma sorted_pair_ordered (p1 p2 : string) :
  String.ltb (snd (H2H.sorted_pair p1 p2)) (fst (H2H.sorted_pair p1 p2))
  = false.
Proof.
  unfold H2H.sorted_pair. destruct (String.ltb p2 p1) eqn:Hlt; simpl.
  - by apply ltb_asym.
  - done.
Qed.

Lemma record_lookup (h : H2H.history) (p1 p2 : string) won key :
  is_Some (H2H.record h p1 p2 won !! key) →
  key = H2H.sorted_pair p1 p2 ∨ is_Some (h !! key).
Proof.
  unfold H2H.record.
  destruct (decide (key = H2H.sorted_pair p1 p2)) as [->|Hne]; [by left|].
  rewrite lookup_insert_ne by done.
  destruct (h !! H2H.sorted_pair p1 p2); [by right|].
  rewrite lookup_insert_ne by done. by right.
Qed.

Lemma h2h_keys_ordered pre key :
  is_Some (h2h_history (run_loop pre) !! key) →
  String.ltb (snd key) (fst key) = false.
Proof.
  induction pre as [|m pre IH] using rev_ind.
  { intros [? Hk]. done. }
  rewrite run_loop_snoc. unfold loop_body. cbn [h2h_history].
  intros [->|Hk]%record_lookup; [apply sorted_pair_ordered|auto].
Qed.

Lemma h2h_diff_antisym (h : H2H.history) a b :
  a ≠ b → H2H.diff h a b = - H2H.diff h b a.
Proof.
  intros Hab. unfold H2H.diff. rewrite (sorted_pair_comm b a).
  destruct (h !! H2H.sorted_pair a b) as [[wa wb]|]; [|done].
  destruct (sorted_pair_cases a b) as [Hp|Hp]; rewrite Hp; simpl.
  - rewrite String.eqb_refl.
    destruct (String.eqb_spec b a); [congruence|lia].
  - rewrite String.eqb_refl.
    destruct (String.eqb_spec a b); [congruence|lia].
Qed.
End h2h_count_facts.

(** ** Tallies do not depend on the processing order *)

Section order_count_facts.
Context `{Pandas}.
Implicit Types (a b p surface : string) (pre df : list Match) (m : Match).

Lemma length_filter_fmap {A B} (f : A → B) (P : B → Prop)
    `{∀ x, Decision (P x)} (l : list A) :
  length (filter P (f <$> l)) = length (filter (λ x, P (f x)) l).
Proof.
  induction l as [|x l IH]; [done|].
  rewrite fmap_cons, !filter_cons. destruct (decide (P (f x))); simpl; lia.
Qed.

Lemma length_filter_ext {A} (P Q : A → Prop) `{∀ x, Decision (P x)}
    `{∀ x, Decision (Q x)} (l : list A) :
  (∀ x, P x ↔ Q x) → length (filter P l) = length (filter Q l).
Proof.
  intros HPQ. apply Nat.le_antisymm; apply length_filter_impl; intros x;
    apply HPQ.
Qed.

(** Counting rows by a property that does not look at the date gives the
    same number on the frame and on the rows in processing order. *)
Lemma count_processing_order (P : Match → Prop) `{∀ x, Decision (P x)} df :
  (∀ d m, P (set_date d m) ↔ P m) →
  length (filter P (processing_order df)) = length (filter P df).
Proof.
  intros HP. unfold processing_order.
  rewrite (sort_values_permutation _), length_filter_fmap.
  apply length_filter_ext. intros m. apply HP.
Qed.

Lemma surface_matches_processing_order p surface df :
  surface_matches p surface (processing_order df) =
    surface_matches p surface df.
Proof.
  unfold surface_matches. by rewrite !count_processing_order.
Qed.

Lemma surface_wins_processing_order p surface df :
  surface_wins p surface (processing_order df) = surface_wins p surface df.
Proof.
  unfold surface_wins. by rewrite !count_processing_order.
Qed.

Lemma prior_wins_processing_order a b df :
  prior_wins a b (processing_order df) = prior_wins a b df.
Proof.
  unfold prior_wins. by rewrite !count_processing_order.
Qed.

Lemma meetings_processing_order a b df :
  meetings a b (processing_order df) = meetings a b df.
Proof.
  unfold meetings. by rewrite !count_processing_order.
Qed.
End order_count_facts.

(** ** Means stay within the range of their cells *)

Section mean_facts.
Implicit Types (lo hi : Q) (xs : list Q) (cells : list (option Q)).

Lemma Qsum_bounds lo hi xs :
  Forall (λ q, (lo <= q)%Q ∧ (q <= hi)%Q) xs →
  (lo * inject_Z (Z.of_nat (length xs)) <= Qsum xs)%Q
  ∧ (Qsum xs <= hi * inject_Z (Z.of_nat (length xs)))%Q.
Proof.
  induction 1 as [|q xs [Hlo Hhi] _ [IHlo IHhi]].
  { change (inject_Z (Z.of_nat (length (@nil Q)))) with 0%Q.
    change (Qsum []) with 0%Q. split; lra. }
  cbn [length Qsum foldr]. fold (Qsum xs).
  rewrite Nat2Z.inj_succ. unfold Z.succ. rewrite inject_Z_plus.
  change (inject_Z 1) with 1%Q. split; lra.
Qed.

Lemma mean_in_range lo hi xs :
  xs ≠ [] → Forall (λ q, (lo <= q)%Q ∧ (q <= hi)%Q) xs →
  (lo <= Qsum xs / inject_Z (Z.of_nat (length xs)))%Q
  ∧ (Qsum xs / inject_Z (Z.of_nat (length xs)) <= hi)%Q.
Proof.
  intros Hne Hall. destruct (Qsum_bounds lo hi xs Hall) as [Hlo Hhi].
  assert (0 < inject_Z (Z.of_nat (length xs)))%Q as Hpos.
  { rewrite <- (Zlt_Qlt 0). destruct xs; [done|simpl; lia]. }
  split.
  - by apply Qle_shift_div_l.
  - apply Qle_shift_div_r; [done|lra].
Qed.

Lemma omap_id_in_range lo hi cells :
  Forall (in_range lo hi) cells →
  Forall (λ q, (lo <= q)%Q ∧ (q <= hi)%Q) (omap id cells).
Proof.
  induction 1 as [|[q|] cells Hq _ IH]; simpl; [done| |done].
  by constructor.
Qed.

Lemma series_mean_in_range lo hi cells :
  Forall (in_range lo hi) cells → in_range lo hi (series_mean cells).
Proof.
  intros Hall%omap_id_in_range. unfold series_mean.
  destruct (omap id cells) as [|q obs] eqn:Hobs; [done|].
  by apply mean_in_range.
Qed.

Lemma window_mean_in_range lo hi mp cells :
  Forall (in_range lo hi) cells →
  in_range lo hi (Rolling.window_mean mp cells).
Proof.
  intros Hall%omap_id_in_range. unfold Rolling.window_mean. cbv zeta.
  destruct (_ && _) eqn:Hc; [|done].
  apply andb_true_iff in Hc as [_ Hc%Nat.leb_le].
  apply mean_in_range; [|done]. intros Hnil. rewrite Hnil in Hc. simpl in Hc. lia.
Qed.
End mean_facts.

(** ** Ranges of the rolling columns *)

Section range_facts.
Import Rolling.
Implicit Types (lo hi : Q) (cells : list (option Q))
  (pdf group : list (nat * Event)) (series : list (nat * option Q)).

Lemma shift1_in_range lo hi cells :
  Forall (in_range lo hi) cells → Forall (in_range lo hi) (shift1 cells).
Proof.
  intros Hall. unfold shift1. destruct cells as [|c cells]; [done|].
  constructor; [done|].
  apply Forall_forall. intros x Hx. rewrite Forall_forall in Hall.
  apply Hall. revert Hx. generalize (c :: cells). intros l.
  induction l as [|y [|z l] IH]; simpl; [by intros ?%elem_of_nil..|].
  intros [->|Hx]%elem_of_cons; [left|right; auto].
Qed.

Lemma rolling_mean_in_range lo hi w mp cells :
  Forall (in_range lo hi) cells →
  Forall (in_range lo hi) (rolling_mean w mp cells).
Proof.
  intros Hall. apply Forall_forall. intros x Hx.
  apply list_elem_of_lookup in Hx as [j Hj].
  assert (j < length cells)%nat as Hlt.
  { apply lookup_lt_Some in Hj. by rewrite length_rolling_mean in Hj. }
  rewrite rolling_mean_lookup in Hj by done. injection Hj as <-.
  apply window_mean_in_range. unfold window_at.
  by apply Forall_drop, Forall_take.
Qed.

Lemma apply_group_in_range lo hi w (metric : Event → Z) group :
  Forall (λ r, (lo <= inject_Z (metric (snd r)))%Q
               ∧ (inject_Z (metric (snd r)) <= hi)%Q) group →
  Forall (λ lv, in_range lo hi (snd lv)) (apply_group w metric group).
Proof.
  intros Hall. unfold apply_group.
  apply Forall_forall. intros [l v] Hin. cbn [snd].
  apply elem_of_zip_r in Hin. revert v Hin. apply Forall_forall.
  apply rolling_mean_in_range, shift1_in_range.
  apply Forall_fmap. eapply Forall_impl; [exact Hall|]. by intros r Hr.
Qed.

Lemma rolling_stats_in_range lo hi w (metric : Event → Z) pdf :
  Forall (λ r, (lo <= inject_Z (metric (snd r)))%Q
               ∧ (inject_Z (metric (snd r)) <= hi)%Q) pdf →
  Forall (λ lv, in_range lo hi (snd lv)) (rolling_stats w metric pdf).
Proof.
  intros Hall. unfold rolling_stats.
  apply Forall_flat_map, Forall_forall. intros p _.
  apply apply_group_in_range. unfold get_group.
  apply Forall_forall. intros r [_ Hr]%list_elem_of_filter.
  rewrite Forall_forall in Hall. by apply Hall.
Qed.

Lemma series_at_in_range lo hi series label :
  Forall (λ lv, in_range lo hi (snd lv)) series →
  in_range lo hi (series_at series label).
Proof.
  induction 1 as [|[l v] series Hv _ IH]; simpl; [done|].
  by destruct (decide (l = label)).
Qed.

Lemma raw_column_in_range lo hi w (metric : Event → Z) pdf :
  Forall (λ r, (lo <= inject_Z (metric (snd r)))%Q
               ∧ (inject_Z (metric (snd r)) <= hi)%Q) pdf →
  Forall (in_range lo hi) (raw_column w metric pdf).
Proof.
  intros Hall. unfold raw_column, aligned. apply Forall_fmap, Forall_forall.
  intros r _. by apply series_at_in_range, rolling_stats_in_range.
Qed.

(** The events of the sorted player frame are the events of the frame. *)
Lemma player_df_events (P : Event → Prop) (df : list Match) :
  (∀ e, e ∈ map snd (concat df) → P e) →
  Forall (λ r, P (snd r)) (player_df df).
Proof.
  intros HP. apply Forall_forall. intros r Hr. apply HP.
  apply list_elem_of_fmap. exists r. split; [done|].
  by rewrite <- (player_df_perm df).
Qed.

(** A rolling cell of the joined table lies in the range of the metric,
    the value written by the fill included when it lies there. *)
Lemma rolling_cell_in_range (fr : Frame) role w stem metric i (lo hi : Z) :
  no_rolling_columns fr →
  w ∈ RECENT_FORM_WINDOWS → (stem, metric) ∈ rolling_metrics →
  (i < length (rows fr))%nat →
  (∀ e, e ∈ map snd (concat (rows fr)) → lo ≤ metric e ≤ hi) →
  (contains "win_rate" stem = true →
   (inject_Z lo <= DEFAULT_WIN_PCT)%Q ∧ (DEFAULT_WIN_PCT <= inject_Z hi)%Q) →
  ∃ cell,
    float_cell (compute_rolling_features fr) (feature_name role stem w) i =
      Some cell
    ∧ in_range (inject_Z lo) (inject_Z hi) cell
    ∧ (contains "win_rate" stem = true → is_Some cell).
Proof.
  intros Hfresh Hw Hsm Hi Hbounds Hhalf.
  destruct (lookup_lt_is_Some_2 _ _ Hi) as [m Hm].
  assert (∀ c, c ∈ map fst (float_cols fr) → contains "recent_" c = false)
    as Hfloat.
  { intros c Hc. apply Hfresh, elem_of_app. by left. }
  pose proof (rolling_cell fr role w stem metric i m Hw Hsm Hm Hfloat) as Hcell.
  eexists. split; [exact Hcell|].
  assert (Forall (λ r, (inject_Z lo <= inject_Z (metric (snd r)))%Q
                       ∧ (inject_Z (metric (snd r)) <= inject_Z hi)%Q)
                 (player_df (rows fr))) as Hall.
  { apply (player_df_events
             (λ e, (inject_Z lo <= inject_Z (metric e))%Q
                   ∧ (inject_Z (metric e) <= inject_Z hi)%Q)).
    intros e He. rewrite <- !Zle_Qle. by apply Hbounds. }
  pose proof (series_at_in_range _ _ _
                (fst (event_row role (length (rows fr)) i m))
                (rolling_stats_in_range _ _ w metric _ Hall)) as Hraw.
  pose proof (series_mean_in_range _ _ _
                (raw_column_in_range _ _ w metric _ Hall)) as Hmean.
  unfold fill_cell.
  destruct (series_at _ _) as [x|]; [split; [done|by eexists]|].
  destruct (contains "win_rate" stem) eqn:Hst.
  - split; [by apply Hhalf|by eexists].
  - split; [done|by intros ?].
Qed.
End range_facts.

(** ** Rolling cells by position in the group of a player *)

Section position_facts.
Import Rolling.
Implicit Types (pdf group : list (nat * Event)) (df : list Match).

(** The raw rolling cell of a row is the trailing mean over the rows in
    front of it in its group. *)
Lemma raw_cell_position w metric pdf r j :
  NoDup (map fst pdf) →
  get_group (player (snd r)) pdf !! j = Some r →
  series_at (rolling_stats w metric pdf) (fst r) =
    trailing_mean w
      (take j (map (λ r', metric (snd r')) (get_group (player (snd r)) pdf))).
Proof.
  intros Hnd Hj. rewrite (rolling_stats_at w metric pdf r j Hnd Hj).
  assert (j < length (get_group (player (snd r)) pdf))%nat as Hlt
    by (by eapply lookup_lt_Some).
  rewrite rolling_mean_lookup by (by rewrite length_shift1, length_map).
  change (mjoin (Some ?x)) with x.
  rewrite <- (map_map (λ r', metric (snd r')) (λ x, Some (inject_Z x))).
  by rewrite window_shift by (by rewrite length_map).
Qed.

Lemma trailing_mean_None w (xs : list Z) :
  (1 ≤ w)%nat → trailing_mean w xs = None → xs = [].
Proof.
  intros Hw Hn. destruct xs as [|x xs]; [done|].
  destruct (trailing_mean_is_Some w (x :: xs) Hw) as [q Hq]; [done|].
  congruence.
Qed.

(** Every row of the frame has a position in the group of its player. *)
Lemma group_position pdf r :
  r ∈ pdf → ∃ j, get_group (player (snd r)) pdf !! j = Some r.
Proof.
  intros Hr. apply list_elem_of_lookup. unfold get_group.
  by apply list_elem_of_filter.
Qed.

Lemma length_get_group (p : string) df :
  length (get_group p (player_df df)) = length (player_history p df).
Proof.
  unfold player_history. rewrite length_map.
  rewrite <- (length_map snd (player_rows p 0 df)).
  rewrite <- (player_rows_snd_ext p (length df) 0), length_map.
  apply Permutation_length. unfold get_group.
  rewrite (player_df_perm df). apply get_group_concat.
Qed.

Lemma windows_positive w : w ∈ RECENT_FORM_WINDOWS → (1 ≤ w)%nat.
Proof.
  unfold RECENT_FORM_WINDOWS. rewrite !elem_of_cons, elem_of_nil.
  intros [->|[->|[]]]; lia.
Qed.

Lemma event_row_in_player_df role df i m :
  df !! i = Some m → event_row role (length df) i m ∈ player_df df.
Proof.
  intros Hi. destruct (find_event role df i m Hi) as [j Hf].
  apply list_find_Some in Hf as (Hj & _ & _).
  by eapply list_elem_of_lookup_2.
Qed.

(** With at most one event per player no raw rolling cell has a value. *)
Lemma raw_cells_single w metric df r :
  (∀ p, (length (player_history p df) ≤ 1)%nat) →
  r ∈ player_df df →
  series_at (rolling_stats w metric (player_df df)) (fst r) = None.
Proof.
  intros Hone Hr. destruct (group_position _ _ Hr) as [j Hj].
  rewrite (raw_cell_position w metric _ r j (player_df_labels_NoDup df) Hj).
  assert (j = 0)%nat as ->.
  { apply lookup_lt_Some in Hj. rewrite length_get_group in Hj.
    specialize (Hone (player (snd r))). lia. }
  rewrite take_0. apply trailing_mean_nil.
Qed.

Lemma raw_column_single w metric df :
  (∀ p, (length (player_history p df) ≤ 1)%nat) →
  series_mean (raw_column w metric (player_df df)) = None.
Proof.
  intros Hone. unfold series_mean.
  assert (omap id (raw_column w metric (player_df df)) = []) as ->; [|done].
  unfold raw_column, aligned.
  assert (Forall (λ r, r ∈ player_df df) (player_df df)) as Hall
    by (by apply Forall_forall).
  revert Hall. generalize (player_df df) at 2 4. intros l Hall.
  induction Hall as [|r l Hr _ IH]; [done|].
  rewrite fmap_cons. cbn [omap list_omap id].
  by rewrite (raw_cells_single w metric df r Hone Hr).
Qed.

(** With two events of some player, the rolling column has a value to
    take the mean of. *)
Lemma raw_column_mean w metric df (p : string) :
  (1 ≤ w)%nat → (2 ≤ length (player_history p df))%nat →
  is_Some (series_mean (raw_column w metric (player_df df))).
Proof.
  intros Hw Htwo. rewrite <- length_get_group in Htwo.
  destruct (lookup_lt_is_Some_2 (get_group p (player_df df)) 1) as [r Hr];
    [lia|].
  assert (player (snd r) = p) as Hp.
  { apply list_elem_of_lookup_2 in Hr.
    by apply list_elem_of_filter in Hr as [? _]. }
  assert (r ∈ player_df df) as Hin.
  { apply list_elem_of_lookup_2 in Hr.
    by apply list_elem_of_filter in Hr as [_ ?]. }
  rewrite <- Hp in Hr.
  pose proof (raw_cell_position w metric _ r 1 (player_df_labels_NoDup df) Hr)
    as Hcell.
  destruct (trailing_mean_is_Some w
              (take 1 (map (λ r', metric (snd r'))
                           (get_group (player (snd r)) (player_df df)))) Hw)
    as [q Hq].
  { apply lookup_lt_Some in Hr.
    destruct (get_group (player (snd r)) (player_df df)); [simpl in Hr; lia|].
    done. }
  rewrite Hq in Hcell.
  assert (Some q ∈ raw_column w metric (player_df df)) as Hsome.
  { unfold raw_column, aligned. apply list_elem_of_fmap.
    exists r. by rewrite Hcell. }
  unfold series_mean.
  destruct (omap id (raw_column w metric (player_df df))) as [|x obs] eqn:Ho;
    [|by eexists].
  assert (q ∈ omap id (raw_column w metric (player_df df))) as Hq'.
  { apply list_elem_of_omap. by exists (Some q). }
  rewrite Ho in Hq'. by apply elem_of_nil in Hq'.
Qed.
End position_facts.

(** ** Names and lengths of the joined columns *)

Section shape_facts.
Import Rolling.

Lemma length_join_col role pdf n v : length (join_col role pdf n v) = n.
Proof. unfold join_col. by rewrite length_map, length_seq. Qed.

Lemma get_col_Forall (P : list (option Q) → Prop) (cols : columns) name :
  Forall (λ c, P (snd c)) cols → name ∈ map fst cols →
  ∃ v, get_col name cols = Some v ∧ P v.
Proof.
  induction 1 as [|[c v] cols Hv _ IH]; simpl.
  { by intros ?%elem_of_nil. }
  intros Hin. destruct (String.eqb_spec c name) as [->|Hne].
  { by exists v. }
  apply elem_of_cons in Hin as [?|?]; [congruence|auto].
Qed.

Lemma joined_columns_shape (df : list Match) :
  let joined :=
    role_features true (player_df df) (length df) (filled_columns df)
    ++ role_features false (player_df df) (length df) (filled_columns df) in
  map fst joined = rolling_feature_names
  ∧ Forall (λ c, length (snd c) = length df) joined.
Proof.
  pose proof (joined_columns_explicit df) as Hj. cbv zeta in Hj.
  cbv zeta. rewrite Hj. clear Hj. split.
  - reflexivity.
  - repeat constructor; apply length_join_col.
Qed.
End shape_facts.

(** ** Bounds on parsed scores, and scores put together *)

Section score_bound_facts.
Import Score.
Implicit Types (s tok : string) (st : totals) (c : ascii).

Lemma chars_rev_app s acc c :
  c ∈ chars (String.rev_app s acc) ↔ c ∈ chars s ∨ c ∈ chars acc.
Proof.
  revert acc. induction s as [|d s IH]; intros acc; simpl.
  - rewrite elem_of_nil. tauto.
  - rewrite IH. simpl. rewrite !elem_of_cons. tauto.
Qed.

Lemma chars_lstrip s c : c ∈ chars (lstrip s) → c ∈ chars s.
Proof.
  induction s as [|d s IH]; simpl; [done|].
  destruct (isspace d); [|done]. intros ?%IH. by right.
Qed.

Lemma chars_strip s c : c ∈ chars (strip s) → c ∈ chars s.
Proof.
  unfold strip, String.rev. rewrite chars_rev_app.
  intros [Hc%chars_lstrip|Hc]; [|by apply elem_of_nil in Hc].
  apply chars_rev_app in Hc as [Hc%chars_lstrip|Hc]; [done|].
  by apply elem_of_nil in Hc.
Qed.

Lemma split_by_nonempty (is_sep : ascii → bool) s : split_by is_sep s ≠ [].
Proof.
  destruct s as [|c s]; simpl; [done|].
  destruct (is_sep c); [done|]. by destruct (split_by is_sep s).
Qed.

(** No piece of a split holds a separator. *)
Lemma split_by_pieces (is_sep : ascii → bool) s piece c :
  piece ∈ split_by is_sep s → c ∈ chars piece → is_sep c = false.
Proof.
  revert piece. induction s as [|d s IH]; intros piece; simpl.
  - intros ->%list_elem_of_singleton. by intros ?%elem_of_nil.
  - destruct (is_sep d) eqn:Hd.
    + intros [->|Hp]%elem_of_cons; [by intros ?%elem_of_nil|by apply IH].
    + destruct (split_by is_sep s) as [|first others] eqn:Hs.
      { intros ->%list_elem_of_singleton. simpl.
        rewrite elem_of_cons, elem_of_nil. by intros [->|[]]. }
      intros [->|Hp]%elem_of_cons.
      * simpl. intros [->|Hc]%elem_of_cons; [done|].
        apply (IH first); [left|done].
      * apply IH. by right.
Qed.

Lemma digit_value_nonneg c d : digit_value c = Some d → 0 ≤ d.
Proof.
  unfold digit_value. cbv zeta. destruct (_ && _) eqn:Hc; [|done].
  intros [= <-]. apply andb_true_iff in Hc as [Hc%N.leb_le _]. lia.
Qed.

Lemma digits_nonneg acc count after s n count' :
  0 ≤ acc → digits acc count after s = Some (n, count') → 0 ≤ n.
Proof.
  revert acc count after. induction s as [|c s IH]; intros acc count after Hacc;
    simpl.
  - destruct after; [|done]. by intros [= <- _].
  - destruct (Ascii.eqb c "_").
    + destruct after; [|done]. by apply IH.
    + destruct (digit_value c) as [d|] eqn:Hd; [|done].
      apply digit_value_nonneg in Hd. apply IH. lia.
Qed.

(** [int] gives no negative number on a string without a minus sign. *)
Lemma int_nonneg s z :
  "-"%char ∉ chars s → int s = Returns z → 0 ≤ z.
Proof.
  intros Hminus. unfold int.
  assert (match strip s with
          | String "+" rest => (1, rest)
          | String "-" rest => (-1, rest)
          | _ => (1, strip s)
          end = (1, match strip s with
                    | String "+" rest => rest
                    | _ => strip s
                    end)) as ->.
  { destruct (strip s) as [|c rest] eqn:Hs; [done|].
    destruct (ascii_dec c "-") as [->|Hne].
    - exfalso. apply Hminus, chars_strip. rewrite Hs. left.
    - destruct c as [[] [] [] [] [] [] [] []]; try done. }
  destruct (digits 0 0 false _) as [[n count]|] eqn:Hd; [|done].
  destruct (count <=? max_str_digits)%nat; [|done].
  intros [= <-]. apply digits_nonneg in Hd; lia.
Qed.

Lemma contribution_bounds tok :
  let '(w_games, l_games, w_sets, l_sets) := contribution tok in
  0 ≤ w_games ∧ 0 ≤ l_games ∧ 0 ≤ w_sets ∧ 0 ≤ l_sets ∧ w_sets + l_sets ≤ 1.
Proof.
  unfold contribution, parse_set.
  destruct (has_marker tok); [simpl; lia|].
  destruct (if contains "(" tok then first_item (split_on "(" tok)
            else Returns tok) as [games|e]; [|simpl; lia].
  cbn [bind].
  destruct (split_on "-" games) as [|p0 [|p1 [|p2 l]]] eqn:Hsplit;
    try (simpl; lia).
  assert (∀ part, part ∈ [p0; p1] → "-"%char ∉ chars part) as Hparts.
  { intros part Hin Hc. rewrite <- Hsplit in Hin.
    pose proof (split_by_pieces _ _ _ _ Hin Hc) as Hsep. done. }
  destruct (int_outcome p0) as [[x Hx] | Hx]; rewrite Hx; [|simpl; lia].
  destruct (int_outcome p1) as [[y Hy] | Hy]; rewrite Hy; [|simpl; lia].
  apply int_nonneg in Hx; [|apply Hparts; left].
  apply int_nonneg in Hy; [|apply Hparts; right; left].
  simpl. destruct (y <? x); simpl; [lia|].
  destruct (x <? y); simpl; lia.
Qed.

Lemma add_totals_assoc (x y z : totals) :
  add_totals (add_totals x y) z = add_totals x (add_totals y z).
Proof.
  destruct x as [[[??]?]?], y as [[[??]?]?], z as [[[??]?]?]. simpl.
  by rewrite !Z.add_assoc.
Qed.

Lemma add_totals_zero (x : totals) : add_totals (0, 0, 0, 0) x = x.
Proof. by destruct x as [[[??]?]?]. Qed.

Lemma foldl_add_totals st (l : list totals) :
  foldl add_totals st l = add_totals st (foldl add_totals (0, 0, 0, 0) l).
Proof.
  revert st. induction l as [|x l IH]; intros st; cbn [foldl].
  - destruct st as [[[??]?]?]. simpl. by rewrite !Z.add_0_r.
  - rewrite IH, (IH (add_totals _ x)), add_totals_zero.
    apply add_totals_assoc.
Qed.

Lemma parse_match_score_sum s :
  parse_match_score (PyStr s) =
    Returns (foldl add_totals (0, 0, 0, 0) (map contribution (split s))).
Proof.
  unfold parse_match_score.
  destruct (String.eqb_spec (strip s) EmptyString) as [He|_].
  - by rewrite (split_all_space s (strip_empty s He)).
  - apply for_each_sum.
Qed.

Lemma totals_bounds (toks : list string) :
  let '(w_games, l_games, w_sets, l_sets) :=
    foldl add_totals (0, 0, 0, 0) (map contribution toks) in
  0 ≤ w_games ∧ 0 ≤ l_games ∧ 0 ≤ w_sets ∧ 0 ≤ l_sets
  ∧ w_sets + l_sets ≤ Z.of_nat (length toks).
Proof.
  induction toks as [|tok toks IH]; [simpl; lia|].
  cbn [map foldl]. rewrite foldl_add_totals, add_totals_zero.
  pose proof (contribution_bounds tok) as Hc.
  destruct (contribution tok) as [[[a b] c] d].
  destruct (foldl add_totals (0, 0, 0, 0) (map contribution toks))
    as [[[a' b'] c'] d'].
  cbn [add_totals length]. lia.
Qed.

Lemma split_by_app (is_sep : ascii → bool) (a b : string) c :
  is_sep c = true →
  split_by is_sep (a +:+ String c b) = split_by is_sep a ++ split_by is_sep b.
Proof.
  intros Hc. induction a as [|d a IH].
  - change (EmptyString +:+ ?x) with x. simpl. by rewrite Hc.
  - change (String d a +:+ ?x) with (String d (a +:+ x)). simpl.
    destruct (is_sep d); [by rewrite IH|].
    rewrite IH. pose proof (split_by_nonempty is_sep a).
    by destruct (split_by is_sep a).
Qed.

Lemma split_app (a b : string) c :
  isspace c = true → split (a +:+ String c b) = split a ++ split b.
Proof.
  intros Hc. unfold split. by rewrite (split_by_app _ a b c Hc), filter_app.
Qed.
Lemma parse_match_score_nonneg (v : pyvalue) gw gl sw sl :
  parse_match_score v = Returns (gw, gl, sw, sl) →
  0 ≤ gw ∧ 0 ≤ gl ∧ 0 ≤ sw ∧ 0 ≤ sl.
Proof.
  destruct v as [s| | |]; [|by intros [= <- <- <- <-]..].
  rewrite parse_match_score_sum. pose proof (totals_bounds (split s)) as Hb.
  destruct (foldl add_totals (0, 0, 0, 0) (map contribution (split s)))
    as [[[a b] c] d].
  intros [= <- <- <- <-]. lia.
Qed.
End score_bound_facts.

(** ** [preprocess_data], row by row *)

Section median_facts.

Lemma length_insert_Q x l : length (insert_Q x l) = S (length l).
Proof.
  induction l as [|y l IH]; simpl; [done|].
  destruct (Qle_bool x y); simpl; by rewrite ?IH.
Qed.

Lemma length_sort_Q l : length (sort_Q l) = length l.
Proof.
  induction l as [|x l IH]; simpl; [done|].
  by rewrite length_insert_Q, IH.
Qed.

(** The median is NaN only for a column without a value. *)
Lemma median_None (xs : list (option Q)) :
  median xs = None → Forall (λ x, x = None) xs.
Proof.
  unfold median. cbv zeta. rewrite length_sort_Q.
  destruct (Nat.eqb_spec (length (omap id xs)) 0) as [Hz|Hnz].
  - intros _. apply Forall_forall. intros [q|] Hx; [|done].
    assert (q ∈ omap id xs) as Hq by (apply list_elem_of_omap; by exists (Some q)).
    destruct (omap id xs); [by apply elem_of_nil in Hq|done].
  - set (n := length (omap id xs)) in *.
    assert (∀ j, (j < n)%nat → is_Some (sort_Q (omap id xs) !! j)) as Hj.
    { intros j Hlt. apply lookup_lt_is_Some_2. by rewrite length_sort_Q. }
    destruct (Nat.odd n) eqn:Hodd.
    + destruct (Hj (n / 2)%nat) as [q Hq].
      { apply Nat.div_lt; lia. }
      by rewrite Hq.
    + assert (2 ≤ n)%nat as Hn2.
      { destruct n as [|[|n']]; [done|done|lia]. }
      destruct (Hj (n / 2 - 1)%nat) as [a Ha].
      { pose proof (Nat.div_lt n 2). lia. }
      destruct (Hj (n / 2)%nat) as [b Hb].
      { apply Nat.div_lt; lia. }
      rewrite Ha, Hb. done.
Qed.
End median_facts.

Section preprocess_facts.
Context `{Numpy}.
Import Score.
Implicit Types (df : list RawMatch) (raw : RawMatch).

Lemma parse_match_score_returns (v : pyvalue) :
  ∃ t, parse_match_score v = Returns t.
Proof.
  destruct v as [s| | |]; [|by eexists..].
  rewrite parse_match_score_sum. by eexists.
Qed.

Lemma parse_scores_returns (scores : list pyvalue) :
  ∃ gws gls sws sls,
    parse_scores scores = Returns (gws, gls, sws, sls)
    ∧ ∀ i v, scores !! i = Some v →
        ∃ gw gl sw sl,
          parse_match_score v = Returns (gw, gl, sw, sl)
          ∧ gws !! i = Some gw ∧ gls !! i = Some gl
          ∧ sws !! i = Some sw ∧ sls !! i = Some sl.
Proof.
  induction scores as [|v scores IH].
  { exists (@nil Z), (@nil Z), (@nil Z), (@nil Z). split; [done|]. intros i v Hl.
    by rewrite lookup_nil in Hl. }
  destruct IH as (gws & gls & sws & sls & Hrest & Hcells).
  destruct (parse_match_score_returns v) as [[[[gw gl] sw] sl] Hv].
  exists (gw :: gws), (gl :: gls), (sw :: sws), (sl :: sls). split.
  - cbn [parse_scores]. rewrite Hv. cbn [bind]. rewrite Hrest. done.
  - intros [|i] v'; simpl.
    + intros [= <-]. by exists gw, gl, sw, sl.
    + apply Hcells.
Qed.

Lemma cell_at_np_where {A} (d : A) (cond : list bool) (xs ys : list A) i
    (c : bool) x y :
  cond !! i = Some c → xs !! i = Some x → ys !! i = Some y →
  cell_at d (np_where cond xs ys) i = if c then x else y.
Proof.
  intros Hc Hx Hy. unfold cell_at, np_where.
  rewrite lookup_zip_with, Hc. simpl.
  assert (zip xs ys !! i = Some (x, y)) as ->.
  { rewrite lookup_zip_with, Hx. simpl. by rewrite Hy. }
  done.
Qed.

Lemma fillna_lookup (value : option Q) (col : list (option Q)) i x :
  col !! i = Some x →
  fillna value col !! i =
    Some (match x with Some _ => x | None => value end).
Proof. intros Hx. unfold fillna. by rewrite list_lookup_fmap, Hx. Qed.

(** The row the function returns for a row of the raw frame. *)
Lemma preprocess_row df i raw :
  df !! i = Some raw →
  ∃ out (swap : bool) gw gl sw sl,
    preprocess_data df = Returns out
    ∧ length out = length df
    ∧ parse_match_score (fill_score (score raw)) = Returns (gw, gl, sw, sl)
    ∧ let rank r := Some (default (inject_Z DEFAULT_RANK) r) in
      let age (column : RawMatch → option Q) :=
        match column raw with
        | Some a => Some a
        | None => median (map column df)
        end in
      out !! i =
        Some (if swap
              then mkPrepared
                     (mkMatch (raw_tourney_date raw) (raw_surface raw)
                        (loser_name raw) (winner_name raw) 0
                        gl gw sl sw gw gl sw sl)
                     (tourney_level raw)
                     (rank (loser_rank raw)) (age loser_age)
                     (rank (winner_rank raw)) (age winner_age)
              else mkPrepared
                     (mkMatch (raw_tourney_date raw) (raw_surface raw)
                        (winner_name raw) (loser_name raw) 1
                        gw gl sw sl gl gw sl sw)
                     (tourney_level raw)
                     (rank (winner_rank raw)) (age winner_age)
                     (rank (loser_rank raw)) (age loser_age)).
Proof.
  intros Hi. unfold preprocess_data. cbv zeta.
  destruct (parse_scores_returns (map (λ raw, fill_score (score raw)) df))
    as (gws & gls & sws & sls & Hparse & Hcells).
  destruct (Hcells i (fill_score (score raw)))
    as (gw & gl & sw & sl & Hv & Hgw & Hgl & Hsw & Hsl).
  { by rewrite list_lookup_fmap, Hi. }
  assert (i < length (rng_random (length df)))%nat as Hlt.
  { rewrite rng_random_length. by eapply lookup_lt_Some. }
  destruct (lookup_lt_is_Some_2 _ _ Hlt) as [x Hx].
  set (swap := negb (Qle_bool x DEFAULT_WIN_PCT)).
  assert (map (λ x, negb (Qle_bool x DEFAULT_WIN_PCT))
              (rng_random (length df)) !! i = Some swap) as Hswap.
  { by rewrite list_lookup_fmap, Hx. }
  rewrite Hparse. cbn [bind].
  eexists _, swap, gw, gl, sw, sl.
  split; [reflexivity|]. split; [by rewrite length_imap|].
  split; [exact Hv|].
  rewrite list_lookup_imap, Hi. cbn [fmap option_fmap option_map].
  assert (∀ (f : RawMatch → string), map f df !! i = Some (f raw)) as Hs.
  { intros f. by rewrite list_lookup_fmap, Hi. }
  assert (∀ (f : RawMatch → option Q), map f df !! i = Some (f raw)) as Hq.
  { intros f. by rewrite list_lookup_fmap, Hi. }
  rewrite !(cell_at_np_where _ _ _ _ i swap _ _ Hswap (Hs _) (Hs _)).
  rewrite !(cell_at_np_where _ _ _ _ i swap _ _ Hswap
              (fillna_lookup _ _ i _ (Hq _)) (fillna_lookup _ _ i _ (Hq _))).
  rewrite (cell_at_np_where 0 _ gls gws i swap _ _ Hswap Hgl Hgw).
  rewrite (cell_at_np_where 0 _ gws gls i swap _ _ Hswap Hgw Hgl).
  rewrite (cell_at_np_where 0 _ sls sws i swap _ _ Hswap Hsl Hsw).
  rewrite (cell_at_np_where 0 _ sws sls i swap _ _ Hswap Hsw Hsl).
  unfold cell_at at 1. rewrite list_lookup_fmap, Hswap. simpl.
  clearbody swap. cbv zeta.
  by destruct swap, (winner_rank raw), (loser_rank raw), (winner_age raw),
    (loser_age raw).
Qed.
Lemma preprocess_returns df :
  ∃ out, preprocess_data df = Returns out ∧ length out = length df.
Proof.
  unfold preprocess_data. cbv zeta.
  destruct (parse_scores_returns (map (λ raw, fill_score (score raw)) df))
    as (gws & gls & sws & sls & Hparse & _).
  rewrite Hparse. cbn [bind]. eexists. split; [reflexivity|].
  by rewrite length_imap.
Qed.

(** Every row returned has a 0/1 target and no negative tally. *)
Lemma preprocess_rows_sound df out row :
  preprocess_data df = Returns out → row ∈ out →
  let m := match_row row in
  (target m = 0 ∨ target m = 1)
  ∧ 0 ≤ p1_games_won m ∧ 0 ≤ p1_games_lost m
  ∧ 0 ≤ p1_sets_won m ∧ 0 ≤ p1_sets_lost m
  ∧ 0 ≤ p2_games_won m ∧ 0 ≤ p2_games_lost m
  ∧ 0 ≤ p2_sets_won m ∧ 0 ≤ p2_sets_lost m.
Proof.
  intros Hout [i Hi]%list_elem_of_lookup.
  destruct (preprocess_returns df) as (out' & Hout' & Hlen).
  rewrite Hout in Hout'. injection Hout' as <-.
  assert (i < length df)%nat as Hlt.
  { rewrite <- Hlen. by eapply lookup_lt_Some. }
  destruct (lookup_lt_is_Some_2 _ _ Hlt) as [raw Hraw].
  destruct (preprocess_row df i raw Hraw)
    as (out' & swap & gw & gl & sw & sl & Hout' & _ & Hparse & Hrow).
  rewrite Hout in Hout'. injection Hout' as <-.
  cbv zeta in Hrow. rewrite Hi in Hrow. injection Hrow as ->.
  apply parse_match_score_nonneg in Hparse.
  destruct swap; cbn; split_and!; auto; lia.
Qed.
End preprocess_facts.

(** ** Ranges of the features of the whole table *)

Section pipeline_facts.
Context `{Pandas}.
Import Rolling.
Implicit Types (df pre : list Match) (m : Match).

Lemma run_loop_reachable pre :
  Surface.reachable (surface_history (run_loop pre)).
Proof.
  induction pre as [|m pre IH] using rev_ind; [constructor|].
  rewrite run_loop_snoc. unfold loop_body. cbn [surface_history].
  by do 2 constructor.
Qed.

Lemma get_surface_win_pct_unit_interval (h : Surface.history)
    (player surface : string) :
  Surface.reachable h →
  (0 <= Surface.get_surface_win_pct h player surface)%Q
  ∧ (Surface.get_surface_win_pct h player surface <= 1)%Q.
Proof.
  intros Hr. rewrite get_surface_win_pct_entry.
  assert (0 <= DEFAULT_WIN_PCT ∧ DEFAULT_WIN_PCT <= 1)%Q as Hd
    by (by vm_compute).
  destruct (String.eqb surface "Unknown"); [done|].
  destruct (Surface.entry h player surface) as [[wins total]|] eqn:He;
    [|done].
  destruct (Z.ltb_spec 0 total); [|done].
  apply true_div_unit_interval; [|done].
  by apply (reachable_counters h Hr player surface).
Qed.

(** The rows in processing order are the rows of the frame, up to their
    date. *)
Lemma elem_of_processing_order df m :
  m ∈ processing_order df → ∃ m' d, m' ∈ df ∧ m = set_date d m'.
Proof.
  unfold processing_order. rewrite (sort_values_permutation _).
  intros (m' & -> & Hm')%list_elem_of_fmap. by eexists _, _.
Qed.

Lemma upper_bound (l : list Z) : ∃ hi, 0 ≤ hi ∧ ∀ x, x ∈ l → x ≤ hi.
Proof.
  induction l as [|x l (hi & Hpos & Hhi)].
  { exists 0. split; [done|]. by intros x ?%elem_of_nil. }
  exists (Z.max x hi). split; [lia|].
  intros y [->|Hy%Hhi]%elem_of_cons; lia.
Qed.

(** A rolling cell of the table [add_features] returns lies in the range
    of the metric over the events of the frame. *)
Lemma add_features_rolling_range df role w stem metric i (lo hi : Z) :
  w ∈ RECENT_FORM_WINDOWS → (stem, metric) ∈ rolling_metrics →
  (i < length df)%nat →
  (∀ e, e ∈ map snd (concat (processing_order df)) → lo ≤ metric e ≤ hi) →
  (contains "win_rate" stem = true →
   (inject_Z lo <= DEFAULT_WIN_PCT)%Q ∧ (DEFAULT_WIN_PCT <= inject_Z hi)%Q) →
  ∃ cell,
    float_cell (fst (fst (add_features df))) (feature_name role stem w) i =
      Some cell
    ∧ in_range (inject_Z lo) (inject_Z hi) cell
    ∧ (contains "win_rate" stem = true → is_Some cell).
Proof.
  intros Hw Hsm Hi Hb Hhalf. unfold add_features. cbv zeta. cbn [fst].
  match goal with
  | |- context [compute_rolling_features ?fr] =>
      apply (rolling_cell_in_range fr role w stem metric i lo hi)
  end; try done.
  - intros c. cbn [float_cols int_cols map fst app].
    rewrite !elem_of_cons, elem_of_nil.
    intros [->|[->|[->|[]]]]; vm_compute; reflexivity.
  - cbn [rows]. by rewrite processing_order_length.
Qed.
End pipeline_facts.

(** ** The processing order with all dates different; short histories *)

Section misc_facts.
Context `{Pandas}.
Import Rolling.
Implicit Types (df pre : list Match) (m : Match).

Lemma NoDup_fmap_inj {A B} (f : A → B) (l : list A) x y :
  NoDup (map f l) → x ∈ l → y ∈ l → f x = f y → x = y.
Proof.
  induction l as [|z l IH]; simpl; [by intros _ ?%elem_of_nil|].
  intros [Hz Hl]%NoDup_cons [->|Hx]%elem_of_cons [->|Hy]%elem_of_cons Hf;
    [done| | |by apply IH].
  - exfalso. apply Hz. rewrite Hf. by apply (list_elem_of_fmap_2 f).
  - exfalso. apply Hz. rewrite <- Hf. by apply (list_elem_of_fmap_2 f).
Qed.

Lemma date_leb_antisym (d1 d2 : Timestamp) :
  date_leb d1 d2 = true → date_leb d2 d1 = true → d1 = d2.
Proof.
  destruct d1, d2; simpl; try done. rewrite !Z.leb_le. intros. f_equal. lia.
Qed.

Lemma tourney_date_set_date d m : tourney_date (set_date d m) = d.
Proof. done. Qed.

(** With all dates different there is one processing order. *)
Lemma processing_order_unique df df' :
  df ≡ₚ df' →
  NoDup (map (λ m, to_datetime (tourney_date m)) df) →
  processing_order df = processing_order df'.
Proof.
  intros Hperm Hnd.
  set (conv := λ m, set_date (to_datetime (tourney_date m)) m).
  assert (processing_order df ≡ₚ map conv df) as Hp1
    by apply sort_values_permutation.
  assert (processing_order df' ≡ₚ map conv df) as Hp2.
  { unfold processing_order. rewrite (sort_values_permutation _).
    fold conv. by rewrite Hperm. }
  assert (NoDup (map tourney_date (map conv df))) as Hnd'.
  { by rewrite map_map. }
  apply (StronglySorted_unique_strong
           (λ m1 m2, date_leb (tourney_date m1) (tourney_date m2) = true)).
  - intros x1 x2 Hx1 Hx2 H12 H21.
    rewrite Hp1 in Hx1. rewrite Hp2 in Hx2.
    apply (NoDup_fmap_inj tourney_date (map conv df)); try done.
    by apply date_leb_antisym.
  - apply sort_values_sorted.
  - apply sort_values_sorted.
  - by rewrite Hp1, Hp2.
Qed.

Lemma trailing_mean_short w w' (xs : list Z) :
  (length xs ≤ w)%nat → (length xs ≤ w')%nat →
  trailing_mean w xs = trailing_mean w' xs.
Proof.
  intros Hw Hw'. unfold trailing_mean.
  by replace (length xs - w)%nat with (length xs - w')%nat by lia.
Qed.
End misc_facts.

(** ** Exchanging the roles of the players of a match *)

Section flip_facts.
Import Rolling.
Implicit Types (h : Surface.history) (st : LoopState) (m a : Match)
  (pre : list Match) (p s : string).

(** The outer dictionary after an update. *)
Lemma update_lookup h player surface won :
  ∃ g : option (gmap string (Z * Z)) → gmap string (Z * Z),
    ∀ h k, Surface.update_surface_history h player surface won !! k =
             if decide (k = player) then Some (g (h !! player)) else h !! k.
Proof.
  exists (λ old,
    let by_surface := default ∅ old in
    let by_surface :=
      match by_surface !! surface with
      | None => <[surface := (0, 0)]> by_surface
      | Some _ => by_surface
      end in
    let '(wins, total) := default (0, 0) (by_surface !! surface) in
    <[surface := (if won then wins + 1 else wins, total + 1)]> by_surface).
  intros h' k. unfold Surface.update_surface_history.
  destruct (h' !! player) as [bs|] eqn:Hp; cbn [default].
  - rewrite Hp. cbn [default].
    destruct (default (0, 0) _) as [wins total].
    destruct (decide (k = player)) as [->|Hne].
    + by rewrite lookup_insert_eq.
    + by rewrite lookup_insert_ne.
  - rewrite lookup_insert_eq. cbn [default].
    destruct (default (0, 0) _) as [wins total].
    destruct (decide (k = player)) as [->|Hne].
    + by rewrite lookup_insert_eq.
    + by rewrite !lookup_insert_ne.
Qed.

Lemma update_comm h p1 p2 s1 s2 w1 w2 :
  p1 ≠ p2 →
  Surface.update_surface_history
    (Surface.update_surface_history h p1 s1 w1) p2 s2 w2 =
  Surface.update_surface_history
    (Surface.update_surface_history h p2 s2 w2) p1 s1 w1.
Proof.
  intros Hne.
  destruct (update_lookup h p1 s1 w1) as [g1 H1].
  destruct (update_lookup h p2 s2 w2) as [g2 H2].
  apply map_eq. intros k. repeat (rewrite H1 || rewrite H2).
  rewrite (decide_False (P := p1 = p2)) by done.
  rewrite (decide_False (P := p2 = p1)) by done.
  destruct (decide (k = p1)) as [Hk1|Hk1], (decide (k = p2)) as [Hk2|Hk2];
    try done; congruence.
Qed.

Lemma winner_index_flip (p1 p2 : string) (won : bool) :
  p1 ≠ p2 → H2H.winner_index p2 p1 (negb won) = H2H.winner_index p1 p2 won.
Proof.
  intros Hne. unfold H2H.winner_index. rewrite (sorted_pair_comm p2 p1).
  destruct (sorted_pair_cases p1 p2) as [Hp|Hp]; rewrite Hp; cbn [fst];
    rewrite String.eqb_refl;
    [destruct (String.eqb_spec p2 p1)|destruct (String.eqb_spec p1 p2)];
    try congruence; by destruct won.
Qed.

Lemma row_p1_won_flip a :
  target a = 0 ∨ target a = 1 → row_p1_won (swap_roles a) = negb (row_p1_won a).
Proof. unfold row_p1_won. cbn. intros [->| ->]; done. Qed.

(** One step of the pass leaves the same histories whichever way the
    match lists its players. *)
Lemma loop_body_flip st st' a :
  surface_history st = surface_history st' →
  h2h_history st = h2h_history st' →
  p1_name a ≠ p2_name a → target a = 0 ∨ target a = 1 →
  surface_history (loop_body st a) = surface_history (loop_body st' (swap_roles a))
  ∧ h2h_history (loop_body st a) = h2h_history (loop_body st' (swap_roles a)).
Proof.
  intros Hs Hh Hne Ht. unfold loop_body. cbn [surface_history h2h_history].
  rewrite (row_p1_won_flip a Ht), negb_involutive.
  change (row_surface (swap_roles a)) with (row_surface a).
  change (p1_name (swap_roles a)) with (p2_name a).
  change (p2_name (swap_roles a)) with (p1_name a).
  rewrite <- Hs, <- Hh. split.
  - by apply update_comm.
  - unfold H2H.record. rewrite (sorted_pair_comm (p2_name a)).
    by rewrite winner_index_flip.
Qed.

Lemma loop_body_same st st' a :
  surface_history st = surface_history st' →
  h2h_history st = h2h_history st' →
  surface_history (loop_body st a) = surface_history (loop_body st' a)
  ∧ h2h_history (loop_body st a) = h2h_history (loop_body st' a).
Proof.
  intros Hs Hh. unfold loop_body. cbn [surface_history h2h_history].
  by rewrite Hs, Hh.
Qed.

Lemma fold_loop_flips pre pre' st st' :
  same_up_to_roles pre pre' →
  Forall (λ a, p1_name a ≠ p2_name a ∧ (target a = 0 ∨ target a = 1)) pre →
  surface_history st = surface_history st' →
  h2h_history st = h2h_history st' →
  surface_history (fold_left loop_body pre st) =
    surface_history (fold_left loop_body pre' st')
  ∧ h2h_history (fold_left loop_body pre st) =
      h2h_history (fold_left loop_body pre' st').
Proof.
  intros Hflips. revert st st'.
  induction Hflips as [|a a' pre pre' Ha _ IH]; intros st st' Hall Hs Hh;
    [done|].
  apply Forall_cons in Hall as [[Hne Ht] Hall]. cbn [fold_left].
  destruct Ha as [-> | ->].
  - destruct (loop_body_same st st' a Hs Hh). by apply IH.
  - destruct (loop_body_flip st st' a Hs Hh Hne Ht). by apply IH.
Qed.

Lemma run_loop_flips pre pre' :
  same_up_to_roles pre pre' →
  Forall (λ a, p1_name a ≠ p2_name a ∧ (target a = 0 ∨ target a = 1)) pre →
  surface_history (run_loop pre) = surface_history (run_loop pre')
  ∧ h2h_history (run_loop pre) = h2h_history (run_loop pre').
Proof. intros Hflips Hall. by apply fold_loop_flips. Qed.

(** The values of a metric in the events of a player. *)
Lemma events_of_flip (p : string) n i a (metric : Event → Z) stem :
  (stem, metric) ∈ rolling_metrics → p1_name a ≠ p2_name a →
  map (λ r, metric (snd r)) (events_of p n i (swap_roles a)) =
    map (λ r, metric (snd r)) (events_of p n i a).
Proof.
  intros Hsm Hne. unfold events_of.
  change (p1_name (swap_roles a)) with (p2_name a).
  change (p2_name (swap_roles a)) with (p1_name a).
  unfold rolling_metrics, magnitude_metrics in Hsm.
  rewrite !elem_of_cons, elem_of_nil in Hsm.
  destruct (decide (p1_name a = p)) as [H1|H1],
           (decide (p2_name a = p)) as [H2|H2]; try congruence;
    try done;
    destruct Hsm as [Hs|[Hs|[Hs|[Hs|[Hs|[]]]]]]; injection Hs as _ ->;
    cbn; try done; apply (f_equal (λ x : Z, [x])); lia.
Qed.

Lemma player_rows_flips (p : string) n pre pre' (metric : Event → Z) stem :
  (stem, metric) ∈ rolling_metrics →
  same_up_to_roles pre pre' →
  Forall (λ a, p1_name a ≠ p2_name a ∧ (target a = 0 ∨ target a = 1)) pre →
  map (λ r, metric (snd r)) (player_rows p n pre') =
    map (λ r, metric (snd r)) (player_rows p n pre).
Proof.
  intros Hsm Hflips Hall. unfold player_rows.
  change (events_of p n) with (λ i, events_of p n (0 + i)).
  generalize 0%nat. revert Hall.
  induction Hflips as [|a a' pre pre' Ha _ IH]; intros Hall k; [done|].
  apply Forall_cons in Hall as [[Hne _] Hall].
  rewrite !imap_cons. cbn [mjoin list_join]. rewrite !map_app.
  f_equal.
  - rewrite Nat.add_0_r.
    destruct Ha as [-> | ->]; [done|by eapply events_of_flip].
  - rewrite (imap_ext _ (λ i, events_of p n (S k + i)) pre')
      by (intros i ? _; unfold compose; by rewrite Nat.add_succ_r).
    rewrite (imap_ext _ (λ i, events_of p n (S k + i)) pre)
      by (intros i ? _; unfold compose; by rewrite Nat.add_succ_r).
    by apply IH.
Qed.

Lemma player_history_flips (p : string) pre pre' (metric : Event → Z) stem :
  (stem, metric) ∈ rolling_metrics →
  same_up_to_roles pre pre' →
  Forall (λ a, p1_name a ≠ p2_name a ∧ (target a = 0 ∨ target a = 1)) pre →
  map metric (player_history p pre') = map metric (player_history p pre).
Proof.
  intros Hsm Hflips Hall. unfold player_history. rewrite !map_map.
  by eapply player_rows_flips.
Qed.
End flip_facts.

(** ** The differential after a match, and from the tallies *)

Section more_h2h_facts.
Implicit Types (h : H2H.history) (a b : string) (pre : list Match).

Lemma sorted_pair_eq (p1 p2 a b : string) :
  H2H.sorted_pair p1 p2 = H2H.sorted_pair a b →
  (p1 = a ∧ p2 = b) ∨ (p1 = b ∧ p2 = a).
Proof.
  intros Heq.
  destruct (sorted_pair_cases p1 p2) as [H1|H1],
           (sorted_pair_cases a b) as [H2|H2];
    rewrite H1, H2 in Heq; injection Heq; auto.
Qed.

(** The differential of a pair after a match between two players. *)
Lemma diff_record h (p1 p2 : string) (won : bool) a b :
  p1 ≠ p2 →
  H2H.diff (H2H.record h p1 p2 won) a b =
    if decide (a = p1 ∧ b = p2) then
      H2H.diff h a b + (if won then 1 else -1)
    else if decide (a = p2 ∧ b = p1) then
      H2H.diff h a b + (if won then -1 else 1)
    else H2H.diff h a b.
Proof.
  intros Hne. unfold H2H.diff, H2H.record.
  destruct (decide (H2H.sorted_pair a b = H2H.sorted_pair p1 p2)) as [Heq|Hk].
  - rewrite Heq. rewrite lookup_insert_eq.
    assert (default (0, 0)
              (match h !! H2H.sorted_pair p1 p2 with
               | Some _ => h
               | None => <[H2H.sorted_pair p1 p2 := (0, 0)]> h
               end !! H2H.sorted_pair p1 p2) =
            default (0, 0) (h !! H2H.sorted_pair p1 p2)) as ->.
    { destruct (h !! H2H.sorted_pair p1 p2) as [w|] eqn:Hw.
      - by rewrite Hw.
      - by rewrite lookup_insert_eq. }
    unfold H2H.winner_index, H2H.bump.
    destruct (sorted_pair_eq a b p1 p2 Heq) as [[-> ->]|[-> ->]].
    + rewrite decide_True by done.
      destruct (h !! H2H.sorted_pair p1 p2) as [[wa wb]|]; cbn [default];
        destruct (sorted_pair_cases p1 p2) as [Hp|Hp]; rewrite Hp;
        cbn [fst snd]; rewrite ?String.eqb_refl;
        try (destruct (String.eqb_spec p1 p2); [congruence|]);
        destruct won; simpl; lia.
    + rewrite decide_False by (intros [? ?]; congruence).
      rewrite decide_True by done.
      destruct (h !! H2H.sorted_pair p1 p2) as [[wa wb]|]; cbn [default];
        destruct (sorted_pair_cases p1 p2) as [Hp|Hp]; rewrite Hp;
        cbn [fst snd]; rewrite ?String.eqb_refl;
        try (destruct (String.eqb_spec p1 p2); [congruence|]);
        try (destruct (String.eqb_spec p2 p1); [congruence|]);
        destruct won; simpl; lia.
  - rewrite decide_False.
    2:{ intros [-> ->]. by apply Hk. }
    rewrite decide_False.
    2:{ intros [-> ->]. apply Hk. apply sorted_pair_comm. }
    rewrite lookup_insert_ne by done.
    destruct (h !! H2H.sorted_pair p1 p2); [done|].
    by rewrite lookup_insert_ne.
Qed.

(** The differential of two players before a match, from the tallies. *)
Lemma diff_run pre a b :
  a ≠ b →
  H2H.diff (h2h_history (run_loop pre)) a b =
    prior_wins a b pre - prior_wins b a pre.
Proof.
  intros Hab. unfold H2H.diff.
  destruct (sorted_pair_cases a b) as [Hp|Hp].
  - pose proof (h2h_history_run pre a b Hab Hp) as Hr. rewrite Hp.
    cbn [fst]. rewrite String.eqb_refl.
    destruct (h2h_history (run_loop pre) !! (a, b)) as [[wa wb]|].
    + by destruct Hr as (_ & -> & ->).
    + destruct Hr as (_ & -> & ->). done.
  - assert (b ≠ a) as Hba by congruence.
    rewrite sorted_pair_comm in Hp.
    pose proof (h2h_history_run pre b a Hba Hp) as Hr.
    rewrite sorted_pair_comm, Hp. cbn [fst].
    destruct (String.eqb_spec a b); [congruence|].
    destruct (h2h_history (run_loop pre) !! (b, a)) as [[wa wb]|].
    + by destruct Hr as (_ & -> & ->).
    + destruct Hr as (_ & -> & ->). done.
Qed.
End more_h2h_facts.

(** ** The form of a player comes from the rows the player is in *)

Section own_history_facts.
Import Rolling.
Implicit Types (p : string) (pre : list Match) (m : Match).

Lemma events_of_stranger p n i m :
  ¬ plays p m → events_of p n i m = [].
Proof.
  unfold plays, events_of. intros Hp.
  rewrite !decide_False by tauto. done.
Qed.

Lemma events_of_metric p n n' i i' m (metric : Event → Z) stem :
  (stem, metric) ∈ rolling_metrics →
  map (λ r, metric (snd r)) (events_of p n i m) =
    map (λ r, metric (snd r)) (events_of p n' i' m).
Proof.
  intros Hsm. unfold events_of.
  unfold rolling_metrics, magnitude_metrics in Hsm.
  rewrite !elem_of_cons, elem_of_nil in Hsm.
  destruct (decide (p1_name m = p)), (decide (p2_name m = p));
    destruct Hsm as [Hs|[Hs|[Hs|[Hs|[Hs|[]]]]]]; injection Hs as _ ->; done.
Qed.

(** The values of a metric in the events of a player come from the rows
    the player is in, whatever lies between them. *)
Lemma player_rows_own p n pre (metric : Event → Z) stem k :
  (stem, metric) ∈ rolling_metrics →
  map (λ r, metric (snd r))
      (mjoin (imap (λ i, events_of p n (k + i)) pre)) =
  map (λ r, metric (snd r))
      (mjoin (imap (λ i, events_of p 0 i) (filter (plays p) pre))).
Proof.
  intros Hsm. revert k.
  assert (∀ k k',
    map (λ r, metric (snd r))
        (mjoin (imap (λ i, events_of p n (k + i)) pre)) =
    map (λ r, metric (snd r))
        (mjoin (imap (λ i, events_of p 0 (k' + i)) (filter (plays p) pre))))
    as Hgen.
  { induction pre as [|m pre IH]; intros k k'; [done|].
    rewrite imap_cons. cbn [mjoin list_join]. rewrite map_app.
    rewrite (imap_ext _ (λ i, events_of p n (S k + i)) pre)
      by (intros i ? _; unfold compose; by rewrite Nat.add_succ_r).
    rewrite filter_cons. destruct (decide (plays p m)) as [Hp|Hp].
    - rewrite imap_cons. cbn [mjoin list_join]. rewrite map_app.
      rewrite (imap_ext _ (λ i, events_of p 0 (S k' + i)) (filter _ pre))
        by (intros i ? _; unfold compose; by rewrite Nat.add_succ_r).
      f_equal; [by eapply events_of_metric|apply IH].
    - rewrite (events_of_stranger p n _ m Hp). cbn [map app]. apply IH. }
  intros k. apply (Hgen k 0%nat).
Qed.

Lemma player_history_own p pre (metric : Event → Z) stem :
  (stem, metric) ∈ rolling_metrics →
  map metric (player_history p pre) =
    map metric (player_history p (filter (plays p) pre)).
Proof.
  intros Hsm. unfold player_history, player_rows. rewrite !map_map.
  etransitivity; [exact (player_rows_own p 0 pre metric stem 0 Hsm)|].
  symmetry.
  etransitivity;
    [exact (player_rows_own p 0 (filter (plays p) pre) metric stem 0 Hsm)|].
  by rewrite list_filter_filter_l by done.
Qed.
End own_history_facts.

(** * The specification, property by property *)

Section specification.
Import Rolling.
Implicit Types (df pre post : list Match) (m : Match).

(** C4. Surface win percentage: [get_surface_win_pct] returns the default
    0.5 whenever the surface is ["Unknown"], whatever the history; for any
    other surface it returns [wins / total] of the (player, surface) entry
    when [total > 0], and the default 0.5 when the entry is absent or its
    total is 0. *)
Theorem get_surface_win_pct_contract (h : Surface.history)
    (player surface : string) :
  (surface = "Unknown"%string →
   Surface.get_surface_win_pct h player surface = DEFAULT_WIN_PCT)
  ∧ (surface ≠ "Unknown"%string →
     ∀ wins total,
       Surface.entry h player surface = Some (wins, total) → 0 < total →
       Surface.get_surface_win_pct h player surface =
         Surface.true_div wins total)
  ∧ (surface ≠ "Unknown"%string →
     Surface.entry h player surface = None
     ∨ (∃ wins, Surface.entry h player surface = Some (wins, 0)) →
     Surface.get_surface_win_pct h player surface = DEFAULT_WIN_PCT)
  ∧ (DEFAULT_WIN_PCT == 1 # 2)%Q.
Proof.
  rewrite get_surface_win_pct_entry. split_and!.
  - by intros ->.
  - intros Hs%String.eqb_neq wins total -> Ht. rewrite Hs.
    by apply Z.ltb_lt in Ht as ->.
  - intros Hs%String.eqb_neq [->|[wins ->]]; by rewrite Hs.
  - done.
Qed.

Lemma get_surface_win_pct_contract_witness :
  let h := Surface.update_surface_history
             (Surface.update_surface_history ∅ "A" "Hard" true)
             "A" "Hard" false in
  Surface.get_surface_win_pct h "A" "Unknown" = DEFAULT_WIN_PCT
  ∧ Surface.get_surface_win_pct h "A" "Hard" = Surface.true_div 1 2
  ∧ Surface.get_surface_win_pct h "B" "Hard" = DEFAULT_WIN_PCT.
Proof.
  intros h. split_and!.
  - exact (proj1 (get_surface_win_pct_contract h "A" "Unknown") eq_refl).
  - apply (proj1 (proj2 (get_surface_win_pct_contract h "A" "Hard")));
      [discriminate|vm_compute; reflexivity|lia].
  - apply (proj1 (proj2 (proj2 (get_surface_win_pct_contract h "B" "Hard"))));
      [discriminate|left; vm_compute; reflexivity].
Defined.

(** C9. In every surface history reachable by [update_surface_history]
    calls, every entry satisfies [0 <= wins <= total], and
    [get_surface_win_pct] is a value of the closed interval [0, 1] for every
    player and surface. *)
Theorem surface_counters_invariant (h : Surface.history) :
  Surface.reachable h →
  (∀ player surface wins total,
     Surface.entry h player surface = Some (wins, total) → 0 ≤ wins ≤ total)
  ∧ (∀ player surface,
       (0 <= Surface.get_surface_win_pct h player surface)%Q
       ∧ (Surface.get_surface_win_pct h player surface <= 1)%Q).
Proof.
  intros Hr. split; [by apply reachable_counters|].
  intros player surface. rewrite get_surface_win_pct_entry.
  destruct (String.eqb surface "Unknown"); [done|].
  destruct (Surface.entry h player surface) as [[wins total]|] eqn:He; [|done].
  destruct (0 <? total) eqn:Ht; [|done].
  apply Z.ltb_lt in Ht. apply true_div_unit_interval; [|done].
  by eapply reachable_counters.
Qed.

Lemma surface_counters_invariant_witness :
  let h := Surface.update_surface_history
             (Surface.update_surface_history ∅ "A" "Clay" true)
             "A" "Clay" false in
  Surface.reachable h
  ∧ (0 <= Surface.get_surface_win_pct h "A" "Clay")%Q
  ∧ (Surface.get_surface_win_pct h "A" "Clay" <= 1)%Q.
Proof.
  intros h.
  assert (Surface.reachable h) as Hr by (repeat constructor).
  split; [exact Hr|].
  exact (proj2 (surface_counters_invariant h Hr) "A"%string "Clay"%string).
Defined.

(** C7. After the pass has processed [n] rows, the [total] counters of the
    surface history sum to [2n] and the pair counters of the head-to-head
    history sum to [n]; processing more rows keeps every entry and
    decreases no counter; the histories [add_features] returns sum to
    twice the number of rows of its input, and to that number. *)
Theorem monotonic_state_growth `{Pandas} (df : list Match) :
  (∀ processed,
     Surface.sum_total (surface_history (run_loop processed)) =
       2 * Z.of_nat (length processed)
     ∧ H2H.sum_wins (h2h_history (run_loop processed)) =
         Z.of_nat (length processed))
  ∧ (∀ processed more,
       Surface.grows (surface_history (run_loop processed))
                     (surface_history (run_loop (processed ++ more)))
       ∧ H2H.grows (h2h_history (run_loop processed))
                   (h2h_history (run_loop (processed ++ more))))
  ∧ Surface.sum_total (snd (fst (add_features df))) =
      2 * Z.of_nat (length df)
  ∧ H2H.sum_wins (snd (add_features df)) = Z.of_nat (length df).
Proof.
  assert (∀ processed,
     Surface.sum_total (surface_history (run_loop processed)) =
       2 * Z.of_nat (length processed)
     ∧ H2H.sum_wins (h2h_history (run_loop processed)) =
         Z.of_nat (length processed)) as Hsum.
  { induction processed as [|m l IH] using rev_ind.
    - unfold run_loop, Surface.sum_total, H2H.sum_wins. simpl.
      by rewrite !map_sum_empty.
    - rewrite run_loop_snoc, length_app.
      destruct (loop_body_sums (run_loop l) m) as [-> ->]. simpl. lia. }
  split_and!; [done|apply run_loop_grows|..].
  - destruct (add_features_histories df) as [-> _].
    rewrite <- (processing_order_length df). apply Hsum.
  - destruct (add_features_histories df) as [_ ->].
    rewrite <- (processing_order_length df). apply Hsum.
Qed.

(** C5. For a match between two different players, the [h2h_diff] cell is
    the number of player 1's wins over player 2 among the rows processed
    before it minus the number of player 2's wins over player 1; this is
    [wins_a - wins_b] of the entry under the sorted pair when player 1 is
    the first of the pair, and its negation otherwise, and 0 when the pair
    has no entry, which is the case exactly when the two have not met
    before; processing the match adds one to the slot of the winner in the
    sorted pair and leaves the other slot and every other pair alone. *)
Theorem h2h_diff_counts `{Pandas} df pre m post :
  processing_order df = pre ++ m :: post →
  p1_name m ≠ p2_name m →
  let p1 := p1_name m in
  let p2 := p2_name m in
  let pair := H2H.sorted_pair p1 p2 in
  let before := h2h_history (run_loop pre) in
  let after := h2h_history (run_loop (pre ++ [m])) in
  int_cell (fst (fst (add_features df))) "h2h_diff" (length pre) =
    Some (prior_wins p1 p2 pre - prior_wins p2 p1 pre)
  ∧ prior_wins p1 p2 pre - prior_wins p2 p1 pre =
      match before !! pair with
      | Some (wins_a, wins_b) =>
          if decide (p1 = fst pair) then wins_a - wins_b
          else - (wins_a - wins_b)
      | None => 0
      end
  ∧ (before !! pair = None ↔ Forall (λ m', between p1 p2 m' = false) pre)
  ∧ after !! pair =
      Some (let '(wins_a, wins_b) := default (0, 0) (before !! pair) in
            if decide (winner m = fst pair) then (wins_a + 1, wins_b)
            else (wins_a, wins_b + 1))
  ∧ (winner m = fst pair ∨ winner m = snd pair)
  ∧ ∀ other, other ≠ pair → after !! other = before !! other.
Proof.
  intros Hpo Hne p1 p2 pair before after.
  destruct (streamed_cells df pre m post Hpo) as (_ & _ & ->).
  fold before p1 p2.
  assert (between p1 p2 m = true) as Hbt.
  { unfold between. by rewrite !String.eqb_refl. }
  assert (match before !! pair with
          | Some (wins_a, wins_b) =>
              Exists (λ m', between p1 p2 m' = true) pre ∧
              (if decide (p1 = fst pair) then wins_a - wins_b
               else - (wins_a - wins_b)) =
                prior_wins p1 p2 pre - prior_wins p2 p1 pre
          | None =>
              Forall (λ m', between p1 p2 m' = false) pre ∧
              prior_wins p1 p2 pre - prior_wins p2 p1 pre = 0
          end) as Hinv.
  { subst pair before.
    destruct (sorted_pair_cases p1 p2) as [Hk|Hk].
    - pose proof (h2h_history_run pre p1 p2 Hne Hk) as Hrun. rewrite Hk.
      destruct (h2h_history (run_loop pre) !! (p1, p2)) as [[x y]|].
      + destruct Hrun as (? & -> & ->). by rewrite decide_True.
      + destruct Hrun as (? & -> & ->). done.
    - assert (H2H.sorted_pair p2 p1 = (p2, p1)) as Hk'
        by (by rewrite sorted_pair_comm).
      pose proof (h2h_history_run pre p2 p1 (not_eq_sym Hne) Hk') as Hrun.
      rewrite Hk.
      destruct (h2h_history (run_loop pre) !! (p2, p1)) as [[x y]|].
      + destruct Hrun as (Hex & -> & ->). rewrite decide_False by done.
        split; [|lia]. eapply Exists_impl; [exact Hex|].
        intros m'. by rewrite between_sym.
      + destruct Hrun as (Hall & -> & ->). split; [|done].
        eapply Forall_impl; [exact Hall|]. intros m'. by rewrite between_sym. }
  split_and!.
  - f_equal. unfold H2H.diff. fold pair.
    destruct (before !! pair) as [[x y]|].
    + destruct Hinv as [_ <-].
      destruct (String.eqb_spec p1 (fst pair)), (decide (p1 = fst pair));
        try done; lia.
    + by destruct Hinv as [_ ->].
  - destruct (before !! pair) as [[x y]|]; by destruct Hinv as [_ <-].
  - destruct (before !! pair) as [[x y]|]; destruct Hinv as [Hq _].
    + split; [done|]. intros Hall.
      apply Exists_exists in Hq as (m' & Hin & Hm').
      rewrite Forall_forall in Hall. specialize (Hall _ Hin). congruence.
    + done.
  - subst after. rewrite run_loop_snoc. simpl. unfold H2H.record.
    change (H2H.sorted_pair (p1_name m) (p2_name m)) with pair. fold before.
    pose proof (winner_index_0 p1 p2 m Hne Hbt) as Hwi. fold pair in Hwi.
    destruct (before !! pair) as [[x y]|] eqn:Hl; simpl.
    + rewrite Hl. simpl. rewrite lookup_insert_eq. f_equal.
      destruct (decide (winner m = fst pair)) as [Hw|Hw].
      * by rewrite (proj2 Hwi Hw).
      * destruct (H2H.winner_index (p1_name m) (p2_name m) (row_p1_won m));
          [by destruct Hw; apply Hwi|done].
    + rewrite lookup_insert_eq. simpl. rewrite lookup_insert_eq. f_equal.
      destruct (decide (winner m = fst pair)) as [Hw|Hw].
      * by rewrite (proj2 Hwi Hw).
      * destruct (H2H.winner_index (p1_name m) (p2_name m) (row_p1_won m));
          [by destruct Hw; apply Hwi|done].
  - destruct (between_winner p1 p2 m Hbt) as [Hw|Hw]; rewrite Hw;
      subst pair; destruct (sorted_pair_cases p1 p2) as [-> | ->]; auto.
  - intros other Ho. subst after. rewrite run_loop_snoc. simpl.
    unfold H2H.record. fold p1 p2 pair before.
    destruct (before !! pair); simpl; by rewrite !lookup_insert_ne.
Qed.

Lemma h2h_diff_counts_witness :
  let m1 := ex_row 1 "A" "B" 1 12 8 in
  let m2 := ex_row 2 "B" "A" 1 12 8 in
  int_cell (fst (fst (add_features (H:=pandas_stable) [m1; m2])))
    "h2h_diff" 1 =
  Some (prior_wins "B" "A" [m1] - prior_wins "A" "B" [m1]).
Proof.
  intros m1 m2.
  assert (processing_order (H:=pandas_stable) [m1; m2] = [m1] ++ m2 :: [])
    as Hpo by (vm_compute; reflexivity).
  assert (p1_name m2 ≠ p2_name m2) as Hne by discriminate.
  exact (proj1 (h2h_diff_counts (H:=pandas_stable) [m1; m2] [m1] m2 [] Hpo Hne)).
Defined.

(** C6. Window correctness: in a frame sorted by date, when the events of
    player A before a match have outcomes win, loss, loss, win, win with
    games won 12, 0, 6, 15, 12 and games lost 8, 12, 12, 10, 8, whatever
    role A had in them, the 5-window columns of A in that match hold a win
    rate of 0.6, a games-won average of 9 and a games-lost average of 10. *)
Theorem window_correctness (fr : Frame) pre m post role :
  rows fr = pre ++ m :: post → date_sorted (rows fr) →
  (role = false → p1_name m ≠ p2_name m) →
  (∀ c, c ∈ map fst (float_cols fr) → contains "recent_" c = false) →
  let A := role_player role m in
  map won (player_history A pre) = [1; 0; 0; 1; 1] →
  map games_won (player_history A pre) = [12; 0; 6; 15; 12] →
  map games_lost (player_history A pre) = [8; 12; 12; 10; 8] →
  let t := compute_rolling_features fr in
  ∃ win_rate games_won_avg games_lost_avg : Q,
    float_cell t (feature_name role "recent_win_rate_" 5) (length pre) =
      Some (Some win_rate)
    ∧ float_cell t (feature_name role "recent_games_won_avg_" 5) (length pre) =
        Some (Some games_won_avg)
    ∧ float_cell t (feature_name role "recent_games_lost_avg_" 5) (length pre) =
        Some (Some games_lost_avg)
    ∧ (win_rate == 6 # 10)%Q ∧ (games_won_avg == 9)%Q
    ∧ (games_lost_avg == 10)%Q.
Proof.
  intros Hrows Hs Hwf Hfc A Hwon Hgw Hgl t. subst t.
  assert (5%nat ∈ RECENT_FORM_WINDOWS) as Hw by (by left).
  pose proof (rolling_cell_sorted fr pre m post role 5 "recent_win_rate_" won
                Hrows Hs Hwf Hfc Hw) as C1.
  pose proof (rolling_cell_sorted fr pre m post role 5 "recent_games_won_avg_"
                games_won Hrows Hs Hwf Hfc Hw) as C2.
  pose proof (rolling_cell_sorted fr pre m post role 5 "recent_games_lost_avg_"
                games_lost Hrows Hs Hwf Hfc Hw) as C3.
  fold A in C1, C2, C3. rewrite Hwon in C1. rewrite Hgw in C2. rewrite Hgl in C3.
  eexists _, _, _. split_and!.
  - apply C1. by left.
  - apply C2. right. by left.
  - apply C3. right. right. by left.
  - reflexivity.
  - reflexivity.
  - reflexivity.
Qed.

Lemma window_correctness_witness :
  let t := compute_rolling_features (mkFrame test_df [] []) in
  ∃ win_rate games_won_avg games_lost_avg : Q,
    float_cell t (feature_name false "recent_win_rate_" 5) 5 =
      Some (Some win_rate)
    ∧ float_cell t (feature_name false "recent_games_won_avg_" 5) 5 =
        Some (Some games_won_avg)
    ∧ float_cell t (feature_name false "recent_games_lost_avg_" 5) 5 =
        Some (Some games_lost_avg)
    ∧ (win_rate == 6 # 10)%Q ∧ (games_won_avg == 9)%Q
    ∧ (games_lost_avg == 10)%Q.
Proof.
  assert (date_sorted test_df) as Hs.
  { apply (bool_decide_unpack _). vm_compute. exact I. }
  apply (window_correctness (mkFrame test_df [] []) (take 5 test_df)
           (mkMatch (Some 6) None "D" "A" 1 12 8 2 0 8 12 0 2) [] false);
    [ vm_compute; reflexivity | exact Hs | discriminate
    | intros c Hc; by apply elem_of_nil in Hc
    | vm_compute; reflexivity | vm_compute; reflexivity
    | vm_compute; reflexivity ].
Defined.

(** C3. Cold start: at the first match of a player (no row processed
    before it has the player in either role; in the player-2 role the two
    players of the match differ), the player's surface win percentage is
    0.5, the head-to-head differential of the match is 0, and for every
    configured window the rolling win rate is 0.5, while each of the four
    magnitude columns holds the mean of that rolling column over the events
    of all players of the whole frame (one cell per player event, those
    without a value left out; no value at all when no event has one). *)
Theorem cold_start `{Pandas} df pre m post role :
  processing_order df = pre ++ m :: post →
  (role = false → p1_name m ≠ p2_name m) →
  Forall (λ m', ¬ plays (role_player role m) m') pre →
  let t := fst (fst (add_features df)) in
  let k := length pre in
  let everyone := player_df (processing_order df) in
  float_cell t (role_prefix role +:+ "surface_win_pct") k =
    Some (Some DEFAULT_WIN_PCT)
  ∧ (DEFAULT_WIN_PCT == 1 # 2)%Q
  ∧ int_cell t "h2h_diff" k = Some 0
  ∧ length everyone = (2 * length df)%nat
  ∧ ∀ w, w ∈ RECENT_FORM_WINDOWS →
      float_cell t (feature_name role "recent_win_rate_" w) k =
        Some (Some DEFAULT_WIN_PCT)
      ∧ ∀ stem metric, (stem, metric) ∈ magnitude_metrics →
          length (raw_column w metric everyone) = length everyone
          ∧ float_cell t (feature_name role stem w) k =
              Some (series_mean (raw_column w metric everyone)).
Proof.
  intros Hpo Hwf Hfresh t k everyone.
  destruct (streamed_cells df pre m post Hpo) as (S1 & S2 & S3).
  fold t k in S1, S2, S3.
  assert (plays (role_player role m) m) as Hplays
    by (destruct role; [by left|by right]).
  split_and!.
  - destruct role.
    + change (role_prefix true +:+ "surface_win_pct")
        with "p1_surface_win_pct"%string.
      rewrite S1, get_surface_win_pct_entry, surface_entry_fresh by done.
      by destruct (String.eqb _ _).
    + change (role_prefix false +:+ "surface_win_pct")
        with "p2_surface_win_pct"%string.
      rewrite S2, get_surface_win_pct_entry, surface_entry_fresh by done.
      by destruct (String.eqb _ _).
  - done.
  - rewrite S3. f_equal. by eapply h2h_diff_fresh.
  - subst everyone. rewrite player_df_perm, concat_split, length_app.
    rewrite !length_imap, processing_order_length. lia.
  - intros w Hw. split.
    + subst t k.
      rewrite (rolling_cells df pre m post role w "recent_win_rate_" won);
        [|done|done|done|by left].
      by rewrite player_history_fresh, trailing_mean_nil.
    + intros stem metric Hm. split.
      { unfold raw_column, aligned. by rewrite length_map. }
      subst t k everyone.
      rewrite (rolling_cells df pre m post role w stem metric);
        [|done|done|done|by right].
      rewrite player_history_fresh, trailing_mean_nil, Hpo by done.
      unfold magnitude_metrics in Hm.
      rewrite !elem_of_cons, elem_of_nil in Hm.
      by destruct Hm as [Hm|[Hm|[Hm|[Hm|[]]]]]; injection Hm as -> _.
Qed.

Lemma cold_start_witness :
  let df := two_matches 12 in
  let t := fst (fst (add_features (H:=pandas_stable) df)) in
  float_cell t "p1_surface_win_pct" 0 = Some (Some DEFAULT_WIN_PCT)
  ∧ int_cell t "h2h_diff" 0 = Some 0
  ∧ float_cell t (feature_name true "recent_win_rate_" 5) 0 =
      Some (Some DEFAULT_WIN_PCT).
Proof.
  intros df t.
  assert (processing_order (H:=pandas_stable) df =
          [] ++ ex_row 1 "A" "B" 1 12 8 :: [ex_row 2 "A" "C" 1 12 8]) as Hpo
    by (vm_compute; reflexivity).
  pose proof (cold_start (H:=pandas_stable) df [] _ _ true Hpo
                ltac:(discriminate) ltac:(constructor)) as Hcold.
  destruct Hcold as (C1 & _ & C2 & _ & C3).
  split_and!; [exact C1|exact C2|].
  apply C3. by left.
Defined.

(** C1 as amended. No leakage: for a match between two different players,
    the surface win percentages, the head-to-head differential, the rolling
    win rates of every configured window, and the magnitude columns of a
    player who has an earlier event are given by the rows processed before
    the match and the names and surface of the match alone. Nothing is said
    of the magnitude columns of a player without an earlier event. *)
Theorem no_leakage `{Pandas} df pre m post :
  processing_order df = pre ++ m :: post →
  p1_name m ≠ p2_name m →
  let t := fst (fst (add_features df)) in
  let k := length pre in
  let past := run_loop pre in
  float_cell t "p1_surface_win_pct" k =
    Some (Some (Surface.get_surface_win_pct (surface_history past)
                  (p1_name m) (row_surface m)))
  ∧ float_cell t "p2_surface_win_pct" k =
      Some (Some (Surface.get_surface_win_pct (surface_history past)
                    (p2_name m) (row_surface m)))
  ∧ int_cell t "h2h_diff" k =
      Some (H2H.diff (h2h_history past) (p1_name m) (p2_name m))
  ∧ ∀ role w, w ∈ RECENT_FORM_WINDOWS →
      let form metric :=
        trailing_mean w (map metric (player_history (role_player role m) pre))
      in
      float_cell t (feature_name role "recent_win_rate_" w) k =
        Some (Some (default DEFAULT_WIN_PCT (form won)))
      ∧ ∀ stem metric, (stem, metric) ∈ magnitude_metrics →
          player_history (role_player role m) pre ≠ [] →
          is_Some (form metric)
          ∧ float_cell t (feature_name role stem w) k = Some (form metric).
Proof.
  intros Hpo Hne t k past.
  destruct (streamed_cells df pre m post Hpo) as (S1 & S2 & S3).
  split_and!; [done..|].
  intros role w Hw form. split.
  - subst t k.
    rewrite (rolling_cells df pre m post role w "recent_win_rate_" won);
      [|done|done|done|by left].
    unfold form. by destruct (trailing_mean _ _).
  - intros stem metric Hm Hhist.
    assert (is_Some (form metric)) as Hsome.
    { apply trailing_mean_is_Some.
      - unfold RECENT_FORM_WINDOWS in Hw.
        rewrite !elem_of_cons, elem_of_nil in Hw.
        destruct Hw as [->|[->|[]]]; lia.
      - intros Hnil%fmap_nil_inv. done. }
    split; [done|]. subst t k.
    rewrite (rolling_cells df pre m post role w stem metric);
      [|done|done|done|by right].
    fold (form metric). by destruct Hsome as [x ->].
Qed.

Lemma no_leakage_witness :
  let df := two_matches 12 in
  let t := fst (fst (add_features (H:=pandas_stable) df)) in
  let pre := [ex_row 1 "A" "B" 1 12 8] in
  float_cell t "p1_surface_win_pct" 1 =
    Some (Some (Surface.get_surface_win_pct
                  (surface_history (run_loop pre)) "A" "Hard"))
  ∧ float_cell t (feature_name true "recent_games_won_avg_" 5) 1 =
      Some (trailing_mean 5 (map games_won (player_history "A" pre))).
Proof.
  intros df t pre.
  assert (processing_order (H:=pandas_stable) df =
          pre ++ ex_row 2 "A" "C" 1 12 8 :: []) as Hpo
    by (vm_compute; reflexivity).
  pose proof (no_leakage (H:=pandas_stable) df pre _ [] Hpo
                ltac:(discriminate)) as (C1 & _ & _ & C2).
  split; [exact C1|].
  apply (C2 true 5%nat); [by left|by left|discriminate].
Defined.

(** C1 as stated fails: the games-won average written for player A's first
    match is the mean of the rolling column over the whole frame, which
    here is the games A won in that very match; changing the score of the
    match changes its own feature, and deleting the later match changes it
    too. *)
Lemma no_leakage_counterexample :
  let t df := fst (fst (add_features (H:=pandas_stable) df)) in
  float_cell (t (two_matches 12)) "p1_recent_games_won_avg_5" 0 =
    Some (Some (12 # 1))
  ∧ float_cell (t (two_matches 20)) "p1_recent_games_won_avg_5" 0 =
      Some (Some (20 # 1))
  ∧ float_cell (t (take 1 (two_matches 12))) "p1_recent_games_won_avg_5" 0 =
      Some None.
Proof. vm_compute. done. Qed.


(** Sixteen rows of one day are left to the insertion sort of the library's
    quicksort, which keeps them in the order of the input. *)
Example sixteen_same_day_order :
  processing_order (H:=pandas_quicksort) (take 16 seventeen_same_day)
  = take 16 seventeen_same_day.
Proof. vm_compute. reflexivity. Qed.


(** C8. Score parsing never raises: [parse_match_score] returns on every
    argument; a non-string gives [(0, 0, 0, 0)]; on a string the result is
    the sum of what each white-space separated token adds; a token with a
    retirement or walkover marker adds nothing; a tiebreak score in
    parentheses is dropped before the token is read; a token that is not
    two integers around one dash adds nothing; a token that is adds its two
    game counts and one set to the side with strictly more games; a string
    none of whose tokens parses gives [(0, 0, 0, 0)]. *)
Theorem parse_match_score_never_raises :
  (∀ v, ∃ t, Score.parse_match_score v = Score.Returns t)
  ∧ (∀ v, (∀ s, v ≠ Score.PyStr s) →
       Score.parse_match_score v = Score.Returns (0, 0, 0, 0))
  ∧ (∀ s, Score.parse_match_score (Score.PyStr s) =
       Score.Returns (foldl Score.add_totals (0, 0, 0, 0)
                        (map Score.contribution (Score.split s))))
  ∧ (∀ st tok, Score.parse_set st tok =
       Score.Returns (Score.add_totals st (Score.contribution tok)))
  ∧ (∀ tok, Score.has_marker tok = true →
       Score.contribution tok = (0, 0, 0, 0))
  ∧ (∀ games rest,
       contains "(" games = false →
       Score.has_marker (games +:+ String "(" rest) = false →
       Score.contribution (games +:+ String "(" rest) =
         Score.contribution games)
  ∧ (∀ tok,
       Score.has_marker tok = false → contains "(" tok = false →
       match Score.split_on "-" tok with
       | [part0; part1] =>
           match Score.int part0, Score.int part1 with
           | Score.Returns w_g, Score.Returns l_g =>
               Score.contribution tok =
                 (w_g, l_g, if l_g <? w_g then 1 else 0,
                  if w_g <? l_g then 1 else 0)
           | _, _ => Score.contribution tok = (0, 0, 0, 0)
           end
       | _ => Score.contribution tok = (0, 0, 0, 0)
       end)
  ∧ (∀ s, Forall (λ tok, Score.contribution tok = (0, 0, 0, 0))
                 (Score.split s) →
       Score.parse_match_score (Score.PyStr s) = Score.Returns (0, 0, 0, 0)).
Proof.
  assert (∀ s, Score.parse_match_score (Score.PyStr s) =
       Score.Returns (foldl Score.add_totals (0, 0, 0, 0)
                        (map Score.contribution (Score.split s)))) as Hsum.
  { intros s. unfold Score.parse_match_score.
    destruct (String.eqb_spec (Score.strip s) EmptyString) as [He|_].
    - by rewrite (split_all_space s (strip_empty s He)).
    - apply for_each_sum. }
  split_and!.
  - intros [s| | |]; [|by eexists..]. rewrite Hsum. by eexists.
  - intros [s| | |] Hv; [by destruct (Hv s)|done..].
  - exact Hsum.
  - apply parse_set_add.
  - intros tok Hm. unfold Score.contribution, Score.parse_set. by rewrite Hm.
  - intros games rest Hg Hm.
    pose proof (has_marker_app _ _ Hm) as Hm'.
    unfold Score.contribution, Score.parse_set.
    rewrite Hm, Hm', Hg, contains_sep, split_on_first by done. done.
  - intros tok Hm Hp. unfold Score.contribution, Score.parse_set.
    rewrite Hm, Hp. cbn [Score.bind].
    destruct (Score.split_on "-" tok) as [|p0 [|p1 [|p2 l]]]; try done.
    destruct (int_outcome p0) as [[x ->] | ->]; simpl; [|done].
    destruct (int_outcome p1) as [[y ->] | ->]; simpl; [|done].
    destruct (y <? x) eqn:Hyx; simpl.
    + assert ((x <? y) = false) as -> by lia. done.
    + by destruct (x <? y).
  - intros s Hall. rewrite Hsum. f_equal.
    induction Hall as [|tok toks Htok _ IH]; simpl; [done|].
    by rewrite Htok.
Qed.

(** C10. [add_features] does not mutate its argument: run on a store in
    which the argument is a frame, it leaves every object that was there,
    the argument included, with the value it had; the table it returns is
    an object that was not there before; and when the argument has no
    engineered columns yet, the table and the two histories are those the
    function on values gives. *)
Theorem add_features_frame `{Pandas} (h : Heap.heap) (df : nat) (f : Frame) :
  h !! df = Some (Heap.MatchFrame f) →
  Heap.wp (Heap.add_features df) h
    (λ out h',
       let result := fst (fst out) in
       Heap.preserved h h'
       ∧ h' !! df = Some (Heap.MatchFrame f)
       ∧ h !! result = None
       ∧ is_Some (h' !! result)
       ∧ (float_cols f = [] → int_cols f = [] →
          h' !! result =
            Some (Heap.MatchFrame (fst (fst (add_features (rows f)))))
          ∧ snd (fst out) = snd (fst (add_features (rows f)))
          ∧ snd out = snd (add_features (rows f)))).
Proof.
  intros Hdf. unfold Heap.add_features.
  do 11 heap_step. cbn [Heap.frame_of Heap.on_frame].
  do 6 heap_step.
  eapply wp_mono.
  { apply heap_compute_rolling_features. heap_lookup. }
  intros res h' (Hpres & Hres & Hcontent). apply wp_ret. cbn [fst snd].
  match type of Hpres with
  | Heap.preserved ?hc _ => assert (Heap.preserved h hc) as Hpres0
  end.
  { repeat (apply preserved_insert; [assumption|]). apply preserved_refl. }
  assert (Heap.preserved h h') as Hall by (by eapply preserved_trans).
  split_and!.
  - exact Hall.
  - by apply Hall.
  - exact (preserved_None _ _ _ Hpres0 Hres).
  - by eexists.
  - intros Hfc Hic. rewrite Hcontent. split_and!; [|done..].
    do 2 f_equal. destruct f as [frows fcols icols].
    cbn [float_cols int_cols] in Hfc, Hic. subst fcols icols.
    unfold add_features, processing_order.
    unfold Heap.set_int, Heap.set_float, Heap.sort_frame, Heap.convert_dates.
    cbn [rows float_cols int_cols fst Heap.frame_of Heap.on_frame id].
    reflexivity.
Qed.

Lemma add_features_frame_witness :
  let frame := mkFrame test_df [] [] in
  let h : Heap.heap := {[ 7%nat := Heap.MatchFrame frame ]} in
  let run := Heap.add_features (H:=pandas_stable) 7%nat h in
  h !! 7%nat = Some (Heap.MatchFrame frame)
  ∧ snd run !! 7%nat = Some (Heap.MatchFrame frame)
  ∧ h !! fst (fst (fst run)) = None.
Proof.
  intros frame h run.
  assert (h !! 7%nat = Some (Heap.MatchFrame frame)) as Hdf by reflexivity.
  destruct (add_features_frame (H:=pandas_stable) h 7%nat frame Hdf)
    as (_ & Hsame & Hnew & _).
  split_and!; [exact Hdf|exact Hsame|exact Hnew].
Defined.
End specification.

(** * Further properties of the code *)

(** ** The pass over the matches (engineering.py) *)

Section pass_properties.
Import Rolling.
Implicit Types (df pre post : list Match) (m : Match).

(** X1. The surface win percentage written for a player of a match is
    the share of wins among the earlier rows that player played on the
    surface the match is filed under, in either role; it is the default 0.5
    when there is no such row or the surface is ["Unknown"] (a missing
    surface is filed under ["Unknown"]). *)
Theorem surface_win_pct_counts `{Pandas} df pre m post role :
  processing_order df = pre ++ m :: post →
  let p := role_player role m in
  let s := row_surface m in
  float_cell (fst (fst (add_features df)))
             (role_prefix role +:+ "surface_win_pct") (length pre) =
    Some (Some (if decide (s = "Unknown"%string ∨ surface_matches p s pre = 0)
                then DEFAULT_WIN_PCT
                else Surface.true_div (surface_wins p s pre)
                                      (surface_matches p s pre))).
Proof.
  intros Hdf p s.
  destruct (streamed_cells df pre m post Hdf) as (H1 & H2 & _).
  assert (∀ q, Surface.get_surface_win_pct (surface_history (run_loop pre)) q s
            = if decide (s = "Unknown"%string ∨ surface_matches q s pre = 0)
              then DEFAULT_WIN_PCT
              else Surface.true_div (surface_wins q s pre)
                                    (surface_matches q s pre)) as Hpct.
  { intros q. rewrite get_surface_win_pct_entry, surface_history_run.
    unfold counted_entry.
    pose proof (surface_wins_bounds q s pre) as Hb.
    destruct (String.eqb_spec s "Unknown") as [Hu|Hu].
    { by rewrite decide_True by (by left). }
    destruct (Z.eqb_spec (surface_matches q s pre) 0) as [Hz|Hz].
    { by rewrite decide_True by (by right). }
    rewrite decide_False by (intros [?|?]; done).
    destruct (Z.ltb_spec 0 (surface_matches q s pre)); [done|lia]. }
  destruct role; subst p; cbn [role_player].
  - change (role_prefix true +:+ "surface_win_pct")
      with "p1_surface_win_pct"%string.
    rewrite H1. by rewrite Hpct.
  - change (role_prefix false +:+ "surface_win_pct")
      with "p2_surface_win_pct"%string.
    rewrite H2. by rewrite Hpct.
Qed.

Lemma surface_win_pct_counts_witness :
  float_cell (fst (fst (add_features (H:=pandas_stable) (two_matches 12))))
             "p1_surface_win_pct" 1 =
    Some (Some (Surface.true_div 1 1)).
Proof.
  assert (processing_order (H:=pandas_stable) (two_matches 12) =
          [ex_row 1 "A" "B" 1 12 8] ++ ex_row 2 "A" "C" 1 12 8 :: []) as Hpo
    by (vm_compute; reflexivity).
  exact (surface_win_pct_counts (H:=pandas_stable) (two_matches 12) _ _ []
           true Hpo).
Defined.

(** X2. The surface history [add_features] returns has an entry for a
    player and a surface exactly when the player has a row filed under that
    surface in the frame, and the entry holds the wins and the number of
    those rows, whatever the order of the rows in the frame. *)
Theorem surface_history_final `{Pandas} df p surface :
  Surface.entry (snd (fst (add_features df))) p surface =
    if surface_matches p surface df =? 0 then None
    else Some (surface_wins p surface df, surface_matches p surface df).
Proof.
  destruct (add_features_histories df) as [-> _].
  rewrite surface_history_run. unfold counted_entry.
  by rewrite surface_matches_processing_order, surface_wins_processing_order.
Qed.

(** X3. In a history reached by updates, one more update of a player
    on a surface other than ["Unknown"] makes the win percentage read for
    that player and surface [(wins + won) / (total + 1)], counting from
    [(0, 0)] without an entry, and leaves what is read for every other
    player or surface as it was. *)
Theorem surface_update_then_read (h : Surface.history)
    (player surface : string) (won : bool) (p s : string) :
  Surface.reachable h → s ≠ "Unknown"%string →
  Surface.get_surface_win_pct
    (Surface.update_surface_history h player surface won) p s =
    if decide (p = player ∧ s = surface)
    then let '(wins, total) := default (0, 0) (Surface.entry h p s) in
         Surface.true_div (if won then wins + 1 else wins) (total + 1)
    else Surface.get_surface_win_pct h p s.
Proof.
  intros Hr Hs. rewrite !get_surface_win_pct_entry, entry_update.
  destruct (String.eqb_spec s "Unknown"); [done|].
  case_decide; [|done].
  pose proof (reachable_counters h Hr p s) as Hc.
  destruct (Surface.entry h p s) as [[wins total]|]; simpl.
  - specialize (Hc wins total eq_refl).
    destruct (Z.ltb_spec 0 (total + 1)); [done|lia].
  - done.
Qed.

Lemma surface_update_then_read_witness :
  Surface.get_surface_win_pct
    (Surface.update_surface_history ∅ "A" "Hard" true) "A" "Hard" =
    Surface.true_div 1 1.
Proof.
  exact (surface_update_then_read ∅ "A" "Hard" true "A" "Hard"
           Surface.reachable_empty ltac:(discriminate)).
Defined.

(** X4. For two different players the head-to-head history
    [add_features] returns has an entry under their sorted pair exactly when
    the frame has a match between them; the entry holds the wins of the
    first and of the second name of the pair, which add up to the number of
    their matches; and no key is stored with its second name before its
    first. *)
Theorem h2h_history_final `{Pandas} df a b :
  a ≠ b →
  let h := snd (add_features df) in
  let pair := H2H.sorted_pair a b in
  h !! pair =
    (if meetings a b df =? 0 then None
     else Some (prior_wins (fst pair) (snd pair) df,
                prior_wins (snd pair) (fst pair) df))
  ∧ prior_wins a b df + prior_wins b a df = meetings a b df
  ∧ ∀ key, is_Some (h !! key) → String.ltb (snd key) (fst key) = false.
Proof.
  intros Hab h pair. subst h.
  destruct (add_features_histories df) as [_ ->].
  split_and!.
  - assert (∀ x y, x ≠ y → H2H.sorted_pair x y = (x, y) →
      h2h_history (run_loop (processing_order df)) !! (x, y) =
      if meetings x y df =? 0 then None
      else Some (prior_wins x y df, prior_wins y x df)) as Hxy.
    { intros x y Hne Hs.
      pose proof (h2h_history_run (processing_order df) x y Hne Hs) as Hr.
      pose proof (prior_wins_meetings x y (processing_order df) Hne) as Hm.
      rewrite meetings_processing_order, !prior_wins_processing_order in Hm.
      destruct (h2h_history (run_loop (processing_order df)) !! (x, y))
        as [[wa wb]|].
      - destruct Hr as (Hex & -> & ->).
        rewrite !prior_wins_processing_order.
        destruct (Z.eqb_spec (meetings x y df) 0) as [Hz|Hz]; [|done].
        exfalso. rewrite <- meetings_processing_order in Hz.
        unfold meetings in Hz. apply Exists_exists in Hex as (m & Hin & Hbt).
        assert (m ∈ filter (λ m, between x y m = true) (processing_order df))
          as Hf by (by apply list_elem_of_filter).
        destruct (filter _ _); [by apply elem_of_nil in Hf|simpl in Hz; lia].
      - destruct Hr as (_ & H1 & H2).
        rewrite !prior_wins_processing_order in *.
        destruct (Z.eqb_spec (meetings x y df) 0) as [Hz|Hz]; [done|lia]. }
    subst pair. destruct (sorted_pair_cases a b) as [Hp|Hp]; rewrite Hp.
    + by apply Hxy.
    + cbn [fst snd].
      assert (meetings a b df = meetings b a df) as ->.
      { unfold meetings. f_equal. apply length_filter_ext.
        intros m. by rewrite between_sym. }
      apply Hxy; [done|by rewrite sorted_pair_comm].
  - by apply prior_wins_meetings.
  - intros key. apply h2h_keys_ordered.
Qed.

Lemma h2h_history_final_witness :
  snd (add_features (H:=pandas_stable) (two_matches 12)) !! ("A", "B")%string
    = Some (1, 0).
Proof.
  exact (proj1 (h2h_history_final (H:=pandas_stable) (two_matches 12)
                  "A" "B" ltac:(discriminate))).
Defined.

(** X5. For two different players the head-to-head differential read
    for [(a, b)] is the negation of the one read for [(b, a)], in every
    history. *)
Theorem h2h_diff_antisymmetric (h : H2H.history) (a b : string) :
  a ≠ b → H2H.diff h a b = - H2H.diff h b a.
Proof. apply h2h_diff_antisym. Qed.

Lemma h2h_diff_antisymmetric_witness :
  let h : H2H.history := {[ ("A", "B")%string := (2, 1) ]} in
  H2H.diff h "A" "B" = - H2H.diff h "B" "A".
Proof.
  intros h. exact (h2h_diff_antisymmetric h "A" "B" ltac:(discriminate)).
Defined.

(** X6. When the converted dates of the rows are all different,
    [add_features] returns the same table and histories for every order of
    the rows of the frame. *)
Theorem add_features_order_independent `{Pandas} df df' :
  df ≡ₚ df' →
  NoDup (map (λ m, to_datetime (tourney_date m)) df) →
  add_features df = add_features df'.
Proof.
  intros Hperm Hnd. unfold add_features.
  by rewrite (processing_order_unique df df' Hperm Hnd).
Qed.

Lemma add_features_order_independent_witness :
  add_features (H:=pandas_stable) (two_matches 12) =
    add_features (H:=pandas_stable) (reverse (two_matches 12)).
Proof.
  apply (add_features_order_independent (H:=pandas_stable)).
  - apply perm_swap.
  - apply (bool_decide_unpack _). vm_compute. exact I.
Defined.

(** X7. The features of a match do not depend on which player each
    earlier match lists first: with two different players and a 0/1 target
    in every earlier match, listing the players of some of them in the
    other order leaves the surface percentages, the head-to-head
    differential and the rolling win rates of the match unchanged, and the
    rolling averages of a player who has an earlier event. *)
Theorem features_independent_of_earlier_roles `{Pandas}
    df df' pre pre' m post post' :
  processing_order df = pre ++ m :: post →
  processing_order df' = pre' ++ m :: post' →
  same_up_to_roles pre pre' →
  Forall (λ a, p1_name a ≠ p2_name a ∧ (target a = 0 ∨ target a = 1)) pre →
  p1_name m ≠ p2_name m →
  let t := fst (fst (add_features df)) in
  let t' := fst (fst (add_features df')) in
  let k := length pre in
  float_cell t' "p1_surface_win_pct" k = float_cell t "p1_surface_win_pct" k
  ∧ float_cell t' "p2_surface_win_pct" k =
      float_cell t "p2_surface_win_pct" k
  ∧ int_cell t' "h2h_diff" k = int_cell t "h2h_diff" k
  ∧ ∀ role w stem metric,
      w ∈ RECENT_FORM_WINDOWS → (stem, metric) ∈ rolling_metrics →
      stem = "recent_win_rate_"%string
      ∨ player_history (role_player role m) pre ≠ [] →
      float_cell t' (feature_name role stem w) k =
        float_cell t (feature_name role stem w) k.
Proof.
  intros Hdf Hdf' Hflips Hall Hne t t' k.
  assert (length pre' = k) as Hk by (symmetry; by eapply Forall2_length).
  destruct (streamed_cells df pre m post Hdf) as (H1 & H2 & H3).
  destruct (streamed_cells df' pre' m post' Hdf') as (H1' & H2' & H3').
  rewrite Hk in H1', H2', H3'.
  destruct (run_loop_flips pre pre' Hflips Hall) as [Hs Hh].
  subst t t' k. rewrite H1, H2, H3, H1', H2', H3', Hs, Hh.
  split; [reflexivity|]. split; [reflexivity|]. split; [reflexivity|].
  intros role w stem metric Hw Hsm Hcase.
  rewrite (rolling_cells df pre m post role w stem metric Hdf (λ _, Hne)
             Hw Hsm).
  rewrite <- Hk.
  rewrite (rolling_cells df' pre' m post' role w stem metric Hdf'
             (λ _, Hne) Hw Hsm).
  rewrite (player_history_flips _ pre pre' metric stem Hsm Hflips Hall).
  f_equal. unfold fill_cell.
  destruct (trailing_mean w _) as [x|] eqn:Hx; [done|].
  destruct Hcase as [-> | Hhist]; [done|].
  apply trailing_mean_None in Hx; [|by apply windows_positive].
  by apply map_eq_nil in Hx.
Qed.

Lemma features_independent_of_earlier_roles_witness :
  let row1 := ex_row 1 "A" "B" 1 12 8 in
  let row2 := ex_row 2 "A" "C" 1 12 8 in
  let t := fst (fst (add_features (H:=pandas_stable) [row1; row2])) in
  let t' :=
    fst (fst (add_features (H:=pandas_stable) [swap_roles row1; row2])) in
  float_cell t' "p1_surface_win_pct" 1 = float_cell t "p1_surface_win_pct" 1
  ∧ float_cell t' (feature_name true "recent_win_rate_" 5) 1 =
      float_cell t (feature_name true "recent_win_rate_" 5) 1.
Proof.
  intros row1 row2 t t'.
  assert (processing_order (H:=pandas_stable) [row1; row2] =
          [row1] ++ row2 :: []) as Hpo by (vm_compute; reflexivity).
  assert (processing_order (H:=pandas_stable) [swap_roles row1; row2] =
          [swap_roles row1] ++ row2 :: []) as Hpo'
    by (vm_compute; reflexivity).
  assert (same_up_to_roles [row1] [swap_roles row1]) as Hflips.
  { constructor; [by right|constructor]. }
  assert (Forall (λ a, p1_name a ≠ p2_name a ∧ (target a = 0 ∨ target a = 1))
                 [row1]) as Hall.
  { constructor; [|constructor]. split; [discriminate|by right]. }
  destruct (features_independent_of_earlier_roles (H:=pandas_stable)
              [row1; row2] [swap_roles row1; row2] [row1] [swap_roles row1]
              row2 [] [] Hpo Hpo' Hflips Hall ltac:(discriminate))
    as (C1 & _ & _ & C2).
  split; [exact C1|].
  apply (C2 true 5%nat "recent_win_rate_"%string won);
    [by left|by left|by left].
Defined.

(** X8. Listing the two players of a match in the other order
    exchanges the two surface percentages of its row, negates its
    head-to-head differential, and exchanges the p1 and p2 rolling columns
    (win rates always, averages for a player who has an earlier event). *)
Theorem features_exchange_with_roles `{Pandas} df df' pre m post post' :
  processing_order df = pre ++ m :: post →
  processing_order df' = pre ++ swap_roles m :: post' →
  p1_name m ≠ p2_name m →
  let t := fst (fst (add_features df)) in
  let t' := fst (fst (add_features df')) in
  let k := length pre in
  float_cell t' "p1_surface_win_pct" k = float_cell t "p2_surface_win_pct" k
  ∧ float_cell t' "p2_surface_win_pct" k =
      float_cell t "p1_surface_win_pct" k
  ∧ int_cell t' "h2h_diff" k = Z.opp <$> int_cell t "h2h_diff" k
  ∧ ∀ role w stem metric,
      w ∈ RECENT_FORM_WINDOWS → (stem, metric) ∈ rolling_metrics →
      stem = "recent_win_rate_"%string
      ∨ player_history (role_player role m) pre ≠ [] →
      float_cell t' (feature_name (negb role) stem w) k =
        float_cell t (feature_name role stem w) k.
Proof.
  intros Hdf Hdf' Hne t t' k.
  destruct (streamed_cells df pre m post Hdf) as (H1 & H2 & H3).
  destruct (streamed_cells df' pre (swap_roles m) post' Hdf') as (H1' & H2' & H3').
  subst t t' k. rewrite H1, H2, H3, H1', H2', H3'.
  change (row_surface (swap_roles m)) with (row_surface m).
  change (p1_name (swap_roles m)) with (p2_name m).
  change (p2_name (swap_roles m)) with (p1_name m).
  split; [reflexivity|]. split; [reflexivity|]. split.
  { cbn [fmap option_fmap option_map]. f_equal.
    by apply h2h_diff_antisym. }
  intros role w stem metric Hw Hsm Hcase.
  rewrite (rolling_cells df pre m post role w stem metric Hdf (λ _, Hne)
             Hw Hsm).
  assert (p1_name (swap_roles m) ≠ p2_name (swap_roles m)) as Hne'
    by (cbn; congruence).
  rewrite (rolling_cells df' pre (swap_roles m) post' (negb role) w stem metric
             Hdf' (λ _, Hne') Hw Hsm).
  assert (role_player (negb role) (swap_roles m) = role_player role m) as ->
    by (by destruct role).
  f_equal. unfold fill_cell.
  destruct (trailing_mean w _) as [x|] eqn:Hx; [done|].
  destruct Hcase as [-> | Hhist]; [done|].
  apply trailing_mean_None in Hx; [|by apply windows_positive].
  by apply map_eq_nil in Hx.
Qed.

Lemma features_exchange_with_roles_witness :
  let row1 := ex_row 1 "A" "B" 1 12 8 in
  let row2 := ex_row 2 "A" "C" 1 12 8 in
  let t := fst (fst (add_features (H:=pandas_stable) [row1; row2])) in
  let t' :=
    fst (fst (add_features (H:=pandas_stable) [row1; swap_roles row2])) in
  float_cell t' "p2_surface_win_pct" 1 = float_cell t "p1_surface_win_pct" 1
  ∧ int_cell t' "h2h_diff" 1 = Z.opp <$> int_cell t "h2h_diff" 1
  ∧ float_cell t' (feature_name false "recent_win_rate_" 5) 1 =
      float_cell t (feature_name true "recent_win_rate_" 5) 1.
Proof.
  intros row1 row2 t t'.
  assert (processing_order (H:=pandas_stable) [row1; row2] =
          [row1] ++ row2 :: []) as Hpo by (vm_compute; reflexivity).
  assert (processing_order (H:=pandas_stable) [row1; swap_roles row2] =
          [row1] ++ swap_roles row2 :: []) as Hpo'
    by (vm_compute; reflexivity).
  destruct (features_exchange_with_roles (H:=pandas_stable)
              [row1; row2] [row1; swap_roles row2] [row1] row2 [] []
              Hpo Hpo' ltac:(discriminate))
    as (_ & C1 & C2 & C3).
  split_and!; [exact C1|exact C2|].
  apply (C3 true 5%nat "recent_win_rate_"%string won);
    [by left|by left|by left].
Defined.

(** X9. Every name of [MODEL_FEATURES] other than the four rank and
    age columns is a column of the table [add_features] returns, with one
    cell per row of the frame; every column [add_features] attaches is in
    [MODEL_FEATURES]; and no two attached columns share a name. *)
Theorem model_features_columns `{Pandas} (df : list Match) :
  let t := fst (fst (add_features df)) in
  (∀ name, name ∈ MODEL_FEATURES →
     name ∈ ["p1_rank"; "p2_rank"; "p1_age"; "p2_age"]%string
     ∨ (∃ v, get_col name (float_cols t) = Some v ∧ length v = length df)
     ∨ (∃ v, get_int_col name (int_cols t) = Some v ∧ length v = length df))
  ∧ (∀ name, name ∈ map fst (float_cols t) ++ map fst (int_cols t) →
       name ∈ MODEL_FEATURES)
  ∧ NoDup (map fst (float_cols t) ++ map fst (int_cols t)).
Proof.
  intros t.
  destruct (joined_columns_shape (processing_order df)) as [Hnames Hlens].
  cbv zeta in Hnames, Hlens.
  destruct (loop_columns_length (processing_order df)) as (Hl1 & Hl2 & Hl3).
  rewrite processing_order_length in Hl1, Hl2, Hl3.
  assert (map fst (float_cols t) =
          ["p1_surface_win_pct"; "p2_surface_win_pct"]%string
          ++ rolling_feature_names) as Hfn.
  { subst t. unfold add_features, compute_rolling_features. cbv zeta.
    cbn [fst float_cols rows]. rewrite <- Hnames.
    rewrite map_app. reflexivity. }
  assert (Forall (λ c, length (snd c) = length df) (float_cols t)) as Hfl.
  { subst t. unfold add_features, compute_rolling_features. cbv zeta.
    cbn [fst float_cols rows].
    apply Forall_app. split.
    2:{ eapply Forall_impl; [exact Hlens|]. intros c Hc. cbv beta in Hc.
        by rewrite Hc, processing_order_length. }
    repeat constructor; cbn [snd]; by rewrite length_map. }
  assert (int_cols t =
          [("h2h_diff"%string, h2h_diff (run_loop (processing_order df)))])
    as Hic by reflexivity.
  split_and!.
  - intros name Hin.
    assert (name ∈ ["p1_rank"; "p2_rank"; "p1_age"; "p2_age"]%string
            ∨ name ∈ map fst (float_cols t) ∨ name = "h2h_diff"%string)
      as [?|[Hf| ->]].
    { rewrite Hfn. revert name Hin. apply Forall_forall.
      apply (bool_decide_unpack _). vm_compute. reflexivity. }
    + by left.
    + right. left. by apply (get_col_Forall (λ v, length v = length df)).
    + right. right. rewrite Hic. eexists. split; [reflexivity|done].
  - rewrite Hfn, Hic. intros name. revert name. apply Forall_forall.
    apply (bool_decide_unpack _). vm_compute. reflexivity.
  - rewrite Hfn, Hic. apply (bool_decide_unpack _). vm_compute. reflexivity.
Qed.

(** X10. For a player with at most five earlier events the 5-match and
    the 10-match rolling columns hold the same value: the win rates always,
    the averages when the player has an earlier event. *)
Theorem short_history_windows_agree `{Pandas} df pre m post role stem metric :
  processing_order df = pre ++ m :: post →
  (role = false → p1_name m ≠ p2_name m) →
  (stem, metric) ∈ rolling_metrics →
  let n := length (player_history (role_player role m) pre) in
  (n ≤ 5)%nat → (stem = "recent_win_rate_"%string ∨ 1 ≤ n)%nat →
  float_cell (fst (fst (add_features df))) (feature_name role stem 5)
             (length pre) =
  float_cell (fst (fst (add_features df))) (feature_name role stem 10)
             (length pre).
Proof.
  intros Hdf Hne Hsm n Hn Hcase.
  assert (5%nat ∈ RECENT_FORM_WINDOWS) as H5 by (by left).
  assert (10%nat ∈ RECENT_FORM_WINDOWS) as H10 by (right; by left).
  rewrite (rolling_cells df pre m post role 5 stem metric Hdf Hne H5 Hsm).
  rewrite (rolling_cells df pre m post role 10 stem metric Hdf Hne H10 Hsm).
  rewrite (trailing_mean_short 5 10) by (rewrite length_map; fold n; lia).
  f_equal. unfold fill_cell.
  destruct (trailing_mean 10 _) as [x|] eqn:Hx; [done|].
  destruct Hcase as [->|Hpos]; [done|].
  apply trailing_mean_None in Hx; [|lia].
  apply (f_equal length) in Hx. rewrite length_map in Hx. fold n in Hx.
  simpl in Hx. lia.
Qed.

Lemma short_history_windows_agree_witness :
  let t := fst (fst (add_features (H:=pandas_stable) (two_matches 12))) in
  float_cell t (feature_name true "recent_games_won_avg_" 5) 1 =
    float_cell t (feature_name true "recent_games_won_avg_" 10) 1.
Proof.
  intros t.
  assert (processing_order (H:=pandas_stable) (two_matches 12) =
          [ex_row 1 "A" "B" 1 12 8] ++ ex_row 2 "A" "C" 1 12 8 :: []) as Hpo
    by (vm_compute; reflexivity).
  apply (short_history_windows_agree (H:=pandas_stable) (two_matches 12)
           [ex_row 1 "A" "B" 1 12 8] (ex_row 2 "A" "C" 1 12 8) [] true
           "recent_games_won_avg_" games_won Hpo).
  - discriminate.
  - right. by left.
  - vm_compute. lia.
  - right. vm_compute. lia.
Defined.

(** X11. Recording a match between two different players moves the
    differential read for them by one towards the winner (plus one from the
    winner's side, minus one from the loser's) and leaves the differential
    of every other ordered pair of names as it was. *)
Theorem h2h_record_then_read (h : H2H.history) (p1 p2 : string) (won : bool)
    (a b : string) :
  p1 ≠ p2 →
  H2H.diff (H2H.record h p1 p2 won) a b =
    if decide (a = p1 ∧ b = p2) then
      H2H.diff h a b + (if won then 1 else -1)
    else if decide (a = p2 ∧ b = p1) then
      H2H.diff h a b + (if won then -1 else 1)
    else H2H.diff h a b.
Proof. apply diff_record. Qed.

Lemma h2h_record_then_read_witness :
  H2H.diff (H2H.record ∅ "A" "B" true) "B" "A" = H2H.diff ∅ "B" "A" + -1.
Proof.
  exact (h2h_record_then_read ∅ "A" "B" true "B" "A" ltac:(discriminate)).
Defined.

(** X12. The head-to-head differential written for a match between
    two different players is twice player 1's earlier wins over player 2
    minus the number of their earlier matches; so it lies between minus
    that number and that number and has its parity. *)
Theorem h2h_diff_bounded `{Pandas} df pre m post :
  processing_order df = pre ++ m :: post →
  p1_name m ≠ p2_name m →
  let n := meetings (p1_name m) (p2_name m) pre in
  ∃ d, int_cell (fst (fst (add_features df))) "h2h_diff" (length pre) = Some d
       ∧ d = 2 * prior_wins (p1_name m) (p2_name m) pre - n
       ∧ - n ≤ d ≤ n.
Proof.
  intros Hdf Hne n.
  destruct (streamed_cells df pre m post Hdf) as (_ & _ & H3).
  eexists. split; [exact H3|].
  rewrite (diff_run pre _ _ Hne).
  pose proof (prior_wins_meetings (p1_name m) (p2_name m) pre Hne) as Hm.
  fold n in Hm. unfold prior_wins in *. lia.
Qed.

Lemma h2h_diff_bounded_witness :
  ∃ d, int_cell (fst (fst (add_features (H:=pandas_stable) met_twice)))
                "h2h_diff" 1 = Some d
       ∧ d = -1 ∧ -1 ≤ d ≤ 1.
Proof.
  assert (processing_order (H:=pandas_stable) met_twice =
          [ex_row 20230101 "A" "B" 1 12 8]
            ++ ex_row 20230102 "B" "A" 1 12 8 :: []) as Hpo
    by (vm_compute; reflexivity).
  exact (h2h_diff_bounded (H:=pandas_stable) met_twice
           [ex_row 20230101 "A" "B" 1 12 8] _ _ Hpo ltac:(discriminate)).
Defined.

(** X13. The rolling columns of a player depend on the earlier rows
    that player is in and on nothing else: two matches of the player, in
    any two frames and in any role, that have the same earlier rows of the
    player before them get the same rolling win rates, and the same rolling
    averages when the player has an earlier event. *)
Theorem rolling_features_own_history `{Pandas} `{Pandas}
    df df' pre pre' m m' post post' role role' :
  processing_order df = pre ++ m :: post →
  processing_order df' = pre' ++ m' :: post' →
  p1_name m ≠ p2_name m → p1_name m' ≠ p2_name m' →
  role_player role m = role_player role' m' →
  let p := role_player role m in
  filter (plays p) pre = filter (plays p) pre' →
  ∀ w stem metric,
    w ∈ RECENT_FORM_WINDOWS → (stem, metric) ∈ rolling_metrics →
    stem = "recent_win_rate_"%string ∨ player_history p pre ≠ [] →
    float_cell (fst (fst (add_features df'))) (feature_name role' stem w)
               (length pre') =
      float_cell (fst (fst (add_features df))) (feature_name role stem w)
                 (length pre).
Proof.
  intros Hdf Hdf' Hne Hne' Hp p Hown w stem metric Hw Hsm Hcase.
  rewrite (rolling_cells df pre m post role w stem metric Hdf (λ _, Hne)
             Hw Hsm).
  rewrite (rolling_cells df' pre' m' post' role' w stem metric Hdf'
             (λ _, Hne') Hw Hsm).
  rewrite <- Hp. fold p.
  rewrite (player_history_own p pre' metric stem Hsm), <- Hown.
  rewrite <- (player_history_own p pre metric stem Hsm).
  f_equal. unfold fill_cell.
  destruct (trailing_mean w _) as [x|] eqn:Hx; [done|].
  destruct Hcase as [-> | Hhist]; [done|].
  apply trailing_mean_None in Hx; [|by apply windows_positive].
  by apply map_eq_nil in Hx.
Qed.

Lemma rolling_features_own_history_witness :
  let t := fst (fst (add_features (H:=pandas_stable) (two_matches 12))) in
  let t' := fst (fst (add_features (H:=pandas_stable)
                        [ex_row 1 "A" "B" 1 12 8; ex_row 2 "C" "D" 1 9 7;
                         ex_row 3 "E" "A" 0 10 12])) in
  float_cell t' (feature_name false "recent_games_won_avg_" 5) 2 =
    float_cell t (feature_name true "recent_games_won_avg_" 5) 1.
Proof.
  intros t t'.
  assert (processing_order (H:=pandas_stable) (two_matches 12) =
          [ex_row 1 "A" "B" 1 12 8] ++ ex_row 2 "A" "C" 1 12 8 :: []) as Hpo
    by (vm_compute; reflexivity).
  assert (processing_order (H:=pandas_stable)
            [ex_row 1 "A" "B" 1 12 8; ex_row 2 "C" "D" 1 9 7;
             ex_row 3 "E" "A" 0 10 12] =
          [ex_row 1 "A" "B" 1 12 8; ex_row 2 "C" "D" 1 9 7]
          ++ ex_row 3 "E" "A" 0 10 12 :: []) as Hpo'
    by (vm_compute; reflexivity).
  assert (filter (plays "A") [ex_row 1 "A" "B" 1 12 8] =
          filter (plays "A")
            [ex_row 1 "A" "B" 1 12 8; ex_row 2 "C" "D" 1 9 7]) as Hown
    by (vm_compute; reflexivity).
  apply (rolling_features_own_history (H:=pandas_stable) _ _ _ _ _ _ [] []
           true false Hpo Hpo' ltac:(discriminate) ltac:(discriminate)
           eq_refl Hown 5%nat "recent_games_won_avg_"%string games_won);
    [by left|right; by left|right; discriminate].
Defined.

End pass_properties.

(** ** The rolling columns (rolling.py) *)

Section rolling_properties.
Import Rolling.

(** X14. On a frame without rolling columns
    [compute_rolling_features] keeps the rows and the columns of the frame
    and appends the twenty rolling columns, named and ordered as the joins
    produce them (player 1 then player 2, window 5 then 10), each with one
    cell per row. *)
Theorem rolling_columns_shape (fr : Frame) :
  no_rolling_columns fr →
  let t := compute_rolling_features fr in
  rows t = rows fr
  ∧ int_cols t = int_cols fr
  ∧ take (length (float_cols fr)) (float_cols t) = float_cols fr
  ∧ map fst (drop (length (float_cols fr)) (float_cols t)) =
      rolling_feature_names
  ∧ Forall (λ c, length (snd c) = length (rows fr))
           (drop (length (float_cols fr)) (float_cols t)).
Proof.
  intros _ t. subst t. unfold compute_rolling_features. cbv zeta.
  cbn [rows int_cols float_cols].
  destruct (joined_columns_shape (rows fr)) as [Hnames Hlens].
  cbv zeta in Hnames, Hlens.
  split; [reflexivity|]. split; [reflexivity|].
  split; [apply take_app_length|].
  rewrite drop_app_length. split; [exact Hnames|exact Hlens].
Qed.

Lemma rolling_columns_shape_witness :
  let fr := mkFrame test_df [] [] in
  let t := compute_rolling_features fr in
  rows t = test_df
  ∧ map fst (float_cols t) = rolling_feature_names
  ∧ Forall (λ c, length (snd c) = 6%nat) (float_cols t).
Proof.
  intros fr t.
  assert (no_rolling_columns fr) as Hfresh.
  { intros c Hc. by apply elem_of_nil in Hc. }
  destruct (rolling_columns_shape fr Hfresh) as (C1 & _ & _ & C2 & C3).
  split_and!; [exact C1|exact C2|exact C3].
Defined.

(** X15. With a 0/1 target in every row, every cell of every rolling
    win-rate column is a number between 0 and 1, never NaN. *)
Theorem rolling_win_rate_unit_interval (fr : Frame) role w i :
  no_rolling_columns fr →
  (∀ m, m ∈ rows fr → target m = 0 ∨ target m = 1) →
  w ∈ RECENT_FORM_WINDOWS → (i < length (rows fr))%nat →
  ∃ q, float_cell (compute_rolling_features fr)
                  (feature_name role "recent_win_rate_" w) i = Some (Some q)
       ∧ (0 <= q)%Q ∧ (q <= 1)%Q.
Proof.
  intros Hfresh Htarget Hw Hi.
  destruct (rolling_cell_in_range fr role w "recent_win_rate_" won i 0 1
              Hfresh Hw) as (cell & Hcell & Hrange & Hsome);
    [by left|done| |by vm_compute|].
  { intros e (r & -> & Hr)%list_elem_of_fmap.
    apply elem_of_concat in Hr as (j & m & Hj & [-> | ->]);
      apply list_elem_of_lookup_2, Htarget in Hj as [?|?]; cbn; lia. }
  destruct (Hsome eq_refl) as [q ->]. by exists q.
Qed.

Lemma rolling_win_rate_unit_interval_witness :
  ∃ q, float_cell (compute_rolling_features (mkFrame test_df [] []))
                  (feature_name false "recent_win_rate_" 5) 5 =
         Some (Some q)
       ∧ (0 <= q)%Q ∧ (q <= 1)%Q.
Proof.
  apply (rolling_win_rate_unit_interval (mkFrame test_df [] []) false 5%nat
           5%nat).
  - intros c Hc. by apply elem_of_nil in Hc.
  - apply Forall_forall. repeat constructor; (by left) || (by right).
  - by left.
  - simpl. lia.
Defined.



(** X17. In a frame where no player has more than one event (no
    player appears in two rows or on both sides of a row), every cell of
    the four rolling average columns is NaN: the fill has no column mean to
    write. *)
Theorem rolling_average_all_nan (fr : Frame) role w stem metric i :
  no_rolling_columns fr →
  w ∈ RECENT_FORM_WINDOWS → (stem, metric) ∈ magnitude_metrics →
  (i < length (rows fr))%nat →
  (∀ p, (length (player_history p (rows fr)) ≤ 1)%nat) →
  float_cell (compute_rolling_features fr) (feature_name role stem w) i =
    Some None.
Proof.
  intros Hfresh Hw Hsm Hi Hone.
  destruct (lookup_lt_is_Some_2 _ _ Hi) as [m Hm].
  assert (∀ c, c ∈ map fst (float_cols fr) → contains "recent_" c = false)
    as Hfloat.
  { intros c Hc. apply Hfresh, elem_of_app. by left. }
  assert ((stem, metric) ∈ rolling_metrics) as Hsm' by (by right).
  rewrite (rolling_cell fr role w stem metric i m Hw Hsm' Hm Hfloat).
  rewrite (raw_cells_single w metric (rows fr) _ Hone
             (event_row_in_player_df role _ i m Hm)).
  rewrite (raw_column_single w metric (rows fr) Hone).
  unfold magnitude_metrics in Hsm.
  rewrite !elem_of_cons, elem_of_nil in Hsm.
  destruct Hsm as [Hs|[Hs|[Hs|[Hs|[]]]]]; injection Hs as -> _; reflexivity.
Qed.

Lemma rolling_average_all_nan_witness :
  float_cell
    (compute_rolling_features (mkFrame [ex_row 1 "A" "B" 1 12 8] [] []))
    (feature_name true "recent_games_won_avg_" 5) 0 = Some None.
Proof.
  apply (rolling_average_all_nan (mkFrame [ex_row 1 "A" "B" 1 12 8] [] [])
           true 5%nat "recent_games_won_avg_" games_won 0%nat).
  - intros c Hc. by apply elem_of_nil in Hc.
  - by left.
  - by left.
  - simpl. lia.
  - intros p. unfold player_history, player_rows, events_of. simpl.
    repeat case_decide; simpl; try lia; congruence.
Defined.

(** X18. As soon as some player has two events in the frame, no cell
    of any rolling column is NaN. *)
Theorem rolling_average_no_nan (fr : Frame) role w stem metric i (p : string) :
  no_rolling_columns fr →
  w ∈ RECENT_FORM_WINDOWS → (stem, metric) ∈ rolling_metrics →
  (i < length (rows fr))%nat →
  (2 ≤ length (player_history p (rows fr)))%nat →
  ∃ q, float_cell (compute_rolling_features fr) (feature_name role stem w) i =
         Some (Some q).
Proof.
  intros Hfresh Hw Hsm Hi Htwo.
  destruct (lookup_lt_is_Some_2 _ _ Hi) as [m Hm].
  assert (∀ c, c ∈ map fst (float_cols fr) → contains "recent_" c = false)
    as Hfloat.
  { intros c Hc. apply Hfresh, elem_of_app. by left. }
  rewrite (rolling_cell fr role w stem metric i m Hw Hsm Hm Hfloat).
  destruct (raw_column_mean w metric (rows fr) p (windows_positive w Hw) Htwo)
    as [mean Hmean].
  rewrite Hmean. unfold fill_cell.
  destruct (series_at _ _) as [x|]; [by eexists|].
  destruct (contains "win_rate" stem); by eexists.
Qed.

Lemma rolling_average_no_nan_witness :
  ∃ q, float_cell (compute_rolling_features (mkFrame test_df [] []))
                  (feature_name true "recent_sets_won_avg_" 10) 0 =
         Some (Some q).
Proof.
  apply (rolling_average_no_nan (mkFrame test_df [] []) true 10%nat
           "recent_sets_won_avg_" sets_won 0%nat "A").
  - intros c Hc. by apply elem_of_nil in Hc.
  - right. by left.
  - do 3 right. by left.
  - simpl. lia.
  - vm_compute. lia.
Defined.

(** X19. [compute_rolling_features] does not mutate its argument: every
    object of the store keeps its value, the argument included, and the
    table returned is a new object that holds the joined frame. *)
Theorem compute_rolling_features_frame (h : Heap.heap) (df : nat) (f : Frame) :
  h !! df = Some (Heap.MatchFrame f) →
  Heap.wp (Heap.compute_rolling_features df) h
    (λ res h',
       Heap.preserved h h'
       ∧ h' !! df = Some (Heap.MatchFrame f)
       ∧ h !! res = None
       ∧ h' !! res = Some (Heap.MatchFrame (compute_rolling_features f))).
Proof.
  intros Hdf. eapply wp_mono; [by apply heap_compute_rolling_features|].
  intros res h' (Hp & Hres & Hval). split_and!; try done. by apply Hp.
Qed.

Lemma compute_rolling_features_frame_witness :
  let frame := mkFrame test_df [] [] in
  let h : Heap.heap := {[ 3%nat := Heap.MatchFrame frame ]} in
  let run := Heap.compute_rolling_features 3%nat h in
  snd run !! 3%nat = Some (Heap.MatchFrame frame)
  ∧ h !! fst run = None
  ∧ snd run !! fst run =
      Some (Heap.MatchFrame (compute_rolling_features frame)).
Proof.
  intros frame h run.
  assert (h !! 3%nat = Some (Heap.MatchFrame frame)) as Hdf by reflexivity.
  destruct (compute_rolling_features_frame h 3%nat frame Hdf)
    as (_ & C1 & C2 & C3).
  split_and!; [exact C1|exact C2|exact C3].
Defined.

End rolling_properties.

(** ** Preprocessing (preprocess.py) *)

Section preprocessing_properties.
Import Rolling Score.
Implicit Types (df : list RawMatch) (raw : RawMatch).

(** X20. The four totals [parse_match_score] returns for a string are
    never negative, and the sets credited to the two sides together are at
    most the number of white-space separated tokens of the string. *)
Theorem parse_match_score_bounds (s : string) :
  ∃ w_games l_games w_sets l_sets,
    parse_match_score (PyStr s) = Returns (w_games, l_games, w_sets, l_sets)
    ∧ 0 ≤ w_games ∧ 0 ≤ l_games ∧ 0 ≤ w_sets ∧ 0 ≤ l_sets
    ∧ w_sets + l_sets ≤ Z.of_nat (length (split s)).
Proof.
  rewrite parse_match_score_sum. pose proof (totals_bounds (split s)) as Hb.
  destruct (foldl add_totals (0, 0, 0, 0) (map contribution (split s)))
    as [[[a b] c] d].
  by exists a, b, c, d.
Qed.

(** X21. The totals of two score strings joined by a white-space
    character are the sums of the totals of the two strings. *)
Theorem parse_match_score_concat (a b : string) (c : ascii) :
  isspace c = true →
  ∃ ta tb,
    parse_match_score (PyStr a) = Returns ta
    ∧ parse_match_score (PyStr b) = Returns tb
    ∧ parse_match_score (PyStr (a +:+ String c b)) =
        Returns (add_totals ta tb).
Proof.
  intros Hc. rewrite !parse_match_score_sum. eexists _, _.
  split; [reflexivity|]. split; [reflexivity|].
  rewrite (split_app a b c Hc), map_app, foldl_app.
  by rewrite foldl_add_totals.
Qed.

Lemma parse_match_score_concat_witness :
  ∃ ta tb,
    parse_match_score (PyStr "6-4") = Returns ta
    ∧ parse_match_score (PyStr "3-6 7-6(5)") = Returns tb
    ∧ parse_match_score (PyStr "6-4 3-6 7-6(5)") = Returns (add_totals ta tb).
Proof.
  exact (parse_match_score_concat "6-4" "3-6 7-6(5)" " " eq_refl).
Defined.

(** X22. [preprocess_data] returns one row per row of the raw frame,
    in the same order, with the date, surface and level of the raw row; the
    target is 1 with the winner as player 1, or 0 with the winner as player
    2; in both cases the player the row says won is the winner of the raw
    row. *)
Theorem preprocess_data_keeps_result `{Numpy} df :
  ∃ out,
    preprocess_data df = Returns out
    ∧ length out = length df
    ∧ ∀ i raw, df !! i = Some raw →
        ∃ row, out !! i = Some row
          ∧ let m := match_row row in
            tourney_date m = raw_tourney_date raw
            ∧ surface m = raw_surface raw
            ∧ row_level row = tourney_level raw
            ∧ ((target m = 1 ∧ p1_name m = winner_name raw
                ∧ p2_name m = loser_name raw)
               ∨ (target m = 0 ∧ p1_name m = loser_name raw
                  ∧ p2_name m = winner_name raw))
            ∧ winner m = winner_name raw.
Proof.
  destruct (preprocess_returns df) as (out & Hout & Hlen).
  exists out. split; [done|]. split; [done|].
  intros i raw Hi.
  destruct (preprocess_row df i raw Hi)
    as (out' & swap & gw & gl & sw & sl & Hout' & _ & _ & Hrow).
  rewrite Hout in Hout'. injection Hout' as <-. cbv zeta in Hrow.
  eexists. split; [exact Hrow|].
  destruct swap; cbn; split_and!; auto.
Qed.

(** X23. In a row [preprocess_data] returns, the event of the winner
    carries [won = 1] and the games and sets [parse_match_score] counts for
    the winner's side of the score (zero for a missing score), the event of
    the loser carries [won = 0] and the same numbers mirrored; none of
    them is negative. *)
Theorem preprocess_data_tallies `{Numpy} df i raw :
  df !! i = Some raw →
  ∃ out row gw gl sw sl,
    preprocess_data df = Returns out
    ∧ out !! i = Some row
    ∧ parse_match_score (fill_score (score raw)) = Returns (gw, gl, sw, sl)
    ∧ let m := match_row row in
      let tallies e := (games_won e, games_lost e, sets_won e, sets_lost e) in
      let e1 := p1_event i m in
      let e2 := p2_event i m in
      ((player e1 = winner_name raw ∧ won e1 = 1 ∧ tallies e1 = (gw, gl, sw, sl)
        ∧ player e2 = loser_name raw ∧ won e2 = 0
        ∧ tallies e2 = (gl, gw, sl, sw))
       ∨ (player e2 = winner_name raw ∧ won e2 = 1
          ∧ tallies e2 = (gw, gl, sw, sl)
          ∧ player e1 = loser_name raw ∧ won e1 = 0
          ∧ tallies e1 = (gl, gw, sl, sw)))
      ∧ 0 ≤ gw ∧ 0 ≤ gl ∧ 0 ≤ sw ∧ 0 ≤ sl.
Proof.
  intros Hi.
  destruct (preprocess_row df i raw Hi)
    as (out & swap & gw & gl & sw & sl & Hout & _ & Hparse & Hrow).
  cbv zeta in Hrow.
  eexists out, _, gw, gl, sw, sl.
  split; [done|]. split; [exact Hrow|]. split; [done|].
  split.
  - destruct swap; cbn; [right|left]; done.
  - by eapply parse_match_score_nonneg.
Qed.

Lemma preprocess_data_tallies_witness :
  ∃ out row gw gl sw sl,
    preprocess_data (H:=numpy_alternating) raw_example = Returns out
    ∧ out !! 0%nat = Some row
    ∧ parse_match_score (PyStr "6-4 3-6 7-6(5)") = Returns (gw, gl, sw, sl)
    ∧ 0 ≤ gw ∧ 0 ≤ gl ∧ 0 ≤ sw ∧ 0 ≤ sl.
Proof.
  destruct (preprocess_data_tallies (H:=numpy_alternating) raw_example 0%nat
              _ eq_refl)
    as (out & row & gw & gl & sw & sl & C1 & C2 & C3 & _ & C4).
  exists out, row, gw, gl, sw, sl. split_and!; [exact C1|exact C2|exact C3|..];
    apply C4.
Defined.

(** X24. After [preprocess_data] no rank is missing: each player has
    the rank of the raw row, or 2000 where it was missing; and an age is
    missing only when every cell of the winner's or of the loser's age
    column of the raw frame is missing. *)
Theorem preprocess_data_ranks_and_ages `{Numpy} df i raw :
  df !! i = Some raw →
  ∃ out row,
    preprocess_data df = Returns out
    ∧ out !! i = Some row
    ∧ let rank r := default (inject_Z DEFAULT_RANK) r in
      ((target (match_row row) = 1
        ∧ p1_rank row = Some (rank (winner_rank raw))
        ∧ p2_rank row = Some (rank (loser_rank raw)))
       ∨ (target (match_row row) = 0
          ∧ p1_rank row = Some (rank (loser_rank raw))
          ∧ p2_rank row = Some (rank (winner_rank raw))))
      ∧ (p1_age row = None ∨ p2_age row = None →
         Forall (λ raw', winner_age raw' = None) df
         ∨ Forall (λ raw', loser_age raw' = None) df).
Proof.
  intros Hi.
  destruct (preprocess_row df i raw Hi)
    as (out & swap & gw & gl & sw & sl & Hout & _ & _ & Hrow).
  cbv zeta in Hrow. eexists out, _.
  split; [done|]. split; [exact Hrow|]. cbv zeta.
  assert (∀ column : RawMatch → option Q,
            match column raw with
            | Some a => Some a
            | None => median (map column df)
            end = None →
            Forall (λ raw', column raw' = None) df) as Hage.
  { intros column Hnone. destruct (column raw); [done|].
    apply median_None in Hnone. by apply Forall_fmap in Hnone. }
  split.
  - destruct swap; cbn; [right|left]; done.
  - destruct swap; cbn; intros [Hn|Hn]; apply Hage in Hn; auto.
Qed.

Lemma preprocess_data_ranks_and_ages_witness :
  ∃ out row,
    preprocess_data (H:=numpy_alternating) raw_example = Returns out
    ∧ out !! 1%nat = Some row
    ∧ (p1_age row = None ∨ p2_age row = None →
       Forall (λ raw', winner_age raw' = None) raw_example
       ∨ Forall (λ raw', loser_age raw' = None) raw_example).
Proof.
  destruct (preprocess_data_ranks_and_ages (H:=numpy_alternating) raw_example
              1%nat _ eq_refl) as (out & row & C1 & C2 & _ & C3).
  exists out, row. split_and!; [exact C1|exact C2|exact C3].
Defined.

(** X25. Whatever numbers the random generator draws, the rows
    [preprocess_data] returns are the same matches: two draws give rows
    that are equal or list the same two players in the other order. *)
Theorem preprocess_data_swap (generator1 generator2 : Numpy)
    (df : list RawMatch) :
  ∃ out1 out2,
    preprocess_data (H:=generator1) df = Returns out1
    ∧ preprocess_data (H:=generator2) df = Returns out2
    ∧ same_up_to_roles (map match_row out1) (map match_row out2).
Proof.
  destruct (preprocess_returns (H:=generator1) df) as (out1 & Hout1 & Hlen1).
  destruct (preprocess_returns (H:=generator2) df) as (out2 & Hout2 & Hlen2).
  exists out1, out2. split; [done|]. split; [done|].
  apply Forall2_fmap, Forall2_same_length_lookup. split; [congruence|].
  intros i row1 row2 Hrow1 Hrow2.
  assert (i < length df)%nat as Hi.
  { rewrite <- Hlen1. by eapply lookup_lt_Some. }
  destruct (lookup_lt_is_Some_2 _ _ Hi) as [raw Hraw].
  destruct (preprocess_row (H:=generator1) df i raw Hraw)
    as (o1 & swap1 & gw & gl & sw & sl & Ho1 & _ & Hp1 & Hr1).
  destruct (preprocess_row (H:=generator2) df i raw Hraw)
    as (o2 & swap2 & gw' & gl' & sw' & sl' & Ho2 & _ & Hp2 & Hr2).
  rewrite Hout1 in Ho1. injection Ho1 as <-.
  rewrite Hout2 in Ho2. injection Ho2 as <-.
  rewrite Hp1 in Hp2. injection Hp2 as <- <- <- <-.
  cbv zeta in Hr1, Hr2. rewrite Hrow1 in Hr1. rewrite Hrow2 in Hr2.
  injection Hr1 as ->. injection Hr2 as ->.
  destruct swap1, swap2; cbn; auto.
Qed.

End preprocessing_properties.

(** ** From the raw frame to the feature table (predictor.py) *)

Section pipeline_properties.
Import Rolling.

(** X26. Preprocessing followed by [add_features] returns a table with
    one row per raw row in which, for both players of every row, the
    surface win percentage and every rolling win rate lie between 0 and 1,
    and every rolling average is NaN or not negative. *)
Theorem engineered_feature_ranges `{Pandas} `{Numpy} (data : list RawMatch) :
  ∃ t surf_history h2h_history,
    engineer data = Score.Returns (t, surf_history, h2h_history)
    ∧ length (rows t) = length data
    ∧ ∀ i role w, (i < length data)%nat → w ∈ RECENT_FORM_WINDOWS →
        (∃ q, float_cell t (role_prefix role +:+ "surface_win_pct") i =
                Some (Some q) ∧ (0 <= q)%Q ∧ (q <= 1)%Q)
        ∧ (∃ q, float_cell t (feature_name role "recent_win_rate_" w) i =
                  Some (Some q) ∧ (0 <= q)%Q ∧ (q <= 1)%Q)
        ∧ ∀ stem metric, (stem, metric) ∈ magnitude_metrics →
            ∃ cell, float_cell t (feature_name role stem w) i = Some cell
                    ∧ match cell with
                      | Some q => (0 <= q)%Q
                      | None => True
                      end.
Proof.
  destruct (preprocess_returns data) as (out & Hout & Hlen).
  unfold engineer. rewrite Hout. cbn [Score.bind].
  set (df := map match_row out).
  assert (length df = length data) as Hdf by (subst df; by rewrite length_map).
  destruct (add_features df) as [[t sh] hh] eqn:Hadd.
  exists t, sh, hh. split; [done|].
  assert (t = fst (fst (add_features df))) as Ht by (by rewrite Hadd).
  (* the rows the pass sees *)
  assert (∀ m, m ∈ processing_order df →
            (target m = 0 ∨ target m = 1)
            ∧ 0 ≤ p1_games_won m ∧ 0 ≤ p1_games_lost m
            ∧ 0 ≤ p1_sets_won m ∧ 0 ≤ p1_sets_lost m
            ∧ 0 ≤ p2_games_won m ∧ 0 ≤ p2_games_lost m
            ∧ 0 ≤ p2_sets_won m ∧ 0 ≤ p2_sets_lost m) as Hdata.
  { intros m (m' & d & Hm' & ->)%elem_of_processing_order.
    subst df. apply list_elem_of_fmap in Hm' as (row & -> & Hrow).
    exact (preprocess_rows_sound data out row Hout Hrow). }
  split.
  { rewrite Ht. unfold add_features. cbv zeta. cbn [fst rows].
    unfold compute_rolling_features. cbn [rows].
    by rewrite processing_order_length. }
  intros i role w Hi Hw. rewrite <- Hdf in Hi.
  assert (i < length (processing_order df))%nat as Hi'
    by (by rewrite processing_order_length).
  destruct (lookup_lt_is_Some_2 _ _ Hi') as [m Hm].
  destruct (list_elem_of_split_length _ _ _ Hm) as (pre & post & Hsplit & Hpre).
  split_and!.
  - destruct (streamed_cells df pre m post Hsplit) as (H1 & H2 & _).
    rewrite <- Ht in H1, H2. rewrite <- Hpre in H1, H2.
    destruct role.
    + change (role_prefix true +:+ "surface_win_pct")
        with "p1_surface_win_pct"%string.
      eexists. split; [exact H1|].
      apply get_surface_win_pct_unit_interval, run_loop_reachable.
    + change (role_prefix false +:+ "surface_win_pct")
        with "p2_surface_win_pct"%string.
      eexists. split; [exact H2|].
      apply get_surface_win_pct_unit_interval, run_loop_reachable.
  - destruct (add_features_rolling_range df role w "recent_win_rate_" won i
                0 1 Hw) as (cell & Hcell & Hrange & Hsome);
      [left|done| |by vm_compute|].
    { intros e (r & -> & Hr)%list_elem_of_fmap.
      apply elem_of_concat in Hr as (j & m' & Hj & [-> | ->]);
        apply list_elem_of_lookup_2, Hdata in Hj as ([?|?] & _);
        cbn; lia. }
    destruct (Hsome eq_refl) as [q ->]. rewrite Ht.
    exists q. split; [done|]. exact Hrange.
  - intros stem metric Hsm.
    destruct (upper_bound
                (map metric (map snd (concat (processing_order df)))))
      as (hi & Hpos & Hhi).
    destruct (add_features_rolling_range df role w stem metric i 0 hi Hw)
      as (cell & Hcell & Hrange & _); [by right|done| | |].
    { intros e He. split; [|by apply Hhi, list_elem_of_fmap_2].
      apply list_elem_of_fmap in He as (r & -> & Hr).
      unfold magnitude_metrics in Hsm.
      rewrite !elem_of_cons, elem_of_nil in Hsm.
      apply elem_of_concat in Hr as (j & m' & Hj & [-> | ->]);
        apply list_elem_of_lookup_2, Hdata in Hj;
        destruct Hsm as [Hs|[Hs|[Hs|[Hs|[]]]]]; injection Hs as _ ->;
        cbn; lia. }
    { unfold magnitude_metrics in Hsm.
      rewrite !elem_of_cons, elem_of_nil in Hsm.
      destruct Hsm as [Hs|[Hs|[Hs|[Hs|[]]]]]; injection Hs as -> _;
        intros Hc; vm_compute in Hc; done. }
    rewrite Ht. exists cell. split; [done|].
    destruct cell as [q|]; [|done]. apply Hrange.
Qed.

End pipeline_properties.
